(** * rcsb-molstar: assembly disambiguation, range expansion and motif submission

    A shallow embedding of the logic of the viewer layer that does not
    delegate to the host toolkit:

    - [Preset.determineAssemblyId] with its local helpers [equals] and
      [parseOperatorList], and the start of [RcsbPreset.apply]
      (helpers/preset.ts),
    - [Strucmotif.submitSearch] (the structural motif search panel),
    - the range loop of [getLociFromRange] and [createComponentFromRange],
      the lookup of structures by model id, [selectSegment], [loadPdbId] and
      [createComponent] (viewer index.ts),
    - [getDecorator], [extractStructureDataFromState] and
      [encodeStructureData] (helpers/export.ts).

    Conventions.  A JavaScript string is a [string] whose characters are code
    units below 256.  The numbers that the code computes with (the bounds of
    a range and the counter of a loop over it) are [Js.number]s: the integers
    that a double holds, [NaN] and the two infinities; adding one rounds as a
    double does, so a counter stops growing at 2^53.  Numbers that are only
    passed on (a residue number of a selection, a colour) are [Z].  An array
    is a [list]; the limit of 2^32 - 1 on the length of an array is not part
    of the model and is a hypothesis where a statement depends on it.  A
    value that may be [undefined] is an [option].  Evaluation that may throw
    is a [completion]; a loop that never ends exhausts every loop bound. *)

From Stdlib Require Import String Ascii List ZArith Lia Bool Arith.
From Stdlib Require Import Numbers.DecimalString Sorting.Sorted.
From Stdlib Require DecimalZ DecimalPos.
Import ListNotations.

Open Scope string_scope.
Open Scope list_scope.
Open Scope Z_scope.

(** ** Completions: normal results, exceptions, exhausted loop bounds *)

Inductive completion (A : Type) : Type :=
| Normal (a : A)
| Throw (e : string)
| OutOfFuel.

Arguments Normal {A} a.
Arguments Throw {A} e.
Arguments OutOfFuel {A}.

Definition bind {A B : Type} (c : completion A) (k : A -> completion B) : completion B :=
  match c with
  | Normal a => k a
  | Throw e => Throw e
  | OutOfFuel => OutOfFuel
  end.

Notation "x <- c ;; k" := (bind c (fun x => k))
  (at level 61, c at next level, right associativity).

(** [try { body } catch (error) { handler(error) }]: only exceptions are
    caught; an exhausted loop bound is not an exception. *)
Definition try_catch {A : Type} (body : completion A) (handler : string -> completion A)
  : completion A :=
  match body with
  | Normal a => Normal a
  | Throw e => handler e
  | OutOfFuel => OutOfFuel
  end.

(** What a call into the host (a property chain, a method of a host object)
    gives back: a value, or an exception. *)
Inductive accessed (A : Type) : Type :=
| Got (a : A)
| Raised (e : string).

Arguments Got {A} a.
Arguments Raised {A} e.

Definition access {A : Type} (r : accessed A) : completion A :=
  match r with
  | Got a => Normal a
  | Raised e => Throw e
  end.

(** ** The parts of the JavaScript runtime the code relies on *)

Module Js.

(** *** Numbers *)

(** The values of type Number that the code meets: an integer held in a
    double, [NaN], [Infinity] and [-Infinity].  ([-0] is [Int 0]: the two
    zeros compare, add and print alike.) *)
Inductive number : Type :=
| NaN
| Int (z : Z)
| PosInfinity
| NegInfinity.

(** [Number.MAX_SAFE_INTEGER], 2^53 - 1. *)
Definition MAX_SAFE_INTEGER : Z := 9007199254740991.

(** The magnitude [a], above 2^53, rounded to a significand of 53 bits: [a]
    lies between [q * 2^e] and [(q + 1) * 2^e] for a [q] of 53 bits, and goes
    to the nearer of the two, a tie going to the even significand. *)
Definition round_magnitude (a : Z) : Z :=
  let e := Z.log2 a - 52 in
  let q := Z.shiftr a e in
  let r := a - Z.shiftl q e in
  let half := Z.shiftl 1 (e - 1) in
  Z.shiftl (if (half <? r) || ((r =? half) && Z.odd q) then q + 1 else q) e.

(** The Number value for the mathematical integer [z]: [z] itself up to
    2^53 in absolute value; beyond, the nearest integer with a significand of
    53 bits, and an infinity from 2^1024 on. *)
Definition round_double (z : Z) : number :=
  let a := Z.abs z in
  if a <=? MAX_SAFE_INTEGER + 1 then Int z
  else
    let v := round_magnitude a in
    if Z.shiftl 1 1024 <=? v then (if z <? 0 then NegInfinity else PosInfinity)
    else Int (Z.sgn z * v).

(** [v] is read back as the double [a]. *)
Definition rounds_to (a v : Z) : bool :=
  match round_double v with
  | Int w => w =? a
  | _ => false
  end.

(** The integers among the values are those that a double holds. *)
Definition is_double (i : number) : bool :=
  match i with
  | Int z => rounds_to z z
  | _ => true
  end.

(** [i++]: the new value of [i], that is [i + 1] as a double. *)
Definition incr (i : number) : number :=
  match i with
  | Int z => round_double (z + 1)
  | _ => i
  end.

(** [a <= b] *)
Definition le (a b : number) : bool :=
  match a, b with
  | NaN, _ | _, NaN => false
  | NegInfinity, _ => true
  | _, PosInfinity => true
  | PosInfinity, _ => false
  | _, NegInfinity => false
  | Int x, Int y => x <=? y
  end.

(** [for (let i = from; i <= to; i++) acc = body(i, acc)], run with a loop
    bound. *)
Fixpoint for_le {A : Type} (fuel : nat) (i to : number) (body : number -> A -> A) (acc : A)
  : completion A :=
  match fuel with
  | O => OutOfFuel
  | S fuel' =>
      if le i to then for_le fuel' (incr i) to body (body i acc) else Normal acc
  end.

(** A loop bound that is enough for every loop that ends
    ([for_le_bound_enough] below): while the counter grows it grows by one
    at least, so a loop that ends tests [i <= to] at most [to - from + 2]
    times; between values that are not both integers it ends at the first
    test or never. *)
Definition for_le_bound (from to : number) : nat :=
  match from, to with
  | Int f, Int t => S (Z.to_nat (t + 1 - f))
  | _, _ => 1%nat
  end.

(** *** Strings *)

(** White space and line terminators below code unit 256. *)
Definition is_white_space (c : ascii) : bool :=
  let n := nat_of_ascii c in
  ((n =? 9) || (n =? 10) || (n =? 11) || (n =? 12) || (n =? 13) || (n =? 32)
   || (n =? 160))%nat.

Fixpoint trim_start (s : string) : string :=
  match s with
  | String c s' => if is_white_space c then trim_start s' else s
  | EmptyString => EmptyString
  end.

Fixpoint trim_end (s : string) : string :=
  match s with
  | String c s' =>
      match trim_end s' with
      | EmptyString => if is_white_space c then EmptyString else String c EmptyString
      | t => String c t
      end
  | EmptyString => EmptyString
  end.

(** [String.prototype.trim] *)
Definition trim (s : string) : string := trim_end (trim_start s).

(** [s.indexOf(sub)] on strings: first position of [sub] in [s], or [-1]. *)
Definition indexOf (s sub : string) : Z :=
  match String.index 0 sub s with
  | Some n => Z.of_nat n
  | None => -1
  end.

(** [a.indexOf(x)] on an array of strings (strict equality). *)
Fixpoint array_indexOf (a : list string) (x : string) : Z :=
  match a with
  | [] => -1
  | y :: a' =>
      if String.eqb y x then 0
      else let r := array_indexOf a' x in if r =? -1 then -1 else r + 1
  end.

(** [s.split(c)] for a one-character separator. *)
Fixpoint split (c : ascii) (s : string) : list string :=
  match s with
  | EmptyString => [EmptyString]
  | String a s' =>
      if Ascii.eqb a c then EmptyString :: split c s'
      else match split c s' with
           | h :: t => String a h :: t
           | [] => [String a EmptyString]
           end
  end.

(** [s.substring(0, n)] and [s.substr(n)] for [0 <= n]. *)
Definition substring_to (n : nat) (s : string) : string := String.substring 0 n s.

Fixpoint substr_from (n : nat) (s : string) : string :=
  match n, s with
  | O, _ => s
  | S n', String _ s' => substr_from n' s'
  | S _, EmptyString => EmptyString
  end.

(** Value of a digit in the given radix (10 or 16). *)
Definition digit_value (radix : Z) (c : ascii) : option Z :=
  let n := Z.of_nat (nat_of_ascii c) in
  let v :=
    if (48 <=? n) && (n <=? 57) then Some (n - 48)
    else if (97 <=? n) && (n <=? 122) then Some (n - 97 + 10)
    else if (65 <=? n) && (n <=? 90) then Some (n - 65 + 10)
    else None in
  match v with
  | Some d => if d <? radix then Some d else None
  | None => None
  end.

(** The digits of the longest prefix of [s] that is a numeral. *)
Fixpoint digits_prefix (radix : Z) (s : string) : list Z :=
  match s with
  | String c s' =>
      match digit_value radix c with
      | Some d => d :: digits_prefix radix s'
      | None => []
      end
  | EmptyString => []
  end.

Definition strip_sign (s : string) : Z * string :=
  match s with
  | String "-" r => (-1, r)
  | String "+" r => (1, r)
  | _ => (1, s)
  end.

Definition strip_radix_prefix (s : string) : Z * string :=
  match s with
  | String "0" (String "x" r) => (16, r)
  | String "0" (String "X" r) => (16, r)
  | _ => (10, s)
  end.

(** The mathematical integer that [parseInt(s)], without a radix argument,
    reads off the start of [s]; [None] when there is no digit to read. *)
Definition parse_integer (s : string) : option Z :=
  let '(sign, s1) := strip_sign (trim_start s) in
  let '(radix, s2) := strip_radix_prefix s1 in
  match digits_prefix radix s2 with
  | [] => None
  | ds => Some (sign * fold_left (fun acc d => acc * radix + d) ds 0)
  end.

(** [parseInt(s)] without a radix argument: the integer read, as the nearest
    double. *)
Definition parseInt (s : string) : number :=
  match parse_integer s with
  | None => NaN
  | Some z => round_double z
  end.

(** The decimal numeral of an integer, all digits written out. *)
Definition decimal (z : Z) : string := NilEmpty.string_of_int (Z.to_int z).

(** Among the integers with [k] significant digits followed by zeros, the
    one nearest to [a] that is read back as [a], if there is one; [n] is
    the number of digits of [a]. *)
Definition candidate (a n k : Z) : option Z :=
  let scale := 10 ^ (n - k) in
  let lo := (a / scale) * scale in
  let hi := lo + scale in
  match rounds_to a lo, rounds_to a hi with
  | true, true =>
      Some (if a - lo <? hi - a then lo
            else if hi - a <? a - lo then hi
            else if Z.even (a / scale) then lo else hi)
  | true, false => Some lo
  | false, true => Some hi
  | false, false => None
  end.

(** The integer with the fewest significant digits, [k] or more, that is
    read back as [a]. *)
Fixpoint shortest (fuel : nat) (a n k : Z) : Z :=
  match fuel with
  | O => a
  | S fuel' =>
      if n <=? k then a
      else match candidate a n k with
           | Some v => v
           | None => shortest fuel' a n (k + 1)
           end
  end.

Fixpoint strip_trailing_zeros (s : string) : string :=
  match s with
  | EmptyString => EmptyString
  | String c s' =>
      match strip_trailing_zeros s' with
      | EmptyString => if Ascii.eqb c "0" then EmptyString else String c EmptyString
      | t => String c t
      end
  end.

(** [d.ddde+x] for an integer of more than 21 digits. *)
Definition exponent_form (digits : string) : string :=
  let exponent := decimal (Z.of_nat (String.length digits) - 1) in
  match strip_trailing_zeros digits with
  | EmptyString => "0"
  | String d EmptyString => String d ("e+" ++ exponent)
  | String d rest => String d ("." ++ rest ++ "e+" ++ exponent)
  end.

(** [i.toString()]: up to 2^53 all the digits of the integer; beyond, the
    fewest digits that are read back as the same double, followed by zeros,
    and in exponent form from 10^21 on. *)
Definition toString (i : number) : string :=
  match i with
  | NaN => "NaN"
  | PosInfinity => "Infinity"
  | NegInfinity => "-Infinity"
  | Int z =>
      let a := Z.abs z in
      if a <=? MAX_SAFE_INTEGER + 1 then decimal z
      else
        let digits := decimal (shortest 17 a (Z.of_nat (String.length (decimal a))) 1) in
        let shown :=
          if (String.length digits <=? 21)%nat then digits else exponent_form digits in
        if z <? 0 then String "-" shown else shown
  end.

(** The comparison of the members of a [Set], on numbers. *)
Definition same_value_zero (x y : number) : bool :=
  match x, y with
  | NaN, NaN => true
  | Int a, Int b => a =? b
  | PosInfinity, PosInfinity => true
  | NegInfinity, NegInfinity => true
  | _, _ => false
  end.

(** A [Set<string>] keeps its members in insertion order. *)
Definition StringSet := list string.

Definition set_has (s : StringSet) (x : string) : bool := existsb (String.eqb x) s.

Definition set_add (s : StringSet) (x : string) : StringSet :=
  if set_has s x then s else s ++ [x].

Definition set_size (s : StringSet) : nat := length s.

(** [s.values().next().value] *)
Definition set_first (s : StringSet) : option string := hd_error s.

End Js.

(** ** helpers/preset.ts: [determineAssemblyId] *)

Module Preset.

(** The fields of [Target] (declared in helpers/selection.ts) that
    [determineAssemblyId] reads; both are optional. *)
Record Target : Type := {
  struct_oper_id : option string;
  label_asym_id : option string
}.

(** [MotifProps]: [{ kind: 'motif', label?, targets, color? } & BaseProps]. *)
Record MotifProps : Type := {
  label : option string;
  targets : list Target;
  color : option Z;
  assemblyId : option string;
  modelIndex : option Z
}.

(** [Object.assign(p, { assemblyId: a })] *)
Definition assign_assemblyId (p : MotifProps) (a : string) : MotifProps :=
  {| label := label p; targets := targets p; color := color p;
     assemblyId := Some a; modelIndex := modelIndex p |}.

(** A string is truthy when it is not empty; [undefined] is falsy. *)
Definition truthy (v : option string) : bool :=
  match v with
  | None => false
  | Some a => negb (String.eqb a "")
  end.

(** [v !== s] *)
Definition differs (v : option string) (s : string) : bool :=
  match v with
  | None => true
  | Some a => negb (String.eqb a s)
  end.

(** [p.assemblyId && p.assemblyId !== '' && p.assemblyId !== '0'] *)
Definition assembly_known (p : MotifProps) : bool :=
  truthy (assemblyId p) && differs (assemblyId p) "" && differs (assemblyId p) "0".

(** *** The regular expression [/\(?([^()]+)\)?]*/g] *)

Definition is_paren (c : ascii) : bool := Ascii.eqb c "(" || Ascii.eqb c ")".

(** [[^()]+], greedy: the longest run of characters that are no parenthesis. *)
Fixpoint non_paren_run (s : string) : string :=
  match s with
  | String c s' => if is_paren c then EmptyString else String c (non_paren_run s')
  | EmptyString => EmptyString
  end.

(** []*], greedy: the number of closing square brackets at the start. *)
Fixpoint bracket_run (s : string) : nat :=
  match s with
  | String c s' => if Ascii.eqb c "]" then S (bracket_run s') else O
  | EmptyString => O
  end.

(** An optional character [c] at the start of [s]: how many characters it
    takes and what is left. *)
Definition optional_char (c : ascii) (s : string) : nat * string :=
  match s with
  | String a r => if Ascii.eqb a c then (1%nat, r) else (0%nat, s)
  | EmptyString => (0%nat, s)
  end.

(** A match anchored at the start of [s]: the captured group and the length
    of the match.  An opening parenthesis is taken when present (leaving it
    out could only make the group start on it, which the class forbids);
    the group is the longest run, since everything after it is optional. *)
Definition oeRegex_match_here (s : string) : option (string * nat) :=
  let '(opened, s1) := optional_char "(" s in
  match non_paren_run s1 with
  | EmptyString => None
  | g =>
      let s2 := Js.substr_from (String.length g) s1 in
      let '(closed, s3) := optional_char ")" s2 in
      Some (g, (opened + String.length g + closed + bracket_run s3)%nat)
  end.

(** The first position at or after [pos] where the expression matches;
    [s] is the input from [pos] on.  Returns the group and the end of the
    match. *)
Fixpoint oeRegex_search (s : string) (pos : nat) : option (string * nat) :=
  match oeRegex_match_here s with
  | Some (g, len) => Some (g, (pos + len)%nat)
  | None =>
      match s with
      | String _ s' => oeRegex_search s' (S pos)
      | EmptyString => None
      end
  end.

(** [oeRegex.exec(value)] with [oeRegex.lastIndex = lastIndex]: the group
    and the new [lastIndex], or [None] for [null]. *)
Definition oeRegex_exec (value : string) (lastIndex : nat) : option (string * nat) :=
  oeRegex_search (Js.substr_from lastIndex value) lastIndex.

(** [while (g = oeRegex.exec(value)) groups[groups.length] = g[1];] *)
Fixpoint collect_groups (fuel : nat) (value : string) (lastIndex : nat)
    (groups : list string) : completion (list string) :=
  match fuel with
  | O => OutOfFuel
  | S fuel' =>
      match oeRegex_exec value lastIndex with
      | Some (g, lastIndex') => collect_groups fuel' value lastIndex' (groups ++ [g])
      | None => Normal groups
      end
  end.

(** [l.forEach(x => ...)] over a state. *)
Fixpoint forEach {A S : Type} (l : list A) (body : A -> S -> completion S) (s : S)
  : completion S :=
  match l with
  | [] => Normal s
  | x :: l' => s' <- body x s ;; forEach l' body s'
  end.

(** The bounds of a range element, [parseInt(e.substring(0, dashIndex))]
    and [parseInt(e.substr(dashIndex + 1))]. *)
Definition range_from (e : string) (dashIndex : Z) : Js.number :=
  Js.parseInt (Js.substring_to (Z.to_nat dashIndex) e).

Definition range_to (e : string) (dashIndex : Z) : Js.number :=
  Js.parseInt (Js.substr_from (Z.to_nat (dashIndex + 1)) e).

(** The body of [g.split(',').forEach(e => ...)]. *)
Definition expand_element (e : string) (group : list string) : completion (list string) :=
  let dashIndex := Js.indexOf e "-" in
  if 0 <? dashIndex then
    let from := range_from e dashIndex in
    let to := range_to e dashIndex in
    Js.for_le (Js.for_le_bound from to) from to
      (fun i group => group ++ [Js.toString i]) group
  else Normal (group ++ [Js.trim e]).

(** The body of [groups.forEach(g => ...)]. *)
Definition expand_group (g : string) (ret : list (list string))
  : completion (list (list string)) :=
  group <- forEach (Js.split "," g) expand_element [] ;;
  Normal (ret ++ [group]).

Definition parseOperatorList (value : string) : completion (list (list string)) :=
  groups <- collect_groups (S (String.length value)) value 0 [] ;;
  forEach groups expand_group [].

(** [for (let i = 0, il = ...; i < il; i++) if (list[i].indexOf(split[i]) !== -1) matches++;]
    with [n] iterations left. *)
Fixpoint count_matches (n i : nat) (oplist : list (list string)) (split : list string)
    (matches : nat) : nat :=
  match n with
  | O => matches
  | S n' =>
      let hit := negb (Js.array_indexOf (nth i oplist []) (nth i split "") =? -1) in
      count_matches n' (S i) oplist split (if hit then S matches else matches)
  end.

Definition equals (expr val : string) : completion bool :=
  oplist <- parseOperatorList expr ;;
  let split := Js.split "x" val in
  let matches := count_matches (Nat.min (length oplist) (length split)) 0 oplist split 0 in
  Normal (matches =? length split)%nat.

(** *** The requested [struct_oper_id, label_asym_id] combinations *)

(** A two-element array [[oper, asym]] as stored on the heap. *)
Definition IdPair : Type := string * option string.

(** Arrays are objects: the heap holds them, and a value of array type is a
    reference, here the position in the heap. *)
Definition Ref : Type := nat.
Definition Heap : Type := list IdPair.

(** [s || d] *)
Definition or_default (s : option string) (d : string) : string :=
  match s with
  | None => d
  | Some EmptyString => d
  | Some v => v
  end.

(** [p.targets.map(t => [t.struct_oper_id || '1', t.label_asym_id!])]: every
    call of the callback allocates a fresh array. *)
Fixpoint map_id_pairs (ts : list Target) (heap : Heap) : list Ref * Heap :=
  match ts with
  | [] => ([], heap)
  | t :: ts' =>
      let r := length heap in
      let '(rs, heap') :=
        map_id_pairs ts' (heap ++ [(or_default (struct_oper_id t) "1", label_asym_id t)]) in
      (r :: rs, heap')
  end.

(** [a.indexOf(x)] on an array of references: strict equality is identity. *)
Fixpoint ref_indexOf (a : list Ref) (x : Ref) : Z :=
  match a with
  | [] => -1
  | y :: a' =>
      if Nat.eqb y x then 0
      else let r := ref_indexOf a' x in if r =? -1 then -1 else r + 1
  end.

(** [.filter((x, i, a) => a.indexOf(x) === i)], the elements from index [i] on. *)
Fixpoint filter_first_occurrence (a rest : list Ref) (i : nat) : list Ref :=
  match rest with
  | [] => []
  | x :: rest' =>
      if ref_indexOf a x =? Z.of_nat i
      then x :: filter_first_occurrence a rest' (S i)
      else filter_first_occurrence a rest' (S i)
  end.

(** [const ids = ...], read back from the heap. *)
Definition provided_ids (ts : list Target) : list IdPair :=
  let '(a, heap) := map_id_pairs ts [] in
  map (fun r => nth r heap (EmptyString, None)) (filter_first_occurrence a a 0).

(** *** The metadata table *)

Record CifField : Type := { str : nat -> accessed string }.

Record CifCategory : Type := {
  rowCount : nat;
  getField : string -> accessed (option CifField)
}.

(** What evaluating
    [traj.obj.data.representative.sourceData.data.frame.categories.pdbx_struct_assembly_gen]
    gives: an exception (a link of the chain is null or undefined, or an
    accessor throws), [undefined], or the category. *)
Definition Trajectory : Type := accessed (option CifCategory).

Definition type_error : string := "TypeError: cannot read properties of undefined".

(** [f.str(i)], where [f] may be [undefined]. *)
Definition field_str (f : option CifField) (i : nat) : completion string :=
  match f with
  | Some fld => access (str fld i)
  | None => Throw type_error
  end.

(** [String(v)] for the argument of [indexOf]. *)
Definition to_search_string (v : option string) : string :=
  match v with
  | Some s => s
  | None => "undefined"
  end.

(** [ids.some(val => !equals(oper_expression.str(i), val[0])
                     || asym_id_list.str(i).indexOf(val[1]) === -1)] *)
Fixpoint some_mismatch (oper_expression asym_id_list : option CifField) (i : nat)
    (ids : list IdPair) : completion bool :=
  match ids with
  | [] => Normal false
  | val :: ids' =>
      expr <- field_str oper_expression i ;;
      same <- equals expr (fst val) ;;
      if negb same then Normal true
      else
        asym <- field_str asym_id_list i ;;
        if Js.indexOf asym (to_search_string (snd val)) =? -1 then Normal true
        else some_mismatch oper_expression asym_id_list i ids'
  end.

(** The [for] loop over the rows with [n] rows left, from row [i]:
    [Some a] when the loop assigns [a] and returns, [None] when it runs out
    of rows. *)
Fixpoint scan_rows (n i : nat) (assembly_id oper_expression asym_id_list : option CifField)
    (ids : list IdPair) : completion (option string) :=
  match n with
  | O => Normal None
  | S n' =>
      skip <- some_mismatch oper_expression asym_id_list i ids ;;
      if skip then scan_rows n' (S i) assembly_id oper_expression asym_id_list ids
      else a <- field_str assembly_id i ;; Normal (Some a)
  end.

(** The body of the [try] block. *)
Definition find_assembly (traj : Trajectory) (ids : list IdPair)
  : completion (option string) :=
  category <- access traj ;;
  match category with
  | None => Throw type_error
  | Some pdbx_struct_assembly_gen =>
      assembly_id <- access (getField pdbx_struct_assembly_gen "assembly_id") ;;
      oper_expression <- access (getField pdbx_struct_assembly_gen "oper_expression") ;;
      asym_id_list <- access (getField pdbx_struct_assembly_gen "asym_id_list") ;;
      scan_rows (rowCount pdbx_struct_assembly_gen) 0
        assembly_id oper_expression asym_id_list ids
  end.

(** The function mutates [p] and writes to the console; the model returns
    the props after the call and the warnings in order. *)
Definition determineAssemblyId (traj : Trajectory) (p : MotifProps)
  : completion (MotifProps * list string) :=
  if assembly_known p then Normal (p, [])
  else
    let ids := provided_ids (targets p) in
    r <- try_catch
           (found <- find_assembly traj ids ;; Normal (found, []))
           (fun error => Normal (None, [error])) ;;
    match r with
    | (Some a, warned) => Normal (assign_assemblyId p a, warned)
    | (None, warned) => Normal (assign_assemblyId p "1", warned)
    end.

(** A table given by its rows [(assembly_id, oper_expression, asym_id_list)]. *)
Definition Row : Type := string * string * string.

Definition column (rows : list Row) (proj : Row -> string) : CifField :=
  {| str := fun i => match nth_error rows i with
                     | Some r => Got (proj r)
                     | None => Raised "RangeError: row out of range"
                     end |}.

Definition category_of_rows (rows : list Row) : CifCategory :=
  {| rowCount := length rows;
     getField := fun name =>
       if String.eqb name "assembly_id" then Got (Some (column rows (fun r => fst (fst r))))
       else if String.eqb name "oper_expression" then Got (Some (column rows (fun r => snd (fst r))))
       else if String.eqb name "asym_id_list" then Got (Some (column rows snd))
       else Got None |}.

Definition trajectory_of_rows (rows : list Row) : Trajectory :=
  Got (Some (category_of_rows rows)).

End Preset.

(** ** The structural motif search panel: [submitSearch] *)

Module Strucmotif.

Definition MAX_MOTIF_SIZE : nat := 10.

(** An element of a loci, seen through the location of its first index:
    [StructureProperties.chain.label_asym_id(location)] and
    [StructureProperties.residue.label_seq_id(location)]. *)
Record Element : Type := {
  first_label_asym_id : string;
  first_label_seq_id : Z
}.

(** An entry of [selection.additionsHistory]: [l.loci.structure.model.entry]
    and [l.loci.elements]. *)
Record HistoryEntry : Type := {
  entry : string;
  elements : list Element
}.

Record ResidueId : Type := {
  label_asym_id : string;
  struct_oper_id : option string;
  label_seq_id : Z
}.

(** The strucmotif node of the query; the other fields of the request are
    constants. *)
Record Query : Type := {
  data : option string;
  residue_ids : list ResidueId;
  score_cutoff : Z;
  exchanges : list string;
  return_type : string
}.

(** What a call leaves behind: the console warnings and the query handed to
    [window.open], if any. *)
Record Outcome : Type := {
  warnings : list string;
  opened : option Query
}.

Definition type_error : string := "TypeError: cannot read properties of undefined".

(** The body of the loop for history index [i]. *)
Definition visit (loci : list HistoryEntry) (i : nat)
    (st : Js.StringSet * list ResidueId) : completion (Js.StringSet * list ResidueId) :=
  let '(pdbId, residueIds) := st in
  match nth_error loci i with
  | None => Throw type_error
  | Some l =>
      let pdbId := Js.set_add pdbId (entry l) in
      match elements l with
      | [] => Throw type_error
      | e :: _ =>
          Normal (pdbId,
                  residueIds ++ [ {| label_asym_id := first_label_asym_id e;
                                     struct_oper_id := Some "1";
                                     label_seq_id := first_label_seq_id e |} ])
      end
  end.

(** [for (let i = 0; i < Math.min(MAX_MOTIF_SIZE, loci.length); i++) ...]
    with [n] iterations left. *)
Fixpoint collect (n i : nat) (loci : list HistoryEntry)
    (st : Js.StringSet * list ResidueId) : completion (Js.StringSet * list ResidueId) :=
  match n with
  | O => Normal st
  | S n' => st' <- visit loci i st ;; collect n' (S i) loci st'
  end.

Definition selected (loci : list HistoryEntry)
  : completion (Js.StringSet * list ResidueId) :=
  collect (Nat.min MAX_MOTIF_SIZE (length loci)) 0 loci ([], []).

Definition build_query (pdbId : Js.StringSet) (residueIds : list ResidueId) : Query :=
  {| data := Js.set_first pdbId;
     residue_ids := residueIds;
     score_cutoff := 5;
     exchanges := [];
     return_type := "assembly" |}.

Definition submitSearch (loci : list HistoryEntry) : completion Outcome :=
  st <- selected loci ;;
  let '(pdbId, residueIds) := st in
  if (1 <? Js.set_size pdbId)%nat then
    Normal {| warnings := ["motifs can only be extracted from a single model"];
              opened := None |}
  else if (MAX_MOTIF_SIZE <? length residueIds)%nat then
    Normal {| warnings := ["maximum motif size is 10 residues"]; opened := None |}
  else
    Normal {| warnings := []; opened := Some (build_query pdbId residueIds) |}.

End Strucmotif.

(** ** The viewer: residue ranges *)

Module Viewer.

(** [for (let n = begin; n <= end; n++) seq_id.push(n);], the loop of
    [getLociFromRange] and of [createComponentFromRange], for bounds that
    are integers (residue numbers) or infinite. *)
Definition range_seq_id (begin end_ : Js.number) : completion (list Js.number) :=
  Js.for_le (Js.for_le_bound begin end_) begin end_ (fun n seq_id => seq_id ++ [n]) [].

(** [SetUtils.toArray(new Set(seq_id))]: the members in insertion order. *)
Fixpoint set_to_array (seq_id seen : list Js.number) : list Js.number :=
  match seq_id with
  | [] => seen
  | n :: rest =>
      if existsb (Js.same_value_zero n) seen then set_to_array rest seen
      else set_to_array rest (seen ++ [n])
  end.

(** The atom-group query built from a range: the chain test and the residue
    set. *)
Record RangeQuery : Type := {
  chain_test : string;
  residue_test : list Js.number
}.

(** [getLociFromRange], up to the query it hands to the host; [found] tells
    whether a structure with the model id exists. *)
Definition getLociFromRange (found : bool) (asymId : string) (begin end_ : Js.number)
  : completion (option RangeQuery) :=
  if found then
    seq_id <- range_seq_id begin end_ ;;
    Normal (Some {| chain_test := asymId; residue_test := set_to_array seq_id [] |})
  else Normal None.

End Viewer.

(** ** Notions used in the statements *)

(** The integers [from, from + 1, ...], [n] of them. *)
Definition upto (from : Z) (n : nat) : list Z :=
  map (fun k => from + Z.of_nat k) (seq 0 n).

(** The scan of [determineAssemblyId] accepts row [i] when [ids.some(...)] is
    false there, and rejects it ([continue]) when it is true. *)
Definition row_accepted (oper_expression asym_id_list : option Preset.CifField)
    (ids : list Preset.IdPair) (i : nat) : Prop :=
  Preset.some_mismatch oper_expression asym_id_list i ids = Normal false.

Definition row_rejected (oper_expression asym_id_list : option Preset.CifField)
    (ids : list Preset.IdPair) (i : nat) : Prop :=
  Preset.some_mismatch oper_expression asym_id_list i ids = Normal true.

(** [a] is the assembly id of the first row, in table order, that the scan
    accepts for [ids]. *)
Definition first_match (traj : Preset.Trajectory) (ids : list Preset.IdPair) (a : string)
  : Prop :=
  exists category assembly_id oper_expression asym_id_list i,
    traj = Got (Some category)
    /\ Preset.getField category "assembly_id" = Got assembly_id
    /\ Preset.getField category "oper_expression" = Got oper_expression
    /\ Preset.getField category "asym_id_list" = Got asym_id_list
    /\ (i < Preset.rowCount category)%nat
    /\ (forall j, (j < i)%nat -> row_rejected oper_expression asym_id_list ids j)
    /\ row_accepted oper_expression asym_id_list ids i
    /\ Preset.field_str assembly_id i = Normal a.

(** No row of the table is accepted. *)
Definition no_match (traj : Preset.Trajectory) (ids : list Preset.IdPair) : Prop :=
  exists category assembly_id oper_expression asym_id_list,
    traj = Got (Some category)
    /\ Preset.getField category "assembly_id" = Got assembly_id
    /\ Preset.getField category "oper_expression" = Got oper_expression
    /\ Preset.getField category "asym_id_list" = Got asym_id_list
    /\ (forall j, (j < Preset.rowCount category)%nat ->
                  row_rejected oper_expression asym_id_list ids j).

(** The row test in the words of the specification: every requested token
    lies in the axis at its position, and the requested chain is a member of
    the row's list of chain labels. *)
Fixpoint spec_tokens_in_axes (axes : list (list string)) (tokens : list string)
    {struct tokens} : bool :=
  match tokens with
  | [] => true
  | tok :: tokens' =>
      match axes with
      | [] => false
      | axis :: axes' =>
          existsb (String.eqb tok) axis && spec_tokens_in_axes axes' tokens'
      end
  end.

Definition spec_chain_in_list (asym_id_list chain : string) : bool :=
  existsb (String.eqb chain) (Js.split "," asym_id_list).

Definition spec_pair_matches (axes : list (list string)) (asym_id_list : string)
    (oper chain : string) : bool :=
  spec_chain_in_list asym_id_list chain && spec_tokens_in_axes axes (Js.split "x" oper).

(** The pair that the [map] callback builds for a target. *)
Definition id_pair_of (t : Preset.Target) : Preset.IdPair :=
  (Preset.or_default (Preset.struct_oper_id t) "1", Preset.label_asym_id t).

(** The test that the code applies to a requested pair on a row with the
    parsed axes [axes] and the chain labels [asym_id_list]: every component
    of the requested operator lies in the axis at its position, and the
    requested chain occurs somewhere in the string of chain labels. *)
Definition pair_passes (axes : list (list string)) (asym_id_list : string)
    (val : Preset.IdPair) : bool :=
  spec_tokens_in_axes axes (Js.split "x" (fst val))
  && negb (Js.indexOf asym_id_list (Preset.to_search_string (snd val)) =? -1).

Definition row_passes (axes : list (list string)) (asym_id_list : string)
    (ids : list Preset.IdPair) : bool :=
  forallb (pair_passes axes asym_id_list) ids.

(** The integers as numbers. *)
Definition numbers (l : list Z) : list Js.number := map Js.Int l.

(** The longest array has 2^32 - 1 elements. *)
Definition MAX_ARRAY_LENGTH : Z := 4294967295.

(** The loop [for (i = from; i <= to; i++)] stays within the safe integers:
    it has nothing to do, or it counts from an integer that is at least
    -2^53 to an integer that is at most 2^53 - 1. *)
Definition within_safe_integers (from to : Js.number) : bool :=
  negb (Js.le from to)
  || match from, to with
     | Js.Int f, Js.Int t => (- (Js.MAX_SAFE_INTEGER + 1) <=? f) && (t <=? Js.MAX_SAFE_INTEGER)
     | _, _ => false
     end.

(** An element of a group that is no range, or a range within the safe
    integers. *)
Definition safe_element (e : string) : bool :=
  let dashIndex := Js.indexOf e "-" in
  if 0 <? dashIndex
  then within_safe_integers (Preset.range_from e dashIndex) (Preset.range_to e dashIndex)
  else true.

(** The elements of the groups of an operator expression. *)
Definition elements_of (value : string) : list string :=
  match Preset.collect_groups (S (String.length value)) value 0 [] with
  | Normal groups => flat_map (Js.split ",") groups
  | _ => []
  end.

(** Every range of the operator expression is within the safe integers. *)
Definition safe_expression (value : string) : bool :=
  forallb safe_element (elements_of value).

(** Every operator expression that the table gives has its ranges within the
    safe integers. *)
Definition safe_table (traj : Preset.Trajectory) : Prop :=
  forall category oper_expression i expr,
    traj = Got (Some category) ->
    Preset.getField category "oper_expression" = Got oper_expression ->
    (i < Preset.rowCount category)%nat ->
    Preset.field_str oper_expression i = Normal expr ->
    safe_expression expr = true.

(** ** Inputs used in the examples *)

(** Row 0 = [('1', '(1)', 'A,B')], row 1 = [('2', '(1-2)', 'A')]. *)
Definition two_assemblies : list Preset.Row :=
  [("1", "(1)", "A,B"); ("2", "(1-2)", "A")].

(** A single assembly over the chains [AA] and [B]. *)
Definition assembly_AA_B : list Preset.Row := [("7", "(1)", "AA,B")].

(** An assembly over the chains [AA] and [B] before one over the chain [A]. *)
Definition assembly_AA_B_then_A : list Preset.Row :=
  [("7", "(1)", "AA,B"); ("2", "(1)", "A")].


Definition target (oper asym : option string) : Preset.Target :=
  {| Preset.struct_oper_id := oper; Preset.label_asym_id := asym |}.

Definition motif (ts : list Preset.Target) (assembly : option string) : Preset.MotifProps :=
  {| Preset.label := Some "motif"; Preset.targets := ts; Preset.color := None;
     Preset.assemblyId := assembly; Preset.modelIndex := None |}.

(** A request for chain [A] with operator ['1']. *)
Definition chain_A (assembly : option string) : Preset.MotifProps :=
  motif [target (Some "1") (Some "A")] assembly.

Definition oper_column (rows : list Preset.Row) : option Preset.CifField :=
  Some (Preset.column rows (fun r => snd (fst r))).

Definition asym_column (rows : list Preset.Row) : option Preset.CifField :=
  Some (Preset.column rows snd).

(** A history entry with one selected residue. *)
Definition pick (e asym : string) (seq_id : Z) : Strucmotif.HistoryEntry :=
  {| Strucmotif.entry := e;
     Strucmotif.elements := [ {| Strucmotif.first_label_asym_id := asym;
                                 Strucmotif.first_label_seq_id := seq_id |} ] |}.

(** Eleven residues of chain [A] of the entry [1ABC]. *)
Definition eleven_picks : list Strucmotif.HistoryEntry :=
  map (fun n => pick "1ABC" "A" n) (upto 1 11).

(** ** Notions for the operator expressions *)

(** Every character of [s] satisfies [P]. *)
Fixpoint all_chars (P : ascii -> bool) (s : string) : bool :=
  match s with
  | EmptyString => true
  | String c s' => P c && all_chars P s'
  end.

Definition is_digit (c : ascii) : bool :=
  let n := nat_of_ascii c in ((48 <=? n) && (n <=? 57))%nat.

(** A character that takes no part in the syntax of operator expressions. *)
Definition plain_char (c : ascii) : bool :=
  negb (Preset.is_paren c) && negb (Ascii.eqb c ",") && negb (Ascii.eqb c "-")
  && negb (Js.is_white_space c).

(** An operator name such as [X0] or [12]: not empty, made of plain
    characters. *)
Definition plain_token (t : string) : bool :=
  negb (String.eqb t "") && all_chars plain_char t.

(** [tokens.join(',')] *)
Fixpoint join_commas (tokens : list string) : string :=
  match tokens with
  | [] => ""
  | [t] => t
  | t :: rest => t ++ String "," (join_commas rest)
  end.

(** The operator expression made of the given groups: ['(g1)(g2)']. *)
Fixpoint render_groups (groups : list string) : string :=
  match groups with
  | [] => ""
  | g :: rest => String "(" (g ++ String ")" (render_groups rest))
  end.

(** The operator expression that lists the given axes: ['(a,b)(c)'] for
    [[['a','b'],['c']]]. *)
Definition render_axes (axes : list (list string)) : string :=
  render_groups (map join_commas axes).

(** An axis that can be written down: at least one token, all of them plain. *)
Definition plain_axis (axis : list string) : bool :=
  negb (Nat.eqb (length axis) 0) && forallb plain_token axis.

(** The range element [a-b], written with decimal numerals. *)
Definition range_element (a b : Z) : string :=
  Js.decimal a ++ String "-" (Js.decimal b).

(** The digits of a numeral, most significant first. *)
Fixpoint uint_digits (d : Decimal.uint) : list Z :=
  match d with
  | Decimal.Nil => []
  | Decimal.D0 d' => 0 :: uint_digits d'
  | Decimal.D1 d' => 1 :: uint_digits d'
  | Decimal.D2 d' => 2 :: uint_digits d'
  | Decimal.D3 d' => 3 :: uint_digits d'
  | Decimal.D4 d' => 4 :: uint_digits d'
  | Decimal.D5 d' => 5 :: uint_digits d'
  | Decimal.D6 d' => 6 :: uint_digits d'
  | Decimal.D7 d' => 7 :: uint_digits d'
  | Decimal.D8 d' => 8 :: uint_digits d'
  | Decimal.D9 d' => 9 :: uint_digits d'
  end.

(** ** helpers/preset.ts: the start of [RcsbPreset.apply] *)

Module PresetApply.

(** The kinds of preset other than ['motif']. *)
Inductive OtherKind : Type :=
| Standard | Validation | Symmetry | Feature | Density | Propset | Membrane
| FeatureDensity | Empty.

(** [PresetProps]: a motif preset, or a preset of another kind, of which the
    start of [apply] reads the [BaseProps] only. *)
Inductive PresetProps : Type :=
| Motif (p : Preset.MotifProps)
| Other (kind : OtherKind) (assemblyId : option string) (modelIndex : option Z).

Definition assemblyId (p : PresetProps) : option string :=
  match p with
  | Motif m => Preset.assemblyId m
  | Other _ a _ => a
  end.

Definition modelIndex (p : PresetProps) : option Z :=
  match p with
  | Motif m => Preset.modelIndex m
  | Other _ _ i => i
  end.

(** [RootStructureDefinition.Params]: [{ name: 'model', params: {} }] or
    [{ name: 'assembly', params: { id } }]. *)
Inductive RootStructure : Type :=
| Model
| Assembly (id : string).

(** [{ modelIndex: p.modelIndex || 0 }] *)
Definition modelParams (p : PresetProps) : Z :=
  match modelIndex p with
  | Some i => i
  | None => 0
  end.

(** [structureParams], as set up right after [determineAssemblyId]. *)
Definition structureParams (p : PresetProps) : RootStructure :=
  match assemblyId p with
  | Some a =>
      if Preset.truthy (Some a) && Preset.differs (Some a) "" && Preset.differs (Some a) "0"
      then Assembly a else Model
  | None => Model
  end.

(** What the first lines of [apply] set up. *)
Record Setup : Type := {
  preset : PresetProps;
  model : Z;
  structure : RootStructure;
  warned : list string
}.

(** [apply] up to [structureParams]: the props after the call (they are
    mutated), the model index, the root structure and the warnings. *)
Definition setup (traj : Preset.Trajectory) (p : PresetProps) : completion Setup :=
  r <- match p with
       | Motif m =>
           d <- Preset.determineAssemblyId traj m ;; Normal (Motif (fst d), snd d)
       | Other _ _ _ => Normal (p, [])
       end ;;
  Normal {| preset := fst r; model := modelParams (fst r);
            structure := structureParams (fst r); warned := snd r |}.

End PresetApply.

(** ** Notions for the requested pairs *)

Definition pair_eqb (x y : Preset.IdPair) : bool :=
  String.eqb (fst x) (fst y)
  && match snd x, snd y with
     | Some a, Some b => String.eqb a b
     | None, None => true
     | _, _ => false
     end.

(** The pairs of [l] without those in [seen] and without repetitions, each
    at its first place. *)
Fixpoint first_occurrences (seen l : list Preset.IdPair) : list Preset.IdPair :=
  match l with
  | [] => []
  | v :: l' =>
      if existsb (pair_eqb v) seen then first_occurrences seen l'
      else v :: first_occurrences (v :: seen) l'
  end.

(** The props with another list of targets. *)
Definition with_targets (p : Preset.MotifProps) (ts : list Preset.Target)
  : Preset.MotifProps :=
  {| Preset.label := Preset.label p; Preset.targets := ts; Preset.color := Preset.color p;
     Preset.assemblyId := Preset.assemblyId p; Preset.modelIndex := Preset.modelIndex p |}.

(** ** Notions for the motif submission *)

(** The residue id that [submitSearch] builds from a selection: the first
    index of the first element, with operator ['1']. *)
Definition residues_of (l : Strucmotif.HistoryEntry) : list Strucmotif.ResidueId :=
  match Strucmotif.elements l with
  | e :: _ => [ {| Strucmotif.label_asym_id := Strucmotif.first_label_asym_id e;
                   Strucmotif.struct_oper_id := Some "1";
                   Strucmotif.label_seq_id := Strucmotif.first_label_seq_id e |} ]
  | [] => []
  end.

(** The selections that go into the motif. *)
Definition visited (loci : list Strucmotif.HistoryEntry) : list Strucmotif.HistoryEntry :=
  firstn Strucmotif.MAX_MOTIF_SIZE loci.

(** ** The viewer: structures by model id, selection, loading *)

Module ViewerApi.

(** A unit of a structure, seen through [unit.model.id]. *)
Record Unit : Type := { model_id : string }.

(** A [StructureRef], named by the ref of its cell; [units] is
    [structure.cell?.obj?.data?.units], [None] when a link of the chain is
    missing. *)
Record StructureRef : Type := {
  ref : string;
  units : option (list Unit)
}.

Definition type_error : string := "TypeError: cannot read properties of undefined".

(** [for (const structure of structures) ...]; an array, also an empty one,
    is truthy, and [units[0].model] of an empty array throws. *)
Fixpoint getStructureRefWithModelId (structures : list StructureRef) (modelId : string)
  : completion (option StructureRef) :=
  match structures with
  | [] => Normal None
  | structure :: rest =>
      match units structure with
      | None => getStructureRefWithModelId rest modelId
      | Some [] => Throw type_error
      | Some (unit :: _) =>
          if String.eqb (model_id unit) modelId then Normal (Some structure)
          else getStructureRefWithModelId rest modelId
      end
  end.

(** [getStructureWithModelId]: the data of the structure found, named by the
    same ref. *)
Definition getStructureWithModelId (structures : list StructureRef) (modelId : string)
  : completion (option string) :=
  structureRef <- getStructureRefWithModelId structures modelId ;;
  match structureRef with
  | Some s => Normal (Some (ref s))
  | None => Normal None
  end.

(** The loci of a range query on a structure. *)
Record Loci : Type := {
  data : string;
  query : Viewer.RangeQuery
}.

(** [getLociFromRange] on the structures of the hierarchy. *)
Definition getLociFromRange (structures : list StructureRef) (modelId asymId : string)
    (begin end_ : Js.number) : completion (option Loci) :=
  found <- getStructureWithModelId structures modelId ;;
  match found with
  | None => Normal None
  | Some d =>
      q <- Viewer.getLociFromRange true asymId begin end_ ;;
      Normal (option_map (fun q => {| data := d; query := q |}) q)
  end.

Inductive Modifier : Type := Add | Set_.

Inductive Mode : Type := Select | Hover.

(** The calls into the managers of the plugin. *)
Inductive HostCall : Type :=
| SelectionFromLoci (modifier : Modifier) (loci : Loci)
| Highlight (loci : Loci)
| FocusSetFromLoci (loci : Loci).

(** [selectSegment]; [mode] is [None] for [null]. *)
Definition selectSegment (structures : list StructureRef) (modelId asymId : string)
    (begin end_ : Js.number) (mode : option Mode) (modifier : Modifier)
  : completion (list HostCall) :=
  loci <- getLociFromRange structures modelId asymId begin end_ ;;
  match loci with
  | None => Normal []
  | Some l =>
      match mode with
      | None | Some Select => Normal [SelectionFromLoci modifier l]
      | Some Hover => Normal [Highlight l]
      end
  end.

(** [setFocusFromRange] *)
Definition setFocusFromRange (structures : list StructureRef) (modelId asymId : string)
    (begin end_ : Js.number) : completion (list HostCall) :=
  loci <- getLociFromRange structures modelId asymId begin end_ ;;
  match loci with
  | None => Normal []
  | Some l => Normal [FocusSetFromLoci l]
  end.

(** *** Loading by PDB id *)

Record LoadSource : Type := {
  url : string;
  format : string;
  isBinary : bool
}.

Definition ModelUrlProvider : Type := string -> accessed LoadSource.

(** [String.prototype.toLowerCase] on code units below 256. *)
Definition lower_char (c : ascii) : ascii :=
  let n := nat_of_ascii c in
  if ((65 <=? n) && (n <=? 90))%nat then ascii_of_nat (n + 32)
  else if ((192 <=? n) && (n <=? 222) && negb (n =? 215))%nat then ascii_of_nat (n + 32)
  else c.

Fixpoint toLowerCase (s : string) : string :=
  match s with
  | EmptyString => EmptyString
  | String c s' => String (lower_char c) (toLowerCase s')
  end.

(** [DefaultViewerProps.modelUrlProviders] *)
Definition default_providers : list ModelUrlProvider :=
  [ fun pdbId => Got {| url := "//models.rcsb.org/" ++ toLowerCase pdbId ++ ".bcif";
                        format := "mmcif"; isBinary := true |};
    fun pdbId => Got {| url := "//files.rcsb.org/download/" ++ toLowerCase pdbId ++ ".cif";
                        format := "mmcif"; isBinary := false |} ]%string.

(** The body of the [try] block: ask the provider, then await the loader;
    [load] tells whether the loader resolves or rejects. *)
Definition attempt (load : LoadSource -> accessed unit) (provider : ModelUrlProvider)
    (pdbId : string) : completion LoadSource :=
  p <- access (provider pdbId) ;;
  _ <- access (load p) ;;
  Normal p.

Definition load_warning (pdbId e : string) : string :=
  ("loading '" ++ pdbId ++ "' failed with '" ++ e
   ++ "', trying next model-loader-provider")%string.

(** [loadPdbId]: the source that was loaded, if any, and the warnings. *)
Fixpoint loadPdbId (load : LoadSource -> accessed unit) (providers : list ModelUrlProvider)
    (pdbId : string) : completion (option LoadSource * list string) :=
  match providers with
  | [] => Normal (None, [])
  | provider :: rest =>
      r <- try_catch
             (p <- attempt load provider pdbId ;; Normal (Some p, []))
             (fun e => Normal (None, [load_warning pdbId e])) ;;
      match r with
      | (Some p, _) => Normal (Some p, [])
      | (None, warned) =>
          r' <- loadPdbId load rest pdbId ;;
          Normal (fst r', warned ++ snd r')
      end
  end.

End ViewerApi.

(** ** helpers/export.ts *)

Module ExportHelper.

(** The state tree as [getDecorator] reads it: [tree.children.get(ref)], an
    ordered set, and
    [tree.transforms.get(ref).transformer.definition.isDecorator]. *)
Record Tree : Type := {
  children : string -> list string;
  isDecorator : string -> bool
}.

(** [getDecorator], with a bound on the depth of the recursion. *)
Fixpoint getDecorator (fuel : nat) (tree : Tree) (root : string) : completion string :=
  match fuel with
  | O => OutOfFuel
  | S fuel' =>
      match children tree root with
      | [child] =>
          if isDecorator tree child then getDecorator fuel' tree child
          else Normal root
      | _ => Normal root
      end
  end.

(** An object with string keys that are no array indices: the entries in
    insertion order. *)
Definition Obj (V : Type) : Type := list (string * V).

(** [content[key] = value] *)
Fixpoint obj_set {V : Type} (content : Obj V) (key : string) (value : V) : Obj V :=
  match content with
  | [] => [(key, value)]
  | (k, v) :: rest =>
      if String.eqb k key then (k, value) :: rest
      else (k, v) :: obj_set rest key value
  end.

(** [content[key]] *)
Fixpoint obj_get {V : Type} (content : Obj V) (key : string) : option V :=
  match content with
  | [] => None
  | (k, v) :: rest => if String.eqb k key then Some v else obj_get rest key
  end.

(** [`${i + 1}-${structure.model.entryId}`] *)
Definition structure_name (i : nat) (entryId : string) : string :=
  (Js.toString (Js.round_double (Z.of_nat i + 1)) ++ "-" ++ entryId)%string.

(** What the host calls in the body of the loop give for a root cell: the
    union of the structures among the children of its decorated root
    together with [structure.model.entryId], or an exception (the root cell
    has no object; the root has no structure among its children, so that the
    union is empty and has no model). *)
Definition Cell (T : Type) : Type := accessed (string * T).

(** The loop of [extractStructureDataFromState] from cell [i] on. *)
Fixpoint extract_from {T : Type} (i : nat) (cells : list (Cell T)) (content : Obj T)
  : completion (Obj T) :=
  match cells with
  | [] => Normal content
  | c :: rest =>
      m <- access c ;;
      let '(entryId, structure) := m in
      extract_from (S i) rest (obj_set content (structure_name i entryId) structure)
  end.

Definition extractStructureData {T : Type} (cells : list (Cell T)) : completion (Obj T) :=
  extract_from 0 cells [].

(** [encodeStructureData]: [to_mmCIF] and the UTF-8 encoding are the host's,
    [encode filename structure] stands for both. *)
Fixpoint encode_entries {T B : Type} (encode : string -> T -> B) (entries : Obj T)
    (content : Obj B) : Obj B :=
  match entries with
  | [] => content
  | (key, structure) :: rest =>
      let filename := (key ++ ".cif")%string in
      encode_entries encode rest (obj_set content filename (encode filename structure))
  end.

Definition encodeStructureData {T B : Type} (encode : string -> T -> B)
    (cells : list (Cell T)) : completion (Obj B) :=
  structures <- extractStructureData cells ;;
  Normal (encode_entries encode structures []).

End ExportHelper.

(** ** Notions for the viewer and the export *)

(** The first unit of a structure belongs to the model. *)
Definition of_model (modelId : string) (s : ViewerApi.StructureRef) : bool :=
  match ViewerApi.units s with
  | Some (unit :: _) => String.eqb (ViewerApi.model_id unit) modelId
  | _ => false
  end.

(** The structure has units, but none. *)
Definition no_units (s : ViewerApi.StructureRef) : bool :=
  match ViewerApi.units s with
  | Some [] => true
  | _ => false
  end.

(** [d] is reached from [r] by going down single children that are
    decorators. *)
Inductive decorates (tree : ExportHelper.Tree) : string -> string -> Prop :=
| decorates_here r : decorates tree r r
| decorates_child r c d :
    ExportHelper.children tree r = [c] -> ExportHelper.isDecorator tree c = true ->
    decorates tree c d -> decorates tree r d.

(** The entries that [extractStructureDataFromState] is meant to build from
    structures given with their entry ids: the structure at place [i] under
    the name made of [i + 1] and the entry id. *)
Fixpoint named_from {T : Type} (i : nat) (cells : list (string * T))
  : ExportHelper.Obj T :=
  match cells with
  | [] => []
  | (entryId, structure) :: rest =>
      (ExportHelper.structure_name i entryId, structure) :: named_from (S i) rest
  end.

(** The cells of roots whose unions are the given structures. *)
Definition cells_of {T : Type} (structures : list (string * T)) : list (ExportHelper.Cell T) :=
  map Got structures.

(** The host call that a range selection ends in. *)
Definition segment_call (mode : option ViewerApi.Mode) (modifier : ViewerApi.Modifier)
    (l : ViewerApi.Loci) : ViewerApi.HostCall :=
  match mode with
  | Some ViewerApi.Hover => ViewerApi.Highlight l
  | _ => ViewerApi.SelectionFromLoci modifier l
  end.

(** A load that fails for everything but the given url. *)
Definition only_url (u : string) (p : ViewerApi.LoadSource) : accessed unit :=
  if String.eqb (ViewerApi.url p) u then Got tt else Raised "404".

(** ** The viewer: components *)

Module ViewerComponents.

(** The overloads of [createComponent] after the label and the model id. *)
Inductive ComponentArgs : Type :=
| FromChain (asymId : string)
| FromSet (residues : list (string * Z))
| FromRange (asymId : string) (begin end_ : Js.number).

(** The expression of the selection query; its name, [innerQuery_] and a
    random suffix, is left to the host. *)
Inductive ComponentQuery : Type :=
| ChainGroups (asymId : string)
| MergedGroups (residues : list (string * Z))
| RangeGroups (q : Viewer.RangeQuery).

(** A call of [plugin.managers.structure.component.add]. *)
Record ComponentAdd : Type := {
  structureRef : string;
  selection : ComponentQuery;
  label : string;
  checkExisting : bool;
  representation : string
}.

Definition model_not_found : string := "createComponent error: model not found".

(** [createComponentFromRange], up to the call of the host. *)
Definition createComponentFromRange (componentLabel structureRef asymId : string)
    (begin end_ : Js.number) (representationType : string) : completion (list ComponentAdd) :=
  seq_id <- Viewer.range_seq_id begin end_ ;;
  Normal [ {| structureRef := structureRef;
              selection := RangeGroups {| Viewer.chain_test := asymId;
                                          Viewer.residue_test := Viewer.set_to_array seq_id [] |};
              label := componentLabel; checkExisting := false;
              representation := representationType |} ].

Definition createComponent (structures : list ViewerApi.StructureRef)
    (componentLabel modelId : string) (args : ComponentArgs) (representationType : string)
  : completion (list ComponentAdd) :=
  found <- ViewerApi.getStructureRefWithModelId structures modelId ;;
  match found with
  | None => Throw model_not_found
  | Some s =>
      match args with
      | FromChain asymId =>
          Normal [ {| structureRef := ViewerApi.ref s; selection := ChainGroups asymId;
                      label := componentLabel; checkExisting := false;
                      representation := representationType |} ]
      | FromSet residues =>
          Normal [ {| structureRef := ViewerApi.ref s; selection := MergedGroups residues;
                      label := componentLabel; checkExisting := false;
                      representation := representationType |} ]
      | FromRange asymId begin end_ =>
          createComponentFromRange componentLabel (ViewerApi.ref s) asymId begin end_
            representationType
      end
  end.

End ViewerComponents.

(** * Properties *)

(** ** Doubles *)

Section Doubles.

Lemma two_53 : Js.MAX_SAFE_INTEGER + 1 = 2 ^ 53.
Proof. reflexivity. Qed.

Ltac pow_consts :=
  change (2 ^ 52) with 4503599627370496 in *;
  change (2 ^ 53) with 9007199254740992 in *;
  change (2 ^ 1) with 2 in *.

Lemma pow2_ge_2 e : 1 <= e -> 2 <= 2 ^ e.
Proof. intros He. change 2 with (2 ^ 1) at 1. apply Z.pow_le_mono_r; lia. Qed.

(** The shape of a magnitude above 2^53. *)
Lemma binade a :
  2 ^ 53 < a ->
  let e := Z.log2 a - 52 in
  1 <= e /\ 2 ^ 52 * 2 ^ e <= a < 2 ^ 53 * 2 ^ e.
Proof.
  intros Ha e.
  assert (0 < a) as Hpos by lia.
  destruct (Z.log2_spec a Hpos) as [Hlo Hhi].
  assert (53 <= Z.log2 a) as Hl.
  { change 53 with (Z.log2 (2 ^ 53)). apply Z.log2_le_mono. lia. }
  assert (1 <= e) as He by (unfold e; lia).
  split; [exact He |].
  replace (Z.log2 a) with (52 + e) in Hlo by (unfold e; lia).
  replace (Z.succ (Z.log2 a)) with (53 + e) in Hhi by (unfold e; lia).
  rewrite Z.pow_add_r in Hlo, Hhi by lia. exact (conj Hlo Hhi).
Qed.

Lemma round_magnitude_eq a :
  2 ^ 53 < a ->
  let e := Z.log2 a - 52 in
  let p := 2 ^ e in
  let q := a / p in
  1 <= e /\ 2 ^ 52 <= q < 2 ^ 53 /\ q * p <= a < (q + 1) * p
  /\ (Js.round_magnitude a = q * p
      \/ (Js.round_magnitude a = (q + 1) * p /\ q * p < a)).
Proof.
  intros Ha e p q. destruct (binade a Ha) as [He [Hlo Hhi]]. fold e in He, Hlo, Hhi.
  fold p in Hlo, Hhi.
  assert (0 < p) as Hp by (unfold p; apply Z.pow_pos_nonneg; lia).
  assert (q * p <= a < (q + 1) * p) as Hq.
  { unfold q. pose proof (Z.mul_div_le a p Hp). pose proof (Z.mul_succ_div_gt a p Hp). lia. }
  assert (2 ^ 52 <= q < 2 ^ 53) as Hqr.
  { unfold q. split.
    - apply Z.div_le_lower_bound; lia.
    - apply Z.div_lt_upper_bound; lia. }
  split; [exact He |]. split; [exact Hqr |]. split; [exact Hq |].
  unfold Js.round_magnitude. fold e.
  rewrite Z.shiftr_div_pow2 by lia. fold p. fold q.
  rewrite !Z.shiftl_mul_pow2 by lia. fold p.
  assert (0 < 1 * 2 ^ (e - 1)) as Hhalf by (rewrite Z.mul_1_l; apply Z.pow_pos_nonneg; lia).
  destruct ((1 * 2 ^ (e - 1) <? a - q * p) || ((a - q * p =? 1 * 2 ^ (e - 1)) && Z.odd q)) eqn:E.
  - right. split; [reflexivity |].
    apply orb_true_iff in E. destruct E as [E | E].
    + apply Z.ltb_lt in E. lia.
    + apply andb_true_iff in E. destruct E as [E _]. apply Z.eqb_eq in E. lia.
  - left. reflexivity.
Qed.

(** A magnitude with a significand of 53 bits is left as it is. *)
Lemma round_magnitude_fixed q e :
  1 <= e -> 2 ^ 52 <= q < 2 ^ 53 -> 2 ^ 53 < q * 2 ^ e ->
  Js.round_magnitude (q * 2 ^ e) = q * 2 ^ e.
Proof.
  intros He Hq Hbig.
  assert (0 < 2 ^ e) as Hp by (apply Z.pow_pos_nonneg; lia).
  assert (Z.log2 (q * 2 ^ e) = 52 + e) as Hl.
  { apply Z.log2_unique; [lia |]. replace (Z.succ (52 + e)) with (53 + e) by lia.
    rewrite !Z.pow_add_r by lia. nia. }
  unfold Js.round_magnitude. rewrite Hl. replace (52 + e - 52) with e by lia.
  rewrite Z.shiftr_div_pow2 by lia. rewrite Z.div_mul by lia.
  rewrite !Z.shiftl_mul_pow2 by lia.
  replace (q * 2 ^ e - q * 2 ^ e) with 0 by lia.
  assert (0 < 1 * 2 ^ (e - 1)) as Hhalf by (rewrite Z.mul_1_l; apply Z.pow_pos_nonneg; lia).
  destruct (Z.ltb_spec (1 * 2 ^ (e - 1)) 0); [lia |].
  destruct (Z.eqb_spec 0 (1 * 2 ^ (e - 1))); [lia |]. reflexivity.
Qed.

Lemma round_magnitude_top e :
  1 <= e -> Js.round_magnitude (2 ^ 53 * 2 ^ e) = 2 ^ 53 * 2 ^ e.
Proof.
  intros He.
  assert (0 < 2 ^ e) as Hp by (apply Z.pow_pos_nonneg; lia).
  replace (2 ^ 53 * 2 ^ e) with (2 ^ 52 * 2 ^ (e + 1))
    by (rewrite Z.pow_add_r by lia; pow_consts; lia).
  apply round_magnitude_fixed; [lia | pow_consts; lia |].
  rewrite Z.pow_add_r by lia. pose proof (pow2_ge_2 e He). pow_consts. nia.
Qed.

(** Rounding gives a double. *)
Lemma round_magnitude_idem a :
  2 ^ 53 < a ->
  Js.round_magnitude a = 2 ^ 53 \/
  (2 ^ 53 < Js.round_magnitude a
   /\ Js.round_magnitude (Js.round_magnitude a) = Js.round_magnitude a).
Proof.
  intros Ha. destruct (round_magnitude_eq a Ha) as (He & Hq & Hbr & Hr).
  set (e := Z.log2 a - 52) in *. set (p := 2 ^ e) in *. set (q := a / p) in *.
  assert (0 < p) as Hp by (unfold p; apply Z.pow_pos_nonneg; lia).
  assert (2 <= p) as Hp2 by (apply pow2_ge_2; lia).
  destruct Hr as [Hr | [Hr Hlt]].
  - destruct (Z.eq_dec (q * p) (2 ^ 53)) as [E | E]; [left; congruence |].
    right. rewrite Hr. pow_consts.
    split; [nia |]. apply round_magnitude_fixed; pow_consts; [lia | lia | nia].
  - right. rewrite Hr. pow_consts. split; [nia |].
    destruct (Z.eq_dec (q + 1) 9007199254740992) as [E | E].
    + rewrite E. now apply (round_magnitude_top e).
    + apply round_magnitude_fixed; pow_consts; [lia | lia | nia].
Qed.

Lemma round_magnitude_ge a : 2 ^ 53 < a -> 2 ^ 53 <= Js.round_magnitude a.
Proof.
  intros Ha. destruct (round_magnitude_eq a Ha) as (He & Hq & Hbr & Hr).
  pose proof (pow2_ge_2 _ He). pow_consts. destruct Hr as [-> | [-> _]]; nia.
Qed.

(** A double above 2^53 is its significand times a power of two. *)
Lemma double_shape w :
  2 ^ 53 < w -> Js.round_magnitude w = w ->
  let e := Z.log2 w - 52 in
  1 <= e /\ 2 ^ 52 <= w / 2 ^ e < 2 ^ 53 /\ w = w / 2 ^ e * 2 ^ e.
Proof.
  intros Hw Hfix e. destruct (round_magnitude_eq w Hw) as (He & Hq & Hbr & Hr).
  fold e in He, Hq, Hbr, Hr. split; [exact He |]. split; [exact Hq |].
  destruct Hr as [Hr | [Hr Hlt]]; lia.
Qed.

Lemma pow2_split e e' : 0 <= e -> e < e' -> 2 * 2 ^ e <= 2 ^ e'.
Proof.
  intros He Hlt. replace e' with (e + (e' - e)) by lia. rewrite Z.pow_add_r by lia.
  pose proof (pow2_ge_2 (e' - e) ltac:(lia)).
  assert (0 < 2 ^ e) by (apply Z.pow_pos_nonneg; lia). nia.
Qed.

(** Rounding does not go below a double that is not above the argument, *)
Lemma round_magnitude_lower a w :
  2 ^ 53 < a -> 2 ^ 53 < w -> Js.round_magnitude w = w -> w <= a ->
  w <= Js.round_magnitude a.
Proof.
  intros Ha Hw Hfix Hle.
  destruct (round_magnitude_eq a Ha) as (He & Hq & Hbr & Hr).
  destruct (double_shape w Hw Hfix) as (Hew & Hqw & Hweq).
  assert (Z.log2 w <= Z.log2 a) as Hl by (apply Z.log2_le_mono; lia).
  set (e := Z.log2 a - 52) in *. set (ew := Z.log2 w - 52) in *.
  set (q := a / 2 ^ e) in *. set (qw := w / 2 ^ ew) in *.
  assert (q * 2 ^ e <= Js.round_magnitude a) as Hrm
    by (destruct Hr as [-> | [-> _]]; lia).
  assert (0 < 2 ^ ew) as Hpw by (apply Z.pow_pos_nonneg; lia).
  assert (ew <= e) as Hee by (unfold e, ew; lia).
  destruct (Z.eq_dec ew e) as [E | E].
  - clearbody q qw. rewrite E in *. clearbody e.
    assert (qw < q + 1) as Hqq.
    { apply (Z.mul_lt_mono_pos_r (2 ^ e)); lia. }
    assert (qw * 2 ^ e <= q * 2 ^ e) by (apply Z.mul_le_mono_nonneg_r; lia). lia.
  - pose proof (pow2_split ew e ltac:(lia) ltac:(lia)) as Hsp. clearbody q qw e ew.
    pow_consts.
    assert (qw * 2 ^ ew <= 9007199254740992 * 2 ^ ew) by (apply Z.mul_le_mono_nonneg_r; lia).
    assert (4503599627370496 * 2 ^ e <= q * 2 ^ e).
    { apply Z.mul_le_mono_nonneg_r; [| lia]. apply Z.pow_nonneg. lia. }
    lia.
Qed.

(** nor above a double that is not below the argument. *)
Lemma round_magnitude_upper a w :
  2 ^ 53 < a -> Js.round_magnitude w = w -> a <= w ->
  Js.round_magnitude a <= w.
Proof.
  intros Ha Hfix Hle. assert (2 ^ 53 < w) as Hw by lia.
  destruct (round_magnitude_eq a Ha) as (He & Hq & Hbr & Hr).
  destruct (double_shape w Hw Hfix) as (Hew & Hqw & Hweq).
  assert (Z.log2 a <= Z.log2 w) as Hl by (apply Z.log2_le_mono; lia).
  set (e := Z.log2 a - 52) in *. set (ew := Z.log2 w - 52) in *.
  set (q := a / 2 ^ e) in *. set (qw := w / 2 ^ ew) in *.
  assert (0 < 2 ^ e) as Hp by (apply Z.pow_pos_nonneg; lia).
  assert (e <= ew) as Hee by (unfold e, ew; lia).
  destruct (Z.eq_dec ew e) as [E | E].
  - clearbody q qw. rewrite E in *. clearbody e.
    destruct Hr as [-> | [-> Hlt]]; [lia |].
    assert (q < qw) as Hqq.
    { apply (Z.mul_lt_mono_pos_r (2 ^ e)); lia. }
    assert ((q + 1) * 2 ^ e <= qw * 2 ^ e) by (apply Z.mul_le_mono_nonneg_r; lia). lia.
  - pose proof (pow2_split e ew ltac:(lia) ltac:(lia)) as Hsp. clearbody q qw e ew.
    pow_consts.
    assert ((q + 1) * 2 ^ e <= 9007199254740992 * 2 ^ e)
      by (apply Z.mul_le_mono_nonneg_r; lia).
    assert (4503599627370496 * 2 ^ ew <= qw * 2 ^ ew).
    { apply Z.mul_le_mono_nonneg_r; [| lia]. apply Z.pow_nonneg. lia. }
    destruct Hr as [-> | [-> Hlt]]; lia.
Qed.

Lemma round_double_cases z :
  (Z.abs z <= 2 ^ 53 /\ Js.round_double z = Js.Int z)
  \/ (2 ^ 53 < Z.abs z
      /\ ((Js.round_magnitude (Z.abs z) < 2 ^ 1024
           /\ Js.round_double z = Js.Int (Z.sgn z * Js.round_magnitude (Z.abs z)))
          \/ (2 ^ 1024 <= Js.round_magnitude (Z.abs z)
              /\ Js.round_double z
                 = if z <? 0 then Js.NegInfinity else Js.PosInfinity))).
Proof.
  unfold Js.round_double. rewrite two_53.
  destruct (Z.leb_spec (Z.abs z) (2 ^ 53)); [left; auto | right; split; [assumption |]].
  rewrite Z.shiftl_mul_pow2, Z.mul_1_l by lia.
  destruct (Z.leb_spec (2 ^ 1024) (Js.round_magnitude (Z.abs z))); [right | left]; auto.
Qed.

(** A double is an integer that is its own rounding. *)
Lemma double_magnitude z :
  Js.round_double z = Js.Int z -> 2 ^ 53 < Z.abs z ->
  Js.round_magnitude (Z.abs z) = Z.abs z /\ Z.abs z < 2 ^ 1024.
Proof.
  intros Hd Hbig.
  destruct (round_double_cases z) as [[Hs _] | [_ [[Hlt Hr] | [_ Hr]]]]; [lia | |].
  - rewrite Hd in Hr. injection Hr as Hr. split; [lia |]. lia.
  - rewrite Hd in Hr. destruct (z <? 0); discriminate.
Qed.

(** What rounding gives is a double. *)
Lemma round_double_idem x v :
  Js.round_double x = Js.Int v -> Js.round_double v = Js.Int v.
Proof.
  intros Hx.
  destruct (round_double_cases x) as [[Hs Hr] | [Hbig [[Hlt Hr] | [_ Hr]]]].
  - rewrite Hx in Hr. now injection Hr as ->.
  - rewrite Hx in Hr. injection Hr as ->.
    assert (Z.abs (Z.sgn x * Js.round_magnitude (Z.abs x)) = Js.round_magnitude (Z.abs x))
      as Habs.
    { pose proof (round_magnitude_ge _ Hbig). pow_consts. lia. }
    assert (Z.sgn (Z.sgn x * Js.round_magnitude (Z.abs x)) = Z.sgn x) as Hsgn.
    { pose proof (round_magnitude_ge _ Hbig). pow_consts. nia. }
    destruct (round_magnitude_idem _ Hbig) as [E | [Hgt Hfix]].
    + destruct (round_double_cases (Z.sgn x * Js.round_magnitude (Z.abs x)))
        as [[_ H] | [H _]]; [exact H | lia].
    + destruct (round_double_cases (Z.sgn x * Js.round_magnitude (Z.abs x)))
        as [[H _] | [_ [[_ H] | [H _]]]]; [lia | | ].
      * rewrite H, Habs, Hfix, Hsgn. reflexivity.
      * rewrite Habs, Hfix in H. lia.
  - rewrite Hx in Hr. destruct (x <? 0); discriminate.
Qed.

(** Rounding does not go below a double that is not above the argument. *)
Lemma round_double_lower z x w :
  Js.round_double z = Js.Int z -> z <= x -> Js.round_double x = Js.Int w -> z <= w.
Proof.
  intros Hz Hle Hx.
  destruct (round_double_cases x) as [[Hs Hr] | [Hbig [[Hlt Hr] | [_ Hr]]]].
  - rewrite Hx in Hr. injection Hr as ->. exact Hle.
  - rewrite Hx in Hr. injection Hr as ->.
    pose proof (round_magnitude_ge _ Hbig) as Hge.
    destruct (Z.le_gt_cases 0 x) as [Hpos | Hneg].
    + replace (Z.sgn x) with 1 by (pow_consts; lia). rewrite Z.mul_1_l.
      replace (Z.abs x) with x in * by lia.
      destruct (Z.le_gt_cases z (2 ^ 53)) as [Hzs | Hzb]; [lia |].
      destruct (double_magnitude z Hz ltac:(lia)) as [Hfix _].
      replace (Z.abs z) with z in * by lia.
      now apply round_magnitude_lower.
    + replace (Z.sgn x) with (-1) by (pow_consts; lia).
      replace (Z.abs x) with (- x) in * by lia.
      destruct (double_magnitude z Hz ltac:(lia)) as [Hfix _].
      replace (Z.abs z) with (- z) in * by lia.
      pose proof (round_magnitude_upper (- x) (- z) Hbig Hfix ltac:(lia)). lia.
  - rewrite Hx in Hr. destruct (x <? 0); discriminate.
Qed.

Lemma is_double_Int z : Js.is_double (Js.Int z) = true <-> Js.round_double z = Js.Int z.
Proof.
  unfold Js.is_double, Js.rounds_to. destruct (Js.round_double z) as [|w| |]; split;
    try discriminate.
  - intros H. apply Z.eqb_eq in H. now subst.
  - intros [= ->]. apply Z.eqb_refl.
Qed.

Lemma round_double_not_NaN z : Js.round_double z <> Js.NaN.
Proof.
  unfold Js.round_double. destruct (_ <=? _); [discriminate |].
  destruct (_ <=? _); [destruct (z <? 0) |]; discriminate.
Qed.

(** [parseInt] gives a number. *)
Lemma parseInt_is_double s : Js.is_double (Js.parseInt s) = true.
Proof.
  unfold Js.parseInt. destruct (Js.parse_integer s) as [z|]; [| reflexivity].
  destruct (Js.round_double z) as [|v| |] eqn:E; try reflexivity.
  apply is_double_Int. apply (round_double_idem _ _ E).
Qed.

End Doubles.

(** ** The counting loop *)

Section ForLoop.

Context {A : Type}.
Variable body : Js.number -> A -> A.

Lemma upto_S from n : upto from (S n) = from :: upto (from + 1) n.
Proof.
  unfold upto. simpl. rewrite Z.add_0_r. f_equal.
  rewrite <- seq_shift, map_map. apply map_ext. intros k. lia.
Qed.

Lemma for_le_S fuel i to acc :
  Js.for_le (S fuel) i to body acc
  = if Js.le i to then Js.for_le fuel (Js.incr i) to body (body i acc) else Normal acc.
Proof. reflexivity. Qed.

(** Up to 2^53 in absolute value an integer is its own double. *)
Lemma round_double_safe z :
  - (Js.MAX_SAFE_INTEGER + 1) <= z <= Js.MAX_SAFE_INTEGER + 1 ->
  Js.round_double z = Js.Int z.
Proof.
  intros Hz. unfold Js.round_double.
  destruct (Z.leb_spec (Z.abs z) (Js.MAX_SAFE_INTEGER + 1)); [reflexivity | lia].
Qed.

(** From -2^53 up to 2^53 - 1 the counter grows by one. *)
Lemma incr_safe z :
  - (Js.MAX_SAFE_INTEGER + 1) <= z <= Js.MAX_SAFE_INTEGER ->
  Js.incr (Js.Int z) = Js.Int (z + 1).
Proof. intros Hz. apply round_double_safe. lia. Qed.

(** At 2^53 it stays where it is. *)
Lemma incr_stuck : Js.incr (Js.Int 9007199254740992) = Js.Int 9007199254740992.
Proof. vm_compute. reflexivity. Qed.

(** Within the safe integers, with [n] iterations to go and one more test
    allowed, the loop ends normally and has run the body on
    [i, i+1, ..., to] in this order. *)
Lemma for_le_runs n : forall i to acc,
  n = Z.to_nat (to + 1 - i) ->
  (i <= to -> - (Js.MAX_SAFE_INTEGER + 1) <= i /\ to <= Js.MAX_SAFE_INTEGER) ->
  Js.for_le (S n) (Js.Int i) (Js.Int to) body acc
  = Normal (fold_left (fun a k => body (Js.Int k) a) (upto i n) acc).
Proof.
  induction n as [|n IH]; intros i to acc Hn Hsafe.
  - cbn [Js.for_le Js.le]. destruct (Z.leb_spec i to); [lia | reflexivity].
  - rewrite for_le_S. cbn [Js.le]. destruct (Z.leb_spec i to); [| lia].
    rewrite incr_safe by lia. rewrite IH by lia. rewrite upto_S. reflexivity.
Qed.

Lemma for_le_bound_runs from to acc :
  (from <= to -> - (Js.MAX_SAFE_INTEGER + 1) <= from /\ to <= Js.MAX_SAFE_INTEGER) ->
  Js.for_le (Js.for_le_bound (Js.Int from) (Js.Int to)) (Js.Int from) (Js.Int to) body acc
  = Normal (fold_left (fun a k => body (Js.Int k) a)
              (upto from (Z.to_nat (to + 1 - from))) acc).
Proof. intros H. unfold Js.for_le_bound. now apply for_le_runs. Qed.

Lemma for_le_bound_S from to : exists n, Js.for_le_bound from to = S n.
Proof. destruct from, to; simpl; eauto. Qed.

(** A loop whose test fails at once does nothing. *)
Lemma for_le_skipped from to acc :
  Js.le from to = false ->
  Js.for_le (Js.for_le_bound from to) from to body acc = Normal acc.
Proof.
  intros H. destruct (for_le_bound_S from to) as [n ->]. rewrite for_le_S. now rewrite H.
Qed.

(** The loop itself never throws. *)
Lemma for_le_not_thrown fuel : forall i to acc e,
  Js.for_le fuel i to body acc <> Throw e.
Proof.
  induction fuel as [|fuel IH]; intros i to acc e; [discriminate |].
  rewrite for_le_S. destruct (Js.le i to); [apply IH | discriminate].
Qed.

(** A counter that passes the test and that [i++] leaves as it is keeps the
    loop going for ever: no loop bound is enough. *)
Lemma for_le_stuck i to :
  Js.le i to = true -> Js.incr i = i ->
  forall fuel acc, Js.for_le fuel i to body acc = OutOfFuel.
Proof.
  intros Hle Hincr. induction fuel as [|fuel IH]; intros acc; [reflexivity |].
  rewrite for_le_S, Hle, Hincr. apply IH.
Qed.

(** A loop that ends within a bound ends within every larger bound, with the
    same result. *)
Lemma for_le_more_fuel fuel : forall fuel' i to acc r,
  Js.for_le fuel i to body acc = Normal r -> (fuel <= fuel')%nat ->
  Js.for_le fuel' i to body acc = Normal r.
Proof.
  induction fuel as [|fuel IH]; intros fuel' i to acc r; [discriminate |].
  destruct fuel' as [|fuel']; [lia |]. rewrite !for_le_S.
  destruct (Js.le i to); [| auto]. intros H Hf. apply (IH fuel'); [exact H | lia].
Qed.

(** A loop up to [Infinity] never ends. *)
Lemma for_le_to_infinity fuel : forall i acc,
  i <> Js.NaN -> Js.for_le fuel i Js.PosInfinity body acc = OutOfFuel.
Proof.
  induction fuel as [|fuel IH]; intros i acc Hi; [reflexivity |].
  rewrite for_le_S.
  assert (Js.le i Js.PosInfinity = true) as ->
    by (destruct i; [now destruct Hi | reflexivity ..]).
  apply IH. destruct i as [|z| |]; simpl; try congruence. apply round_double_not_NaN.
Qed.

Lemma for_le_int_enough fuel : forall f t acc r,
  Js.round_double f = Js.Int f ->
  Js.for_le fuel (Js.Int f) (Js.Int t) body acc = Normal r ->
  Js.for_le (S (Z.to_nat (t + 1 - f))) (Js.Int f) (Js.Int t) body acc = Normal r.
Proof.
  induction fuel as [|fuel IH]; intros f t acc r Hf; [discriminate |].
  rewrite !for_le_S. cbn [Js.le]. destruct (Z.leb_spec f t) as [Hle | Hgt]; [| auto].
  cbn [Js.incr]. destruct (Js.round_double (f + 1)) as [|f'| |] eqn:Ei.
  - now destruct (round_double_not_NaN (f + 1)).
  - pose proof (round_double_idem _ _ Ei) as Hf'.
    pose proof (round_double_lower f (f + 1) f' Hf ltac:(lia) Ei) as Hlow.
    destruct (Z.eq_dec f' f) as [-> | Hne].
    + rewrite (for_le_stuck (Js.Int f) (Js.Int t)); [discriminate | | exact Ei].
      cbn [Js.le]. now apply Z.leb_le.
    + intros H. apply (IH _ _ _ _ Hf') in H.
      apply (for_le_more_fuel _ _ _ _ _ _ H). lia.
  - destruct fuel as [|fuel]; [discriminate |]. rewrite for_le_S. cbn [Js.le].
    intros H. destruct (Z.to_nat (t + 1 - f)) as [|k] eqn:Ek; [lia |].
    rewrite for_le_S. exact H.
  - rewrite (for_le_stuck Js.NegInfinity (Js.Int t));
      [discriminate | reflexivity | reflexivity].
Qed.

(** The loop bound is enough: a loop over numbers that ends with some loop
    bound ends within [for_le_bound], with the same result.  So the loop
    runs out of [for_le_bound] only when it never ends. *)
Lemma for_le_bound_enough fuel from to acc r :
  Js.is_double from = true ->
  Js.for_le fuel from to body acc = Normal r ->
  Js.for_le (Js.for_le_bound from to) from to body acc = Normal r.
Proof.
  intros Hd H. destruct fuel as [|fuel]; [discriminate |].
  destruct from as [|f| |], to as [|t| |];
    try (rewrite for_le_S in H; cbn [Js.le] in H; exact H).
  - apply (for_le_int_enough (S fuel)); [now apply is_double_Int | exact H].
  - rewrite for_le_to_infinity in H; [discriminate | discriminate].
  - rewrite (for_le_stuck Js.PosInfinity Js.PosInfinity) in H;
      [discriminate | reflexivity | reflexivity].
  - rewrite (for_le_stuck Js.NegInfinity (Js.Int t)) in H;
      [discriminate | reflexivity | reflexivity].
  - rewrite (for_le_stuck Js.NegInfinity Js.PosInfinity) in H;
      [discriminate | reflexivity | reflexivity].
  - rewrite (for_le_stuck Js.NegInfinity Js.NegInfinity) in H;
      [discriminate | reflexivity | reflexivity].
Qed.

End ForLoop.

Lemma fold_left_push {B C : Type} (f : B -> C) (l : list B) : forall acc : list C,
  fold_left (fun a k => a ++ [f k]) l acc = acc ++ map f l.
Proof.
  induction l as [|x l IH]; intros acc; simpl.
  - now rewrite app_nil_r.
  - rewrite IH, <- app_assoc. reflexivity.
Qed.

Lemma upto_length from n : length (upto from n) = n.
Proof. unfold upto. now rewrite length_map, length_seq. Qed.

Lemma upto_nth from n k :
  (k < n)%nat -> nth_error (upto from n) k = Some (from + Z.of_nat k).
Proof.
  intros Hk. unfold upto. rewrite nth_error_map, nth_error_seq.
  destruct (Nat.ltb_spec k n); [reflexivity | lia].
Qed.

Lemma upto_sorted n : forall from, StronglySorted Z.lt (upto from n).
Proof.
  induction n as [|n IH]; intros from.
  - constructor.
  - rewrite upto_S. constructor; [apply IH |].
    apply Forall_forall. intros x Hx. unfold upto in Hx.
    apply in_map_iff in Hx. destruct Hx as [k [<- _]]. lia.
Qed.

Lemma upto_In from n x : In x (upto from n) <-> from <= x < from + Z.of_nat n.
Proof.
  unfold upto. rewrite in_map_iff. split.
  - intros [k [<- Hk]]. apply in_seq in Hk. lia.
  - intros H. exists (Z.to_nat (x - from)). split; [lia |]. apply in_seq. lia.
Qed.

Lemma range_seq_id_eq b e :
  (b <= e -> - (Js.MAX_SAFE_INTEGER + 1) <= b /\ e <= Js.MAX_SAFE_INTEGER) ->
  Viewer.range_seq_id (Js.Int b) (Js.Int e)
  = Normal (numbers (upto b (Z.to_nat (e + 1 - b)))).
Proof.
  intros H. unfold Viewer.range_seq_id. rewrite for_le_bound_runs by exact H.
  now rewrite (fold_left_push Js.Int).
Qed.

(** When the model of the range loop runs out of its loop bound, the loop
    never ends. *)
Lemma range_seq_id_never_ends begin end_ :
  Js.is_double begin = true ->
  Viewer.range_seq_id begin end_ = OutOfFuel ->
  forall fuel,
    Js.for_le fuel begin end_ (fun n seq_id => seq_id ++ [n]) [] = OutOfFuel.
Proof.
  unfold Viewer.range_seq_id. intros Hd H fuel.
  destruct (Js.for_le fuel _ _ _ []) as [r|err|] eqn:E; [| | reflexivity].
  - apply for_le_bound_enough in E; [| exact Hd]. congruence.
  - now destruct (for_le_not_thrown _ _ _ _ _ _ E).
Qed.

Lemma upto_NoDup n : forall from, NoDup (upto from n).
Proof.
  induction n as [|n IH]; intros from.
  - constructor.
  - rewrite upto_S. constructor; [| apply IH].
    unfold upto. rewrite in_map_iff. intros [k [Hk _]]. lia.
Qed.

Lemma same_value_zero_numbers n seen :
  existsb (Js.same_value_zero (Js.Int n)) (numbers seen) = existsb (Z.eqb n) seen.
Proof.
  induction seen as [|x seen IH]; simpl; [reflexivity |]. now rewrite IH.
Qed.

(** A sequence without repetition goes through [new Set(...)] unchanged. *)
Lemma set_to_array_fresh l : forall seen,
  NoDup (seen ++ l) ->
  Viewer.set_to_array (numbers l) (numbers seen) = numbers (seen ++ l).
Proof.
  induction l as [|n l IH]; intros seen Hnd; simpl.
  - now rewrite app_nil_r.
  - rewrite same_value_zero_numbers.
    assert (existsb (Z.eqb n) seen = false) as ->.
    { apply NoDup_remove_2 in Hnd. destruct (existsb (Z.eqb n) seen) eqn:E; [| reflexivity].
      apply existsb_exists in E. destruct E as [x [Hx Hnx]].
      apply Z.eqb_eq in Hnx. subst x. exfalso. apply Hnd. apply in_or_app. now left. }
    change (numbers seen ++ [Js.Int n]) with (numbers seen ++ numbers [n]).
    unfold numbers at 2 3. rewrite <- map_app. fold (numbers (seen ++ [n])).
    rewrite IH; rewrite <- app_assoc; [reflexivity | exact Hnd].
Qed.

(** C4. Range expansion within the safe integers: for integers
    [b <= e] with [-2^53 <= b] and [e <= 2^53 - 1], no more of them than an
    array can hold, the loop of [getLociFromRange] and
    [createComponentFromRange] ends normally with exactly [e - b + 1]
    integers, the [k]-th being [b + k], hence in strictly ascending order
    and running from [b] to [e]; for all integers [e < b] the loop ends
    normally with the empty sequence. *)
Theorem range_expansion (b e : Z) :
  (b <= e ->
   - (Js.MAX_SAFE_INTEGER + 1) <= b -> e <= Js.MAX_SAFE_INTEGER ->
   e - b + 1 <= MAX_ARRAY_LENGTH ->
   exists l, Viewer.range_seq_id (Js.Int b) (Js.Int e) = Normal (numbers l)
     /\ Z.of_nat (length l) = e - b + 1
     /\ (forall k, (k < length l)%nat -> nth_error l k = Some (b + Z.of_nat k))
     /\ StronglySorted Z.lt l
     /\ (forall x, In x l <-> b <= x <= e))
  /\ (e < b -> Viewer.range_seq_id (Js.Int b) (Js.Int e) = Normal []).
Proof.
  split.
  - intros Hbe Hb He _. exists (upto b (Z.to_nat (e + 1 - b))).
    split; [apply range_seq_id_eq; auto |].
    rewrite upto_length. split; [lia |]. split; [| split].
    + intros k Hk. now apply upto_nth.
    + apply upto_sorted.
    + intros x. rewrite upto_In. lia.
  - intros Hlt. rewrite range_seq_id_eq by lia.
    replace (Z.to_nat (e + 1 - b)) with O by lia. reflexivity.
Qed.

Lemma range_expansion_witness :
  (exists l, Viewer.range_seq_id (Js.Int 10) (Js.Int 12) = Normal (numbers l)
     /\ Z.of_nat (length l) = 12 - 10 + 1
     /\ (forall k, (k < length l)%nat -> nth_error l k = Some (10 + Z.of_nat k))
     /\ StronglySorted Z.lt l
     /\ (forall x, In x l <-> 10 <= x <= 12))
  /\ Viewer.range_seq_id (Js.Int 12) (Js.Int 10) = Normal [].
Proof.
  split.
  - apply (proj1 (range_expansion 10 12)); vm_compute; congruence.
  - apply (proj2 (range_expansion 12 10)). lia.
Defined.

(** At [begin = end = 2^53] the range has one integer, but the loop never
    ends: [n++] leaves [n] at 2^53, which passes the test [n <= end] again
    and again, whatever the loop bound. *)
Lemma range_expansion_counterexample :
  9007199254740992 <= 9007199254740992
  /\ Js.incr (Js.Int 9007199254740992) = Js.Int 9007199254740992
  /\ (forall fuel seq_id,
        Js.for_le fuel (Js.Int 9007199254740992) (Js.Int 9007199254740992)
          (fun n seq_id => seq_id ++ [n]) seq_id = OutOfFuel)
  /\ ~ (exists l, Viewer.range_seq_id (Js.Int 9007199254740992) (Js.Int 9007199254740992)
                  = Normal l).
Proof.
  split; [lia |]. split; [exact incr_stuck |]. split.
  - intros fuel seq_id. apply for_le_stuck; [reflexivity | exact incr_stuck].
  - intros [l H]. unfold Viewer.range_seq_id in H.
    rewrite for_le_stuck in H; [discriminate | reflexivity | exact incr_stuck].
Qed.

(** ** The operator-expression parser *)

Section Parser.

Import Preset.

Lemma non_paren_run_length s : (String.length (non_paren_run s) <= String.length s)%nat.
Proof.
  induction s as [|c s IH]; simpl; [lia |].
  destruct (is_paren c); simpl; lia.
Qed.

Lemma substr_from_length n : forall s,
  String.length (Js.substr_from n s) = (String.length s - n)%nat.
Proof.
  induction n as [|n IH]; intros [|c s]; simpl; auto.
Qed.

Lemma bracket_run_length s : (bracket_run s <= String.length s)%nat.
Proof.
  induction s as [|c s IH]; simpl; [lia |].
  destruct (Ascii.eqb c "]"); lia.
Qed.

Lemma optional_char_length c s :
  (fst (optional_char c s) + String.length (snd (optional_char c s)) = String.length s)%nat.
Proof.
  destruct s as [|a r]; simpl; [reflexivity |].
  destruct (Ascii.eqb a c); simpl; lia.
Qed.

(** A match is never empty and stays inside the input. *)
Lemma oeRegex_match_here_bounds s g len :
  oeRegex_match_here s = Some (g, len) -> (0 < len <= String.length s)%nat.
Proof.
  unfold oeRegex_match_here.
  pose proof (optional_char_length "(" s) as Ho.
  destruct (optional_char "(" s) as [opened s1]. simpl in Ho.
  pose proof (non_paren_run_length s1) as Hg.
  destruct (non_paren_run s1) as [|c g'] eqn:Eg; [discriminate |].
  set (s2 := Js.substr_from (String.length (String c g')) s1).
  pose proof (substr_from_length (String.length (String c g')) s1) as H2.
  fold s2 in H2.
  pose proof (optional_char_length ")" s2) as Hc.
  destruct (optional_char ")" s2) as [closed s3]. simpl in Hc.
  pose proof (bracket_run_length s3) as Hb.
  intros [= <- <-]. simpl String.length in *. lia.
Qed.

Lemma oeRegex_search_bounds s : forall pos g e,
  oeRegex_search s pos = Some (g, e) -> (pos < e <= pos + String.length s)%nat.
Proof.
  induction s as [|c s IH]; intros pos g e; simpl.
  - destruct (oeRegex_match_here "") as [[g0 len]|] eqn:E; [| discriminate].
    apply oeRegex_match_here_bounds in E. simpl in E. lia.
  - destruct (oeRegex_match_here (String c s)) as [[g0 len]|] eqn:E.
    + apply oeRegex_match_here_bounds in E. simpl in E. intros [= <- <-]. lia.
    + intros H. apply IH in H. lia.
Qed.

(** [exec] moves [lastIndex] forward and never past the end. *)
Lemma oeRegex_exec_advances value lastIndex g lastIndex' :
  oeRegex_exec value lastIndex = Some (g, lastIndex') ->
  (lastIndex < lastIndex' <= String.length value)%nat.
Proof.
  unfold oeRegex_exec. intros H. apply oeRegex_search_bounds in H.
  rewrite substr_from_length in H. lia.
Qed.

(** The [while] loop ends within its bound. *)
Lemma collect_groups_total fuel : forall value lastIndex groups,
  (String.length value - lastIndex < fuel)%nat ->
  exists r, collect_groups fuel value lastIndex groups = Normal r.
Proof.
  induction fuel as [|fuel IH]; intros value lastIndex groups Hf; [lia |].
  simpl. destruct (oeRegex_exec value lastIndex) as [[g li]|] eqn:E.
  - apply oeRegex_exec_advances in E. apply IH. lia.
  - eauto.
Qed.

Lemma collect_groups_not_thrown value e :
  collect_groups (S (String.length value)) value 0 [] <> Throw e.
Proof.
  destruct (collect_groups_total (S (String.length value)) value 0 []) as [r ->];
    [lia | discriminate].
Qed.

Lemma forEach_total {A S : Type} (body : A -> S -> completion S) l :
  (forall x, In x l -> forall s, exists s', body x s = Normal s') ->
  forall s, exists s', forEach l body s = Normal s'.
Proof.
  induction l as [|x l IH]; intros Hb s; simpl; [eauto |].
  destruct (Hb x (or_introl eq_refl) s) as [s' ->]. simpl.
  apply IH. intros y Hy. apply Hb. now right.
Qed.

Lemma forEach_not_thrown {A S : Type} (body : A -> S -> completion S) :
  (forall x s e, body x s <> Throw e) ->
  forall l s e, forEach l body s <> Throw e.
Proof.
  intros Hb l. induction l as [|x l IH]; intros s e; simpl; [discriminate |].
  destruct (body x s) as [s'|e'|] eqn:E; simpl; [apply IH | | discriminate].
  now destruct (Hb x s e').
Qed.

Lemma expand_element_not_thrown e group err : expand_element e group <> Throw err.
Proof.
  unfold expand_element. destruct (0 <? Js.indexOf e "-"); [| discriminate].
  apply for_le_not_thrown.
Qed.

Lemma expand_group_not_thrown g ret err : expand_group g ret <> Throw err.
Proof.
  unfold expand_group.
  destruct (forEach (Js.split "," g) expand_element []) as [group|e'|] eqn:E; simpl;
    try discriminate.
  now destruct (forEach_not_thrown expand_element expand_element_not_thrown _ _ _ E).
Qed.

(** The parser has nothing that throws. *)
Lemma parseOperatorList_not_thrown value err : parseOperatorList value <> Throw err.
Proof.
  unfold parseOperatorList.
  destruct (collect_groups_total (S (String.length value)) value 0 []) as [groups ->];
    [lia |].
  simpl. apply forEach_not_thrown. apply expand_group_not_thrown.
Qed.

(** A range element whose loop has nothing to do adds nothing to its
    group. *)
Lemma expand_element_skipped e group :
  0 < Js.indexOf e "-" ->
  Js.le (range_from e (Js.indexOf e "-")) (range_to e (Js.indexOf e "-")) = false ->
  expand_element e group = Normal group.
Proof.
  intros Hd H. unfold expand_element.
  destruct (Z.ltb_spec 0 (Js.indexOf e "-")); [| lia].
  now apply for_le_skipped.
Qed.

Lemma expand_element_no_tokens e group :
  0 < Js.indexOf e "-" ->
  (range_from e (Js.indexOf e "-") = Js.NaN
   \/ range_to e (Js.indexOf e "-") = Js.NaN
   \/ exists from to, range_from e (Js.indexOf e "-") = Js.Int from
                      /\ range_to e (Js.indexOf e "-") = Js.Int to /\ to < from) ->
  expand_element e group = Normal group.
Proof.
  intros Hd H. apply expand_element_skipped; [exact Hd |].
  destruct H as [-> | [-> | [from [to [-> [-> Hlt]]]]]].
  - reflexivity.
  - now destruct (range_from e _).
  - simpl. destruct (Z.leb_spec from to); [lia | reflexivity].
Qed.

(** When the model of a range element runs out of its loop bound, the loop
    over the range never ends: no loop bound is enough. *)
Lemma expand_element_never_ends e group :
  expand_element e group = OutOfFuel ->
  forall fuel,
    Js.for_le fuel (range_from e (Js.indexOf e "-")) (range_to e (Js.indexOf e "-"))
      (fun i group => group ++ [Js.toString i]) group
    = OutOfFuel.
Proof.
  unfold expand_element. destruct (0 <? Js.indexOf e "-"); [| discriminate].
  intros H fuel.
  destruct (Js.for_le fuel _ _ _ group) as [r|err|] eqn:E; [| | reflexivity].
  - apply for_le_bound_enough in E; [| apply parseInt_is_double]. congruence.
  - now destruct (for_le_not_thrown _ _ _ _ _ _ E).
Qed.

(** An element within the safe integers is expanded. *)
Lemma expand_element_safe e group :
  safe_element e = true -> exists r, expand_element e group = Normal r.
Proof.
  unfold safe_element, expand_element, within_safe_integers.
  destruct (0 <? Js.indexOf e "-"); [| eauto].
  intros H. apply orb_true_iff in H. destruct H as [H | H].
  - apply negb_true_iff in H. rewrite for_le_skipped by exact H. eauto.
  - destruct (range_from e _) as [|f| |]; try discriminate.
    destruct (range_to e _) as [|t| |]; try discriminate.
    apply andb_true_iff in H. destruct H as [Hf Ht].
    apply Z.leb_le in Hf, Ht. rewrite for_le_bound_runs by auto. eauto.
Qed.

Lemma expand_group_safe g ret :
  forallb safe_element (Js.split "," g) = true ->
  exists r, expand_group g ret = Normal r.
Proof.
  intros H. rewrite forallb_forall in H. unfold expand_group.
  destruct (forEach_total expand_element (Js.split "," g)
              (fun x Hx s => expand_element_safe x s (H x Hx)) []) as [group ->].
  simpl. eauto.
Qed.

(** An operator expression whose ranges are within the safe integers is
    parsed to the end. *)
Lemma parseOperatorList_safe value :
  safe_expression value = true -> exists ret, parseOperatorList value = Normal ret.
Proof.
  unfold safe_expression, elements_of, parseOperatorList.
  destruct (collect_groups_total (S (String.length value)) value 0 []) as [groups ->];
    [lia |].
  simpl. intros H. apply forEach_total. intros g Hg ret. apply expand_group_safe.
  rewrite forallb_forall in *. intros x Hx. apply H. apply in_flat_map. eauto.
Qed.

End Parser.

(** C5. Parsing an operator expression never throws, and it ends
    normally on every input string whose ranges are within the safe
    integers (each range element has nothing to expand, or runs from an
    integer that is at least [-2^53] to one that is at most [2^53 - 1]).  A
    range element (one with a dash after its first character) adds no token
    to its axis when a bound does not start with a numeral ([parseInt] gives
    [NaN]) or when the bounds, as numbers, are inverted, and the other
    elements and axes are parsed as usual; a bound that starts with a
    numeral counts with that numeral, so ['(1a-3b)'] is the range from 1 to
    3; ['(X0)(1-5)'] parses to [[['X0'], ['1','2','3','4','5']]]. *)
Theorem parseOperatorList_tolerant :
  (forall value,
     safe_expression value = true ->
     exists ret, Preset.parseOperatorList value = Normal ret)
  /\ (forall value e, Preset.parseOperatorList value <> Throw e)
  /\ (forall e group,
        0 < Js.indexOf e "-" ->
        (Preset.range_from e (Js.indexOf e "-") = Js.NaN
         \/ Preset.range_to e (Js.indexOf e "-") = Js.NaN
         \/ exists from to, Preset.range_from e (Js.indexOf e "-") = Js.Int from
              /\ Preset.range_to e (Js.indexOf e "-") = Js.Int to /\ to < from) ->
        Preset.expand_element e group = Normal group)
  /\ Preset.parseOperatorList "(X0)(1-5)" = Normal [["X0"]; ["1"; "2"; "3"; "4"; "5"]]
  /\ Preset.parseOperatorList "(X0)(5-1)" = Normal [["X0"]; []]
  /\ Preset.parseOperatorList "(a-b,7)(1-2)" = Normal [["7"]; ["1"; "2"]]
  /\ Preset.parseOperatorList "(1a-3b)" = Normal [["1"; "2"; "3"]].
Proof.
  split; [exact parseOperatorList_safe |].
  split; [exact parseOperatorList_not_thrown |].
  split; [exact expand_element_no_tokens |].
  repeat split; vm_compute; reflexivity.
Qed.

Lemma parseOperatorList_tolerant_witness :
  (exists ret, Preset.parseOperatorList "(X0)(1-5,7-3,a-b)" = Normal ret)
  /\ Preset.expand_element "5-1" ["X0"] = Normal ["X0"]
  /\ Preset.expand_element "a-b" [] = Normal [].
Proof.
  destruct parseOperatorList_tolerant as [Hsafe [_ [H _]]]. split; [| split].
  - apply Hsafe. vm_compute. reflexivity.
  - apply H; [vm_compute; reflexivity |].
    right. right. exists 5, 1. repeat split.
  - apply H; [vm_compute; reflexivity |].
    left. vm_compute. reflexivity.
Defined.

(** Parsing does not end on every input string: in
    ['(9007199254740992-9007199254740993)'] both bounds are read as 2^53,
    the counter of the loop over the range stays at 2^53, and the loop never
    ends, whatever the loop bound.  The same happens when the bounds are
    written the other way round, inverted. *)
Lemma parseOperatorList_tolerant_counterexample :
  Preset.range_from "9007199254740992-9007199254740993" 16 = Js.Int 9007199254740992
  /\ Preset.range_to "9007199254740992-9007199254740993" 16 = Js.Int 9007199254740992
  /\ (forall fuel group,
        Js.for_le fuel (Js.Int 9007199254740992) (Js.Int 9007199254740992)
          (fun i group => group ++ [Js.toString i]) group = OutOfFuel)
  /\ ~ (exists ret,
          Preset.parseOperatorList "(9007199254740992-9007199254740993)" = Normal ret)
  /\ ~ (exists ret,
          Preset.parseOperatorList "(9007199254740993-9007199254740992)" = Normal ret).
Proof.
  split; [vm_compute; reflexivity |]. split; [vm_compute; reflexivity |]. split.
  - intros fuel group. apply for_le_stuck; [reflexivity | exact incr_stuck].
  - split; intros [ret H]; vm_compute in H; discriminate.
Qed.

(** ** The scan over the assembly table *)

Section Scan.

Import Preset.

Variables assembly_id oper_expression asym_id_list : option CifField.
Variable ids : list IdPair.

Lemma equals_safe expr val :
  safe_expression expr = true -> exists b, equals expr val = Normal b.
Proof.
  intros H. unfold equals. destruct (parseOperatorList_safe expr H) as [oplist ->].
  simpl. eauto.
Qed.

Lemma equals_not_thrown expr val e : equals expr val <> Throw e.
Proof.
  unfold equals. destruct (parseOperatorList expr) as [oplist|e'|] eqn:E; simpl;
    try discriminate.
  now destruct (parseOperatorList_not_thrown expr e').
Qed.

Lemma field_str_ends (f : option CifField) i :
  (exists a, field_str f i = Normal a) \/ (exists e, field_str f i = Throw e).
Proof.
  destruct f as [f|]; simpl; [| eauto]. destruct (str f i); simpl; eauto.
Qed.

(** The test of a row whose operator expression is within the safe integers
    ends with a boolean or an exception. *)
Lemma some_mismatch_ends i :
  (forall expr, field_str oper_expression i = Normal expr -> safe_expression expr = true) ->
  forall l,
    (exists b, some_mismatch oper_expression asym_id_list i l = Normal b)
    \/ (exists e, some_mismatch oper_expression asym_id_list i l = Throw e).
Proof.
  intros Hsafe. induction l as [|val l IH]; simpl; [eauto |].
  destruct (field_str_ends oper_expression i) as [[expr Eo] | [e Eo]]; rewrite Eo; simpl;
    [| eauto].
  destruct (equals_safe expr (fst val) (Hsafe expr Eo)) as [same ->]. simpl.
  destruct same; simpl; eauto.
  destruct (field_str_ends asym_id_list i) as [[asym Ea] | [e Ea]]; rewrite Ea; simpl;
    [| eauto].
  destruct (_ =? -1); eauto.
Qed.

Lemma scan_rows_ends n : forall i,
  (forall j expr, (i <= j < i + n)%nat ->
     field_str oper_expression j = Normal expr -> safe_expression expr = true) ->
  (exists r, scan_rows n i assembly_id oper_expression asym_id_list ids = Normal r)
  \/ (exists e, scan_rows n i assembly_id oper_expression asym_id_list ids = Throw e).
Proof.
  induction n as [|n IH]; intros i Hsafe; simpl; [eauto |].
  destruct (some_mismatch_ends i (fun expr => Hsafe i expr ltac:(lia)) ids)
    as [[skip ->] | [e ->]]; simpl; [| eauto].
  destruct skip; [apply IH; intros j expr Hj; apply Hsafe; lia |].
  destruct (field_str_ends assembly_id i) as [[a ->] | [e ->]]; simpl; eauto.
Qed.

(** The scan returns the assembly id of the first accepted row. *)
Lemma scan_rows_first n : forall i k a,
  (i <= k < i + n)%nat ->
  (forall j, (i <= j < k)%nat -> row_rejected oper_expression asym_id_list ids j) ->
  row_accepted oper_expression asym_id_list ids k ->
  field_str assembly_id k = Normal a ->
  scan_rows n i assembly_id oper_expression asym_id_list ids = Normal (Some a).
Proof.
  induction n as [|n IH]; intros i k a Hk Hrej Hacc Ha; [lia |].
  simpl. destruct (Nat.eq_dec i k) as [-> | Hne].
  - rewrite Hacc. simpl. rewrite Ha. reflexivity.
  - rewrite (Hrej i) by lia. simpl. apply (IH (S i) k a); auto; try lia.
    intros j Hj. apply Hrej. lia.
Qed.

Lemma scan_rows_none n : forall i,
  (forall j, (i <= j < i + n)%nat -> row_rejected oper_expression asym_id_list ids j) ->
  scan_rows n i assembly_id oper_expression asym_id_list ids = Normal None.
Proof.
  induction n as [|n IH]; intros i Hrej; [reflexivity |].
  simpl. rewrite (Hrej i) by lia. simpl. apply IH. intros j Hj. apply Hrej. lia.
Qed.

(** Conversely, an id comes out of the scan only from the first accepted
    row. *)
Lemma scan_rows_some n : forall i a,
  scan_rows n i assembly_id oper_expression asym_id_list ids = Normal (Some a) ->
  exists k, (i <= k < i + n)%nat
    /\ (forall j, (i <= j < k)%nat -> row_rejected oper_expression asym_id_list ids j)
    /\ row_accepted oper_expression asym_id_list ids k
    /\ field_str assembly_id k = Normal a.
Proof.
  induction n as [|n IH]; intros i a; simpl; [discriminate |].
  destruct (some_mismatch oper_expression asym_id_list i ids) as [skip|e|] eqn:Es;
    simpl; try discriminate.
  destruct skip.
  - intros H. apply IH in H. destruct H as [k [Hk [Hrej [Hacc Ha]]]].
    exists k. repeat split; auto; try lia.
    intros j Hj. destruct (Nat.eq_dec j i) as [-> | Hne]; [exact Es |].
    apply Hrej. lia.
  - destruct (field_str assembly_id i) as [a'|e|] eqn:Ea; simpl; try discriminate.
    intros [= <-]. exists i. repeat split; auto; try lia.
Qed.

End Scan.

Section DetermineAssemblyId.

Import Preset.

Lemma find_assembly_ends traj ids :
  safe_table traj ->
  (exists r, find_assembly traj ids = Normal r)
  \/ (exists e, find_assembly traj ids = Throw e).
Proof.
  intros Hsafe. unfold find_assembly. destruct traj as [[category|]|e]; simpl; eauto.
  destruct (getField category "assembly_id") as [fa|e]; simpl; eauto.
  destruct (getField category "oper_expression") as [fo|e] eqn:Hfo; simpl; eauto.
  destruct (getField category "asym_id_list") as [fl|e]; simpl; eauto.
  apply scan_rows_ends. intros j expr Hj. apply (Hsafe category fo j expr eq_refl Hfo). lia.
Qed.

Lemma find_assembly_first traj ids a :
  first_match traj ids a -> find_assembly traj ids = Normal (Some a).
Proof.
  intros (category & fa & fo & fl & i & -> & Hfa & Hfo & Hfl & Hi & Hrej & Hacc & Ha).
  unfold find_assembly. simpl. rewrite Hfa, Hfo, Hfl. simpl.
  apply (scan_rows_first fa fo fl ids _ 0%nat i a); auto; try lia.
  intros j Hj. apply Hrej. lia.
Qed.

Lemma find_assembly_some traj ids a :
  find_assembly traj ids = Normal (Some a) -> first_match traj ids a.
Proof.
  unfold find_assembly. destruct traj as [[category|]|e]; simpl; try discriminate.
  destruct (getField category "assembly_id") as [fa|e] eqn:Hfa; simpl; try discriminate.
  destruct (getField category "oper_expression") as [fo|e] eqn:Hfo; simpl; try discriminate.
  destruct (getField category "asym_id_list") as [fl|e] eqn:Hfl; simpl; try discriminate.
  intros H. apply scan_rows_some in H. destruct H as [k [Hk [Hrej [Hacc Ha]]]].
  exists category, fa, fo, fl, k. repeat split; auto; try lia.
  intros j Hj. apply Hrej. lia.
Qed.

Lemma find_assembly_none traj ids :
  no_match traj ids -> find_assembly traj ids = Normal None.
Proof.
  intros (category & fa & fo & fl & -> & Hfa & Hfo & Hfl & Hrej).
  unfold find_assembly. simpl. rewrite Hfa, Hfo, Hfl. simpl.
  apply scan_rows_none. intros j Hj. apply Hrej. lia.
Qed.

(** The assembly id counts as known exactly when it is a string other than
    [''] and ['0']. *)
Lemma assembly_known_true p :
  assembly_known p = true
  <-> exists a, assemblyId p = Some a /\ a <> "" /\ a <> "0".
Proof.
  unfold assembly_known, truthy, differs. destruct (assemblyId p) as [a|].
  - destruct (String.eqb_spec a ""), (String.eqb_spec a "0"); simpl; split;
      try discriminate; try (intros [a' [[= <-] [H1 H2]]]; congruence).
    intros _. eauto.
  - simpl. split; [discriminate | intros [a [H _]]; discriminate].
Qed.

Lemma assembly_known_false p :
  assembly_known p = false
  <-> assemblyId p = None \/ assemblyId p = Some "" \/ assemblyId p = Some "0".
Proof.
  unfold assembly_known, truthy, differs. destruct (assemblyId p) as [a|].
  - destruct (String.eqb_spec a ""), (String.eqb_spec a "0"); simpl; split;
      subst; auto; try discriminate.
    intros [H | [[= H] | [= H]]]; congruence.
  - simpl. tauto.
Qed.

(** The four ways through the function. *)
Lemma determineAssemblyId_known traj p :
  assembly_known p = true -> determineAssemblyId traj p = Normal (p, []).
Proof. unfold determineAssemblyId. now intros ->. Qed.

Lemma determineAssemblyId_found traj p a :
  assembly_known p = false ->
  find_assembly traj (provided_ids (targets p)) = Normal (Some a) ->
  determineAssemblyId traj p = Normal (assign_assemblyId p a, []).
Proof. unfold determineAssemblyId. now intros -> ->. Qed.

Lemma determineAssemblyId_not_found traj p :
  assembly_known p = false ->
  find_assembly traj (provided_ids (targets p)) = Normal None ->
  determineAssemblyId traj p = Normal (assign_assemblyId p "1", []).
Proof. unfold determineAssemblyId. now intros -> ->. Qed.

Lemma determineAssemblyId_caught traj p e :
  assembly_known p = false ->
  find_assembly traj (provided_ids (targets p)) = Throw e ->
  determineAssemblyId traj p = Normal (assign_assemblyId p "1", [e]).
Proof. unfold determineAssemblyId. now intros -> ->. Qed.

(** Whatever the lookup does, no exception leaves the call. *)
Lemma determineAssemblyId_not_thrown traj p e :
  determineAssemblyId traj p <> Throw e.
Proof.
  unfold determineAssemblyId. destruct (assembly_known p); [discriminate |].
  destruct (find_assembly traj (provided_ids (targets p))) as [[a|]|e'|]; discriminate.
Qed.

(** On a table whose operator expressions are within the safe integers the
    call returns. *)
Lemma determineAssemblyId_returns traj p :
  safe_table traj ->
  exists p' warned, determineAssemblyId traj p = Normal (p', warned).
Proof.
  intros Hsafe. destruct (assembly_known p) eqn:Hp.
  - rewrite determineAssemblyId_known by exact Hp. eauto.
  - destruct (find_assembly_ends traj (provided_ids (targets p)) Hsafe)
      as [[[a|] Hr] | [e Hr]].
    + rewrite (determineAssemblyId_found _ _ a) by assumption. eauto.
    + rewrite determineAssemblyId_not_found by assumption. eauto.
    + rewrite (determineAssemblyId_caught _ _ e) by assumption. eauto.
Qed.

(** What a call that returns leaves in the props. *)
Lemma determineAssemblyId_result traj p p' warned :
  determineAssemblyId traj p = Normal (p', warned) ->
  exists a, assemblyId p' = Some a
    /\ ((assembly_known p = true /\ p' = p /\ a <> "" /\ a <> "0")
        \/ (assembly_known p = false
            /\ p' = assign_assemblyId p a
            /\ (first_match traj (provided_ids (targets p)) a \/ a = "1"))).
Proof.
  destruct (assembly_known p) eqn:Hp.
  - rewrite determineAssemblyId_known by exact Hp. intros [= <- <-].
    destruct (proj1 (assembly_known_true p) Hp) as [a [Ha [Hne H0]]].
    exists a. split; [exact Ha |]. left. auto.
  - destruct (find_assembly traj (provided_ids (targets p))) as [[a|]|e|] eqn:Hr.
    + rewrite (determineAssemblyId_found _ _ a) by assumption. intros [= <- <-].
      exists a. split; [reflexivity |]. right. repeat split. left.
      now apply find_assembly_some.
    + rewrite determineAssemblyId_not_found by assumption. intros [= <- <-].
      exists "1". split; [reflexivity |]. right. repeat split. now right.
    + rewrite (determineAssemblyId_caught _ _ e) by assumption. intros [= <- <-].
      exists "1". split; [reflexivity |]. right. repeat split. now right.
    + unfold determineAssemblyId. rewrite Hp, Hr. discriminate.
Qed.

End DetermineAssemblyId.



(** C9. When the caller supplied an assembly id that is a non-empty string
    other than ['0'], the call returns at once: whatever the accessor of the
    metadata table would give (a table, [undefined] or an exception), the
    props come back unchanged and nothing is logged. *)
Theorem determineAssemblyId_skips_known traj p a :
  Preset.assemblyId p = Some a -> a <> "" -> a <> "0" ->
  Preset.determineAssemblyId traj p = Normal (p, []).
Proof.
  intros Ha Hne H0. apply determineAssemblyId_known.
  apply assembly_known_true. eauto.
Qed.

Lemma determineAssemblyId_skips_known_witness :
  Preset.determineAssemblyId (Raised "accessor failed") (chain_A (Some "2"))
  = Normal (chain_A (Some "2"), []).
Proof.
  apply (determineAssemblyId_skips_known _ _ "2"); [reflexivity | discriminate | discriminate].
Defined.



(** ** The operator test [equals] *)

Section Equals.

Import Preset.

Lemma array_indexOf_ge a x : -1 <= Js.array_indexOf a x.
Proof.
  induction a as [|y a IH]; simpl; [lia |].
  destruct (String.eqb y x); [lia |].
  destruct (Z.eqb_spec (Js.array_indexOf a x) (-1)); lia.
Qed.

(** [a.indexOf(x) !== -1] is membership. *)
Lemma array_indexOf_found a x :
  negb (Js.array_indexOf a x =? -1) = existsb (String.eqb x) a.
Proof.
  induction a as [|y a IH]; simpl; [reflexivity |].
  rewrite (String.eqb_sym x y). destruct (String.eqb y x); [reflexivity |].
  simpl. rewrite <- IH. pose proof (array_indexOf_ge a x).
  destruct (Z.eqb_spec (Js.array_indexOf a x) (-1)) as [E | E]; simpl.
  - reflexivity.
  - destruct (Z.eqb_spec (Js.array_indexOf a x + 1) (-1)); [lia | reflexivity].
Qed.

Lemma count_matches_shift n : forall i axis axes tok tokens m,
  count_matches n (S i) (axis :: axes) (tok :: tokens) m = count_matches n i axes tokens m.
Proof.
  induction n as [|n IH]; intros; simpl; [reflexivity |]. apply IH.
Qed.

(** The counter never exceeds the number of positions seen, and reaches the
    number of requested tokens exactly when each of them has an axis that
    holds it. *)
Lemma count_matches_spec tokens : forall axes m,
  let r := count_matches (Nat.min (length axes) (length tokens)) 0 axes tokens m in
  (r <= m + length tokens)%nat
  /\ (r = (m + length tokens)%nat <-> spec_tokens_in_axes axes tokens = true).
Proof.
  induction tokens as [|tok tokens IH]; intros axes m; simpl.
  - rewrite Nat.min_0_r. simpl. split; [lia |]. split; [reflexivity | lia].
  - destruct axes as [|axis axes]; simpl.
    + split; [lia |]. split; [lia | discriminate].
    + rewrite count_matches_shift, array_indexOf_found.
      destruct (existsb (String.eqb tok) axis); simpl.
      * destruct (IH axes (S m)) as [Hle Hiff]. split; [lia |].
        rewrite <- Hiff. lia.
      * destruct (IH axes m) as [Hle _]. split; [lia |].
        split; [lia | discriminate].
Qed.

(** [equals] is the positional test of the specification on the parsed
    axes and the components of the request. *)
Lemma equals_positional expr val axes :
  parseOperatorList expr = Normal axes ->
  equals expr val = Normal (spec_tokens_in_axes axes (Js.split "x" val)).
Proof.
  intros Hp. unfold equals. rewrite Hp. simpl. f_equal.
  destruct (count_matches_spec (Js.split "x" val) axes 0) as [Hle Hiff].
  simpl in Hle, Hiff.
  destruct (spec_tokens_in_axes axes (Js.split "x" val)).
  - apply Nat.eqb_eq. now apply Hiff.
  - apply Nat.eqb_neq. intros E. apply Hiff in E. discriminate.
Qed.

End Equals.

(** ** The chain test *)

Section ChainTest.

Lemma split_nonempty c s : Js.split c s <> [].
Proof.
  destruct s as [|a s]; simpl; [discriminate |].
  destruct (Ascii.eqb a c); [discriminate |].
  destruct (Js.split c s); discriminate.
Qed.

(** The first piece of a split starts the string. *)
Lemma split_head c s : forall h t,
  Js.split c s = h :: t -> exists post, s = (h ++ post)%string.
Proof.
  induction s as [|a s IH]; simpl; intros h t.
  - intros [= <- <-]. now exists "".
  - destruct (Ascii.eqb a c).
    + intros [= <- <-]. now exists (String a s).
    + destruct (Js.split c s) as [|h' t'] eqn:E; [now destruct (split_nonempty c s) |].
      intros [= <- <-]. destruct (IH h' t' eq_refl) as [post ->].
      now exists post.
Qed.

(** Every piece of a split lies inside the string. *)
Lemma split_piece c s : forall x,
  In x (Js.split c s) -> exists pre post, s = (pre ++ x ++ post)%string.
Proof.
  induction s as [|a s IH]; simpl; intros x.
  - intros [<- | []]. now exists "", "".
  - destruct (Ascii.eqb a c).
    + intros [<- | Hx]; [now exists "", (String a s) |].
      destruct (IH x Hx) as [pre [post ->]]. now exists (String a pre), post.
    + destruct (Js.split c s) as [|h t] eqn:E; [now destruct (split_nonempty c s) |].
      intros [<- | Hx].
      * destruct (split_head c s h t E) as [post ->]. now exists "", post.
      * destruct (IH x (or_intror Hx)) as [pre [post ->]].
        now exists (String a pre), post.
Qed.

Lemma prefix_app x post : String.prefix x (x ++ post) = true.
Proof.
  induction x as [|a x IH]; simpl; [now destruct post |].
  destruct (ascii_dec a a); [exact IH | congruence].
Qed.

Lemma index_0_cons x b s :
  String.index 0 x (String b s)
  = if String.prefix x (String b s) then Some 0%nat
    else match String.index 0 x s with
         | Some n => Some (S n)
         | None => None
         end.
Proof. reflexivity. Qed.

Lemma index_inside x post : forall pre,
  String.index 0 x (pre ++ x ++ post) <> None.
Proof.
  induction pre as [|a pre IH].
  - change ("" ++ x ++ post)%string with (x ++ post)%string.
    pose proof (prefix_app x post) as Hp.
    destruct (x ++ post)%string as [|b r].
    + destruct x; [discriminate | discriminate Hp].
    + rewrite index_0_cons, Hp. discriminate.
  - change (String a pre ++ x ++ post)%string with (String a (pre ++ x ++ post)).
    rewrite index_0_cons.
    destruct (String.prefix x (String a (pre ++ x ++ post))); [discriminate |].
    destruct (String.index 0 x (pre ++ x ++ post)); [discriminate | contradiction].
Qed.

(** A chain that is a member of the list of chain labels passes the test of
    the code. *)
Lemma chain_member_is_found asym_id_list chain :
  spec_chain_in_list asym_id_list chain = true ->
  Js.indexOf asym_id_list chain <> -1.
Proof.
  unfold spec_chain_in_list, Js.indexOf. intros H.
  apply existsb_exists in H. destruct H as [x [Hx Heq]].
  apply String.eqb_eq in Heq. subst x.
  destruct (split_piece _ _ _ Hx) as [pre [post ->]].
  pose proof (index_inside chain post pre) as Hi.
  destruct (String.index 0 chain (pre ++ chain ++ post)); [lia | contradiction].
Qed.

End ChainTest.

(** C2. The row test on the input where the code and the specification
    part: the row [('7', '(1)', 'AA,B')] and the requested pair
    [('1', 'A')].  The list of chain labels of the row, [['AA', 'B']], does
    not contain [A], so the row does not match in the words of the
    specification; the code looks for [A] inside the string ['AA,B'],
    accepts the row and assigns its id.  In the other direction the two
    agree: a chain that is in the list is found by the code, and the
    operator test of the code is the positional test of the
    specification. *)
Theorem chain_test_is_substring_search :
  Preset.parseOperatorList "(1)" = Normal [["1"]]
  /\ spec_chain_in_list "AA,B" "A" = false
  /\ spec_pair_matches [["1"]] "AA,B" "1" "A" = false
  /\ Js.indexOf "AA,B" "A" = 0
  /\ row_accepted (oper_column assembly_AA_B) (asym_column assembly_AA_B)
       (Preset.provided_ids (Preset.targets (chain_A None))) 0
  /\ Preset.determineAssemblyId (Preset.trajectory_of_rows assembly_AA_B) (chain_A None)
     = Normal (Preset.assign_assemblyId (chain_A None) "7", [])
  /\ (forall asym_id_list chain,
        spec_chain_in_list asym_id_list chain = true ->
        Js.indexOf asym_id_list chain <> -1)
  /\ (forall expr val axes,
        Preset.parseOperatorList expr = Normal axes ->
        Preset.equals expr val = Normal (spec_tokens_in_axes axes (Js.split "x" val))).
Proof.
  split; [vm_compute; reflexivity |]. split; [vm_compute; reflexivity |].
  split; [vm_compute; reflexivity |]. split; [vm_compute; reflexivity |].
  split; [vm_compute; reflexivity |]. split; [vm_compute; reflexivity |].
  split.
  - apply chain_member_is_found.
  - apply equals_positional.
Qed.

(** ** The requested pairs *)

Section ProvidedIds.

Import Preset.

Lemma map_id_pairs_eq ts : forall heap,
  map_id_pairs ts heap
  = (seq (length heap) (length ts), heap ++ map id_pair_of ts).
Proof.
  induction ts as [|t ts IH]; intros heap; simpl.
  - now rewrite app_nil_r.
  - rewrite IH, length_app, <- app_assoc. simpl.
    now rewrite Nat.add_1_r.
Qed.

(** References are pairwise distinct, so each one is found at its own
    index. *)
Lemma ref_indexOf_seq n : forall b k,
  (k < n)%nat -> ref_indexOf (seq b n) (b + k)%nat = Z.of_nat k.
Proof.
  induction n as [|n IH]; intros b k Hk; [lia |].
  simpl. destruct (Nat.eqb_spec b (b + k)) as [E | E].
  - assert (k = 0%nat) as -> by lia. reflexivity.
  - destruct k as [|k]; [lia |].
    replace (b + S k)%nat with (S b + k)%nat by lia.
    rewrite IH by lia.
    destruct (Z.eqb_spec (Z.of_nat k) (-1)); lia.
Qed.

Lemma filter_first_occurrence_seq b n m : forall i,
  (i + m = n)%nat ->
  filter_first_occurrence (seq b n) (seq (b + i) m) i = seq (b + i) m.
Proof.
  induction m as [|m IH]; intros i Hi; [reflexivity |].
  simpl. rewrite ref_indexOf_seq by lia. rewrite Z.eqb_refl.
  f_equal. replace (S (b + i)) with (b + S i)%nat by lia. apply IH. lia.
Qed.

Lemma map_nth_seq {B : Type} (d : B) (l : list B) : forall pre,
  map (fun r => nth r (pre ++ l) d) (seq (length pre) (length l)) = l.
Proof.
  induction l as [|x l IH]; intros pre; [reflexivity |].
  simpl. rewrite app_nth2, Nat.sub_diag by lia. f_equal.
  specialize (IH (pre ++ [x])). rewrite length_app, <- app_assoc in IH.
  simpl in IH. rewrite Nat.add_1_r in IH. exact IH.
Qed.

(** The filter keeps every element: [ids] has one pair per target. *)
Lemma provided_ids_eq ts : provided_ids ts = map id_pair_of ts.
Proof.
  unfold provided_ids. rewrite map_id_pairs_eq. simpl.
  pose proof (filter_first_occurrence_seq 0 (length ts) (length ts) 0 eq_refl) as Hf.
  simpl in Hf. rewrite Hf. rewrite <- (length_map id_pair_of ts).
  apply (map_nth_seq _ (map id_pair_of ts) []).
Qed.

End ProvidedIds.

(** C8. The extracted pairs on two targets with the same chain and no
    operator: the pair [('1', 'A')] occurs twice, so the collection is not
    free of duplicates.  In general [ids] holds one pair per target, in
    order: each pair is a fresh array, which [indexOf] finds only at its own
    index. *)
Theorem provided_ids_keeps_duplicates :
  Preset.provided_ids [target None (Some "A"); target None (Some "A")]
  = [("1", Some "A"); ("1", Some "A")]
  /\ ~ NoDup (Preset.provided_ids [target None (Some "A"); target None (Some "A")])
  /\ (forall ts, Preset.provided_ids ts = map id_pair_of ts).
Proof.
  split; [reflexivity |]. split; [| exact provided_ids_eq].
  intros H. change (NoDup [("1", Some "A"); ("1", Some "A") : Preset.IdPair]) in H.
  inversion H as [| x l Hin _]. apply Hin. now left.
Qed.

(** ** The first row that passes *)

Section FirstRow.

Import Preset.

Variable rows : list Row.

Lemma column_str (proj : Row -> string) i r :
  nth_error rows i = Some r ->
  field_str (Some (column rows proj)) i = Normal (proj r).
Proof. intros H. simpl. now rewrite H. Qed.

(** On a row whose operator expression parses, the scan skips the row
    exactly when some requested pair does not pass. *)
Lemma some_mismatch_on_row i a expr asym axes :
  nth_error rows i = Some (a, expr, asym) ->
  parseOperatorList expr = Normal axes ->
  forall ids,
    some_mismatch (oper_column rows) (asym_column rows) i ids
    = Normal (negb (row_passes axes asym ids)).
Proof.
  intros Hrow Hparse. induction ids as [|val ids IH]; [reflexivity |].
  cbn [some_mismatch]. unfold oper_column at 1, asym_column at 1.
  rewrite (column_str _ _ _ Hrow). cbn [bind fst snd].
  rewrite (equals_positional _ _ _ Hparse). cbn [bind].
  unfold row_passes. cbn [forallb]. unfold pair_passes at 1.
  destruct (spec_tokens_in_axes axes (Js.split "x" (fst val))); [| reflexivity].
  cbn [negb andb]. rewrite (column_str _ _ _ Hrow). cbn [bind fst snd].
  destruct (Js.indexOf asym (to_search_string (snd val)) =? -1); [reflexivity |].
  exact IH.
Qed.

Lemma find_assembly_on_rows ids :
  find_assembly (trajectory_of_rows rows) ids
  = scan_rows (length rows) 0 (Some (column rows (fun r => fst (fst r))))
      (oper_column rows) (asym_column rows) ids.
Proof. reflexivity. Qed.

(** The id of the first row that passes is found. *)
Lemma find_assembly_first_row ids i a expr asym axes :
  nth_error rows i = Some (a, expr, asym) ->
  parseOperatorList expr = Normal axes ->
  row_passes axes asym ids = true ->
  (forall j a' expr' asym',
     (j < i)%nat -> nth_error rows j = Some (a', expr', asym') ->
     exists axes', parseOperatorList expr' = Normal axes'
                   /\ row_passes axes' asym' ids = false) ->
  find_assembly (trajectory_of_rows rows) ids = Normal (Some a).
Proof.
  intros Hrow Hparse Hpass Hbefore. rewrite find_assembly_on_rows.
  apply (scan_rows_first _ _ _ _ _ 0%nat i a).
  - assert (i < length rows)%nat by (apply nth_error_Some; congruence). lia.
  - intros j Hj. unfold row_rejected.
    destruct (nth_error rows j) as [[[a' expr'] asym']|] eqn:Ej.
    2:{ apply nth_error_None in Ej.
        assert (i < length rows)%nat by (apply nth_error_Some; congruence). lia. }
    destruct (Hbefore j a' expr' asym' ltac:(lia) Ej) as [axes' [Hp' Hf]].
    rewrite (some_mismatch_on_row _ _ _ _ _ Ej Hp'), Hf. reflexivity.
  - unfold row_accepted. rewrite (some_mismatch_on_row _ _ _ _ _ Hrow Hparse), Hpass.
    reflexivity.
  - now apply (column_str (fun r => fst (fst r)) i (a, expr, asym)).
Qed.

(** When no row passes, none is found. *)
Lemma find_assembly_no_row ids :
  (forall j a expr asym,
     nth_error rows j = Some (a, expr, asym) ->
     exists axes, parseOperatorList expr = Normal axes
                  /\ row_passes axes asym ids = false) ->
  find_assembly (trajectory_of_rows rows) ids = Normal None.
Proof.
  intros Hall. rewrite find_assembly_on_rows. apply scan_rows_none.
  intros j Hj. unfold row_rejected.
  destruct (nth_error rows j) as [[[a expr] asym]|] eqn:Ej.
  2:{ apply nth_error_None in Ej. lia. }
  destruct (Hall j a expr asym Ej) as [axes [Hp Hf]].
  rewrite (some_mismatch_on_row _ _ _ _ _ Ej Hp), Hf. reflexivity.
Qed.

End FirstRow.

(** C1. First match wins, with the chain test of the code.  On the table
    with rows [('7', '(1)', 'AA,B')] and [('2', '(1)', 'A')] and a request
    for chain [A] with operator ['1'], row 0 does not match in the words of
    the specification (its chains are [AA] and [B]) and row 1 does, so the
    first matching row has the id ['2']; the code assigns ['7'], the id of
    row 0, because it looks for [A] inside the string ['AA,B'].  Apart from
    the chain test the scan is as specified: whenever the assembly id is
    unset, the id assigned is that of the first row, in table order, on
    which every requested pair (the operator, ['1'] when the target has
    none, and the chain of each target) passes the positional operator test
    and the chain search, without a warning; when no row passes, the id is
    ['1'].  On the table with rows [('1', '(1)', 'A,B')] and
    [('2', '(1-2)', 'A')] both rows pass for chain [A] with operator ['1'],
    and the id of row 0, ['1'], is assigned. *)
Theorem first_match_wins :
  Preset.parseOperatorList "(1)" = Normal [["1"]]
  /\ spec_pair_matches [["1"]] "AA,B" "1" "A" = false
  /\ spec_pair_matches [["1"]] "A" "1" "A" = true
  /\ Preset.determineAssemblyId (Preset.trajectory_of_rows assembly_AA_B_then_A)
       (chain_A None)
     = Normal (Preset.assign_assemblyId (chain_A None) "7", [])
  /\ (forall rows p i a expr asym axes,
        Preset.assembly_known p = false ->
        nth_error rows i = Some (a, expr, asym) ->
        Preset.parseOperatorList expr = Normal axes ->
        row_passes axes asym (map id_pair_of (Preset.targets p)) = true ->
        (forall j a' expr' asym',
           (j < i)%nat -> nth_error rows j = Some (a', expr', asym') ->
           exists axes',
             Preset.parseOperatorList expr' = Normal axes'
             /\ row_passes axes' asym' (map id_pair_of (Preset.targets p)) = false) ->
        Preset.determineAssemblyId (Preset.trajectory_of_rows rows) p
        = Normal (Preset.assign_assemblyId p a, []))
  /\ (forall rows p,
        Preset.assembly_known p = false ->
        (forall j a expr asym,
           nth_error rows j = Some (a, expr, asym) ->
           exists axes,
             Preset.parseOperatorList expr = Normal axes
             /\ row_passes axes asym (map id_pair_of (Preset.targets p)) = false) ->
        Preset.determineAssemblyId (Preset.trajectory_of_rows rows) p
        = Normal (Preset.assign_assemblyId p "1", []))
  /\ (forall unset, In unset [None; Some ""; Some "0"] ->
        Preset.parseOperatorList "(1-2)" = Normal [["1"; "2"]]
        /\ row_passes [["1"]] "A,B" (map id_pair_of (Preset.targets (chain_A unset))) = true
        /\ row_passes [["1"; "2"]] "A" (map id_pair_of (Preset.targets (chain_A unset)))
           = true
        /\ Preset.determineAssemblyId (Preset.trajectory_of_rows two_assemblies)
             (chain_A unset)
           = Normal (Preset.assign_assemblyId (chain_A unset) "1", [])).
Proof.
  split; [vm_compute; reflexivity |]. split; [vm_compute; reflexivity |].
  split; [vm_compute; reflexivity |]. split; [vm_compute; reflexivity |].
  split; [| split].
  - intros rows p i a expr asym axes Hp Hrow Hparse Hpass Hbefore.
    apply determineAssemblyId_found; [exact Hp |]. rewrite provided_ids_eq.
    now apply (find_assembly_first_row rows _ i a expr asym axes).
  - intros rows p Hp Hall.
    apply determineAssemblyId_not_found; [exact Hp |]. rewrite provided_ids_eq.
    now apply find_assembly_no_row.
  - intros unset [<- | [<- | [<- | []]]]; repeat split; vm_compute; reflexivity.
Qed.

Lemma first_match_wins_witness :
  Preset.determineAssemblyId
    (Preset.trajectory_of_rows [("7", "(2)", "A"); ("8", "(1)", "B"); ("2", "(1,3)", "A")])
    (chain_A None)
  = Normal (Preset.assign_assemblyId (chain_A None) "2", [])
  /\ Preset.determineAssemblyId
       (Preset.trajectory_of_rows [("7", "(2)", "A"); ("8", "(1)", "B")]) (chain_A None)
     = Normal (Preset.assign_assemblyId (chain_A None) "1", []).
Proof.
  destruct first_match_wins as (_ & _ & _ & _ & Hfirst & Hnone & _). split.
  - apply (Hfirst _ (chain_A None) 2%nat "2" "(1,3)" "A" [["1"; "3"]]);
      try reflexivity.
    intros [|[|j]] a' expr' asym' Hj; [| | lia]; simpl; intros H; injection H as <- <- <-.
    + exists [["2"]]. split; reflexivity.
    + exists [["1"]]. split; reflexivity.
  - apply Hnone; [reflexivity |].
    intros [|[|[|j]]] a expr asym; simpl; intros H; try discriminate H;
      injection H as <- <- <-.
    + exists [["2"]]. split; reflexivity.
    + exists [["1"]]. split; reflexivity.
Defined.

(** ** Motif submission *)

Section SubmitSearch.

Import Strucmotif.

Lemma set_add_In s y x : In x (Js.set_add s y) <-> In x s \/ x = y.
Proof.
  unfold Js.set_add, Js.set_has.
  destruct (existsb (String.eqb y) s) eqn:E.
  - split; [auto |]. intros [H | ->]; [exact H |].
    apply existsb_exists in E. destruct E as [z [Hz Hyz]].
    apply String.eqb_eq in Hyz. now subst.
  - rewrite in_app_iff. simpl. intuition.
Qed.

Lemma set_add_NoDup s y : NoDup s -> NoDup (Js.set_add s y).
Proof.
  intros Hs. unfold Js.set_add, Js.set_has.
  destruct (existsb (String.eqb y) s) eqn:E; [exact Hs |].
  apply NoDup_app; [exact Hs | repeat constructor; simpl; tauto |].
  intros x Hx [Heq | []]. subst x.
  assert (existsb (String.eqb y) s = true) as Ht; [| congruence].
  apply existsb_exists. exists y. split; [exact Hx | apply String.eqb_refl].
Qed.

Lemma fold_set_add_In l : forall s x,
  In x (fold_left Js.set_add l s) <-> In x s \/ In x l.
Proof.
  induction l as [|y l IH]; intros s x; simpl; [tauto |].
  rewrite IH, set_add_In. intuition.
Qed.

Lemma fold_set_add_NoDup l : forall s, NoDup s -> NoDup (fold_left Js.set_add l s).
Proof.
  induction l as [|y l IH]; intros s Hs; simpl; [exact Hs |].
  apply IH. now apply set_add_NoDup.
Qed.

Lemma two_members (l : list string) a b :
  NoDup l -> In a l -> In b l -> a <> b -> (1 < length l)%nat.
Proof.
  intros Hnd Ha Hb Hab. destruct l as [|x [|y l]]; simpl in *; try lia.
  destruct Ha as [<- | []], Hb as [<- | []]. congruence.
Qed.

(** The loop adds one residue per visited entry. *)
Lemma collect_length n : forall i loci pdbId residueIds pdbId' residueIds',
  collect n i loci (pdbId, residueIds) = Normal (pdbId', residueIds') ->
  length residueIds' = (length residueIds + n)%nat.
Proof.
  induction n as [|n IH]; intros i loci pdbId residueIds pdbId' residueIds'; simpl.
  - intros [= <- <-]. lia.
  - destruct (nth_error loci i) as [l|]; simpl; [| discriminate].
    destruct (elements l) as [|e rest]; simpl; [discriminate |].
    intros H. apply IH in H. rewrite length_app in H. simpl in H. lia.
Qed.

(** On entries that all have a first element, the loop ends normally with
    the entry ids of the visited entries in the set. *)
Lemma collect_entries n : forall i loci pdbId residueIds,
  (i + n <= length loci)%nat ->
  (forall k l, (i <= k < i + n)%nat -> nth_error loci k = Some l -> elements l <> []) ->
  exists residueIds',
    collect n i loci (pdbId, residueIds)
    = Normal (fold_left Js.set_add (map entry (firstn n (skipn i loci))) pdbId,
              residueIds').
Proof.
  induction n as [|n IH]; intros i loci pdbId residueIds Hlen Hwf; simpl.
  - eauto.
  - destruct (nth_error loci i) as [l|] eqn:El.
    2:{ apply nth_error_None in El. lia. }
    simpl. destruct (elements l) as [|e rest] eqn:Ee.
    { exfalso. apply (Hwf i l); auto. lia. }
    simpl.
    destruct (IH (S i) loci (Js.set_add pdbId (entry l))
                (residueIds ++ [ {| label_asym_id := first_label_asym_id e;
                                    struct_oper_id := Some "1";
                                    label_seq_id := first_label_seq_id e |} ]))
      as [res' Hres]; [lia | |].
    { intros k l' Hk. apply Hwf. lia. }
    exists res'. rewrite Hres. f_equal. f_equal.
    assert (skipn i loci = l :: skipn (S i) loci) as ->.
    { clear -El. revert loci El. induction i as [|i IHi]; intros [|x loci] El;
        simpl in *; try discriminate.
      - now injection El as ->.
      - now apply IHi. }
    reflexivity.
Qed.

Lemma selected_entries loci :
  (forall k l, (k < MAX_MOTIF_SIZE)%nat -> nth_error loci k = Some l -> elements l <> []) ->
  exists residueIds,
    selected loci
    = Normal (fold_left Js.set_add (map entry (firstn MAX_MOTIF_SIZE loci)) [],
              residueIds).
Proof.
  intros Hwf. unfold selected.
  destruct (collect_entries (Nat.min MAX_MOTIF_SIZE (length loci)) 0 loci [] [])
    as [res Hres]; [lia | |].
  { intros k l Hk. apply Hwf. lia. }
  exists res. etransitivity; [exact Hres |]. simpl skipn.
  now rewrite <- firstn_firstn, firstn_all.
Qed.

Lemma submitSearch_of_selected loci pdbId residueIds :
  selected loci = Normal (pdbId, residueIds) ->
  submitSearch loci
  = if (1 <? Js.set_size pdbId)%nat then
      Normal {| warnings := ["motifs can only be extracted from a single model"];
                opened := None |}
    else if (MAX_MOTIF_SIZE <? length residueIds)%nat then
      Normal {| warnings := ["maximum motif size is 10 residues"]; opened := None |}
    else Normal {| warnings := []; opened := Some (build_query pdbId residueIds) |}.
Proof. unfold submitSearch. now intros ->. Qed.

(** Entries of two sources among the visited ones: the search is given up
    with the warning. *)
Lemma submitSearch_two_entries loci i j li lj :
  (i < MAX_MOTIF_SIZE)%nat -> (j < MAX_MOTIF_SIZE)%nat ->
  nth_error loci i = Some li -> nth_error loci j = Some lj ->
  entry li <> entry lj ->
  (forall k l, (k < MAX_MOTIF_SIZE)%nat -> nth_error loci k = Some l -> elements l <> []) ->
  submitSearch loci
  = Normal {| warnings := ["motifs can only be extracted from a single model"];
              opened := None |}.
Proof.
  intros Hi Hj Eli Elj Hne Hwf.
  destruct (selected_entries loci Hwf) as [res Hsel].
  rewrite (submitSearch_of_selected _ _ _ Hsel).
  set (pdbId := fold_left Js.set_add (map entry (firstn MAX_MOTIF_SIZE loci)) []).
  assert (forall k l, (k < MAX_MOTIF_SIZE)%nat -> nth_error loci k = Some l ->
                      In (entry l) pdbId) as Hin.
  { intros k l Hk El. apply fold_set_add_In. right. apply in_map.
    apply (nth_error_In _ k). rewrite nth_error_firstn.
    destruct (Nat.ltb_spec k MAX_MOTIF_SIZE); [exact El | lia]. }
  assert (1 < Js.set_size pdbId)%nat as Hsize.
  { apply (two_members pdbId (entry li) (entry lj)); eauto.
    apply fold_set_add_NoDup. constructor. }
  apply Nat.ltb_lt in Hsize. rewrite Hsize. reflexivity.
Qed.

(** The test of the motif size after the loop never fires. *)
Lemma selected_at_most_max loci pdbId residueIds :
  selected loci = Normal (pdbId, residueIds) ->
  (length residueIds <= MAX_MOTIF_SIZE)%nat.
Proof.
  unfold selected. intros H. apply collect_length in H.
  pose proof (Nat.le_min_l MAX_MOTIF_SIZE (length loci)).
  change (length (@nil ResidueId)) with 0%nat in H. lia.
Qed.

Lemma submitSearch_never_reports_size loci o :
  submitSearch loci = Normal o ->
  warnings o <> ["maximum motif size is 10 residues"].
Proof.
  destruct (selected loci) as [[pdbId residueIds]|e|] eqn:Es.
  2,3: unfold submitSearch; rewrite Es; discriminate.
  rewrite (submitSearch_of_selected _ _ _ Es).
  apply selected_at_most_max in Es.
  destruct (1 <? Js.set_size pdbId)%nat; [intros [= <-]; discriminate |].
  destruct (Nat.ltb_spec MAX_MOTIF_SIZE (length residueIds)); [lia |].
  intros [= <-]. discriminate.
Qed.

End SubmitSearch.

(** C6. Three selected residues of one source entry, whatever their chains
    (for instance [A], [A] and [B]): the set of entry ids has size 1, and the
    search is submitted with a query over this entry whose [residue_ids] has
    length 3, without a warning.  If the three residues do not all come from
    the same entry, the call warns on the console and submits nothing; the
    same holds for a history of any length when two of the residues that go
    into the motif (the first [MAX_MOTIF_SIZE] of the history) come from
    different entries. *)
Theorem submitSearch_single_entry :
  (forall e a0 n0 r0 a1 n1 r1 a2 n2 r2,
     let el a n := {| Strucmotif.first_label_asym_id := a;
                      Strucmotif.first_label_seq_id := n |} in
     let loci := [ {| Strucmotif.entry := e; Strucmotif.elements := el a0 n0 :: r0 |};
                   {| Strucmotif.entry := e; Strucmotif.elements := el a1 n1 :: r1 |};
                   {| Strucmotif.entry := e; Strucmotif.elements := el a2 n2 :: r2 |} ] in
     exists pdbId query,
       Strucmotif.selected loci = Normal (pdbId, Strucmotif.residue_ids query)
       /\ Js.set_size pdbId = 1%nat
       /\ Strucmotif.submitSearch loci
          = Normal {| Strucmotif.warnings := []; Strucmotif.opened := Some query |}
       /\ Strucmotif.data query = Some e
       /\ length (Strucmotif.residue_ids query) = 3%nat
       /\ map Strucmotif.label_asym_id (Strucmotif.residue_ids query) = [a0; a1; a2])
  /\ (forall l0 l1 l2,
        Strucmotif.elements l0 <> [] -> Strucmotif.elements l1 <> [] ->
        Strucmotif.elements l2 <> [] ->
        ~ (Strucmotif.entry l0 = Strucmotif.entry l1
           /\ Strucmotif.entry l1 = Strucmotif.entry l2) ->
        Strucmotif.submitSearch [l0; l1; l2]
        = Normal {| Strucmotif.warnings := ["motifs can only be extracted from a single model"];
                    Strucmotif.opened := None |})
  /\ (forall loci i j li lj,
        (i < Strucmotif.MAX_MOTIF_SIZE)%nat -> (j < Strucmotif.MAX_MOTIF_SIZE)%nat ->
        nth_error loci i = Some li -> nth_error loci j = Some lj ->
        Strucmotif.entry li <> Strucmotif.entry lj ->
        (forall k l, (k < Strucmotif.MAX_MOTIF_SIZE)%nat -> nth_error loci k = Some l ->
                     Strucmotif.elements l <> []) ->
        Strucmotif.submitSearch loci
        = Normal {| Strucmotif.warnings := ["motifs can only be extracted from a single model"];
                    Strucmotif.opened := None |}).
Proof.
  split.
  - intros e a0 n0 r0 a1 n1 r1 a2 n2 r2 el loci.
    exists [e], (Strucmotif.build_query [e]
      [ {| Strucmotif.label_asym_id := a0; Strucmotif.struct_oper_id := Some "1";
           Strucmotif.label_seq_id := n0 |};
        {| Strucmotif.label_asym_id := a1; Strucmotif.struct_oper_id := Some "1";
           Strucmotif.label_seq_id := n1 |};
        {| Strucmotif.label_asym_id := a2; Strucmotif.struct_oper_id := Some "1";
           Strucmotif.label_seq_id := n2 |} ]).
    assert (Strucmotif.selected loci
            = Normal ([e], [ {| Strucmotif.label_asym_id := a0;
                                Strucmotif.struct_oper_id := Some "1";
                                Strucmotif.label_seq_id := n0 |};
                             {| Strucmotif.label_asym_id := a1;
                                Strucmotif.struct_oper_id := Some "1";
                                Strucmotif.label_seq_id := n1 |};
                             {| Strucmotif.label_asym_id := a2;
                                Strucmotif.struct_oper_id := Some "1";
                                Strucmotif.label_seq_id := n2 |} ])) as Hsel.
    { unfold Strucmotif.selected, loci, el. simpl.
      unfold Js.set_add, Js.set_has. simpl.
      rewrite String.eqb_refl. simpl. rewrite String.eqb_refl. reflexivity. }
    repeat split; try exact Hsel.
    unfold Strucmotif.submitSearch. rewrite Hsel. reflexivity.
  - split; [| exact submitSearch_two_entries].
    intros l0 l1 l2 H0 H1 H2 Hdiff.
    assert (forall k l, (k < Strucmotif.MAX_MOTIF_SIZE)%nat ->
                        nth_error [l0; l1; l2] k = Some l -> Strucmotif.elements l <> [])
      as Hwf.
    { intros [|[|[|k]]] l _ E; simpl in E.
      1-3: injection E as <-; assumption.
      destruct k; discriminate. }
    assert (2 < Strucmotif.MAX_MOTIF_SIZE)%nat as Hmax by (vm_compute; lia).
    destruct (string_dec (Strucmotif.entry l0) (Strucmotif.entry l1)) as [E01 | N01].
    + destruct (string_dec (Strucmotif.entry l1) (Strucmotif.entry l2)) as [E12 | N12];
        [tauto |].
      apply (submitSearch_two_entries _ 1%nat 2%nat l1 l2); auto; lia.
    + apply (submitSearch_two_entries _ 0%nat 1%nat l0 l1); auto; lia.
Qed.

Lemma submitSearch_single_entry_witness :
  Strucmotif.submitSearch [pick "1ABC" "A" 10; pick "2XYZ" "A" 11; pick "1ABC" "B" 7]
  = Normal {| Strucmotif.warnings := ["motifs can only be extracted from a single model"];
              Strucmotif.opened := None |}.
Proof.
  apply (proj1 (proj2 submitSearch_single_entry)); try discriminate.
  intros [E _]. discriminate E.
Defined.

(** C7. A history of eleven residues of one entry: the loop stops after
    [MAX_MOTIF_SIZE] entries, so no warning is written and a query over the
    first ten residues is submitted.  The test of the size after the loop can
    never fire: no call ends with the warning about the motif size. *)
Theorem submitSearch_truncates_oversized :
  length eleven_picks = 11%nat
  /\ (exists query,
        Strucmotif.submitSearch eleven_picks
        = Normal {| Strucmotif.warnings := []; Strucmotif.opened := Some query |}
        /\ Strucmotif.data query = Some "1ABC"
        /\ map Strucmotif.label_seq_id (Strucmotif.residue_ids query) = upto 1 10)
  /\ (forall loci o,
        Strucmotif.submitSearch loci = Normal o ->
        Strucmotif.warnings o <> ["maximum motif size is 10 residues"]).
Proof.
  split; [reflexivity |]. split; [| exact submitSearch_never_reports_size].
  eexists. split; [vm_compute; reflexivity |]. split; reflexivity.
Qed.

(** * Further properties *)

(** ** Decimal numerals *)

Section Numerals.

Lemma digits_prefix_uint d :
  Js.digits_prefix 10 (NilEmpty.string_of_uint d) = uint_digits d.
Proof. induction d; simpl; try rewrite IHd; reflexivity. Qed.

Lemma fold_digits_acc d : forall acc : positive,
  fold_left (fun a k => a * 10 + k) (uint_digits d) (Z.pos acc)
  = Z.pos (Pos.of_uint_acc d acc).
Proof.
  induction d; intros acc; cbn [uint_digits fold_left Pos.of_uint_acc];
    try reflexivity; rewrite <- IHd; f_equal; lia.
Qed.

Lemma fold_digits d :
  fold_left (fun a k => a * 10 + k) (uint_digits d) 0 = Z.of_uint d.
Proof.
  unfold Z.of_uint.
  induction d; cbn [uint_digits fold_left Pos.of_uint Z.of_N];
    try reflexivity; try exact IHd; apply (fold_digits_acc d).
Qed.

Lemma all_chars_uint d : all_chars is_digit (NilEmpty.string_of_uint d) = true.
Proof. induction d; simpl; auto. Qed.

Lemma parse_integer_uint d :
  d <> Decimal.Nil ->
  Js.parse_integer (NilEmpty.string_of_uint d) = Some (Z.of_uint d)
  /\ Js.parse_integer (String "-" (NilEmpty.string_of_uint d)) = Some (- Z.of_uint d).
Proof.
  intros Hd. unfold Js.parse_integer.
  assert (Js.strip_radix_prefix (NilEmpty.string_of_uint d)
          = (10, NilEmpty.string_of_uint d)) as Hr.
  { destruct d as [|d'|d'|d'|d'|d'|d'|d'|d'|d'|d']; try reflexivity.
    destruct d'; reflexivity. }
  assert (uint_digits d <> []) as Hne by (destruct d; simpl; congruence).
  split.
  - replace (Js.strip_sign (Js.trim_start (NilEmpty.string_of_uint d)))
      with (1, NilEmpty.string_of_uint d) by (destruct d; reflexivity).
    cbv beta iota. rewrite Hr, digits_prefix_uint.
    pose proof (fold_digits d) as Hf.
    destruct (uint_digits d) as [|k ds]; [congruence |].
    rewrite Hf. f_equal; lia.
  - change (Js.strip_sign (Js.trim_start (String "-" (NilEmpty.string_of_uint d))))
      with (-1, NilEmpty.string_of_uint d).
    cbv beta iota. rewrite Hr, digits_prefix_uint.
    pose proof (fold_digits d) as Hf.
    destruct (uint_digits d) as [|k ds]; [congruence |].
    rewrite Hf. f_equal; lia.
Qed.

(** The integer read off the decimal numeral of [z] is [z]. *)
Lemma parse_integer_decimal z : Js.parse_integer (Js.decimal z) = Some z.
Proof.
  unfold Js.decimal. rewrite <- (DecimalZ.of_to z) at 2.
  destruct z as [|p|p]; simpl Z.to_int.
  - reflexivity.
  - apply parse_integer_uint. apply DecimalPos.Unsigned.to_uint_nonnil.
  - apply parse_integer_uint. apply DecimalPos.Unsigned.to_uint_nonnil.
Qed.

Lemma decimal_inj a b : Js.decimal a = Js.decimal b -> a = b.
Proof.
  intros H. apply (f_equal Js.parse_integer) in H.
  rewrite !parse_integer_decimal in H. congruence.
Qed.

(** [parseInt] of a decimal numeral is the double of the integer; up to 2^53
    in absolute value, the integer itself. *)
Lemma parseInt_decimal z : Js.parseInt (Js.decimal z) = Js.round_double z.
Proof. unfold Js.parseInt. now rewrite parse_integer_decimal. Qed.

Lemma parseInt_decimal_safe z :
  - (Js.MAX_SAFE_INTEGER + 1) <= z <= Js.MAX_SAFE_INTEGER + 1 ->
  Js.parseInt (Js.decimal z) = Js.Int z.
Proof. intros Hz. rewrite parseInt_decimal. now apply round_double_safe. Qed.

(** Up to 2^53 in absolute value [toString] writes all the digits. *)
Lemma toString_safe z :
  - (Js.MAX_SAFE_INTEGER + 1) <= z <= Js.MAX_SAFE_INTEGER + 1 ->
  Js.toString (Js.Int z) = Js.decimal z.
Proof.
  intros Hz. unfold Js.toString.
  destruct (Z.leb_spec (Z.abs z) (Js.MAX_SAFE_INTEGER + 1)); [reflexivity | lia].
Qed.

(** The numeral of a number that is not negative is a non-empty string of
    digits. *)
Lemma decimal_digits a :
  0 <= a ->
  all_chars is_digit (Js.decimal a) = true /\ Js.decimal a <> "".
Proof.
  intros Ha. unfold Js.decimal. destruct a as [|p|p]; [split; [reflexivity | discriminate] | | lia].
  simpl. split; [apply all_chars_uint |].
  pose proof (DecimalPos.Unsigned.to_uint_nonnil p).
  destruct (Pos.to_uint p); simpl; congruence.
Qed.

(** Any numeral is made of digits after an optional minus sign. *)
Lemma decimal_chars z :
  all_chars (fun c => is_digit c || Ascii.eqb c "-") (Js.decimal z) = true.
Proof.
  assert (forall d, all_chars (fun c => is_digit c || Ascii.eqb c "-")
                      (NilEmpty.string_of_uint d) = true) as Hd
    by (induction d; simpl; auto).
  unfold Js.decimal. destruct z; simpl; auto.
Qed.

End Numerals.

(** ** Strings *)

Section Strings.

Lemma all_chars_impl (P Q : ascii -> bool) s :
  (forall c, P c = true -> Q c = true) ->
  all_chars P s = true -> all_chars Q s = true.
Proof.
  intros HPQ. induction s as [|c s IH]; simpl; [reflexivity |].
  intros H. apply andb_true_iff in H. destruct H as [Hc Hs].
  now rewrite (HPQ c Hc), IH.
Qed.

Lemma all_chars_app P s t :
  all_chars P (s ++ t) = all_chars P s && all_chars P t.
Proof.
  induction s as [|c s IH]; simpl; [reflexivity |].
  now rewrite IH, andb_assoc.
Qed.

Lemma string_app_assoc (s t u : string) : ((s ++ t) ++ u = s ++ (t ++ u))%string.
Proof. induction s as [|c s IH]; simpl; [reflexivity | now rewrite IH]. Qed.

Lemma string_app_empty (s : string) : (s ++ "")%string = s.
Proof. induction s as [|c s IH]; simpl; [reflexivity | now rewrite IH]. Qed.

Lemma string_length_app (s t : string) :
  String.length (s ++ t) = (String.length s + String.length t)%nat.
Proof. induction s as [|c s IH]; simpl; [reflexivity | now rewrite IH]. Qed.

Lemma substr_from_app s t : Js.substr_from (String.length s) (s ++ t) = t.
Proof. induction s as [|c s IH]; simpl; [now destruct t | exact IH]. Qed.

Lemma substring_to_app s t : Js.substring_to (String.length s) (s ++ t) = s.
Proof.
  unfold Js.substring_to. induction s as [|c s IH]; simpl.
  - now destruct t.
  - now rewrite IH.
Qed.

(** A string without the separator is one piece. *)
Lemma split_without c s :
  all_chars (fun a => negb (Ascii.eqb a c)) s = true -> Js.split c s = [s].
Proof.
  induction s as [|a s IH]; simpl; [reflexivity |].
  intros H. apply andb_true_iff in H. destruct H as [Ha Hs].
  apply negb_true_iff in Ha. rewrite Ha, (IH Hs). reflexivity.
Qed.

(** The first occurrence of a character that the prefix does not hold. *)
Lemma index_char_after c s t :
  all_chars (fun a => negb (Ascii.eqb a c)) s = true ->
  String.index 0 (String c "") (s ++ String c t) = Some (String.length s).
Proof.
  induction s as [|a s IH]; intros H.
  - simpl. destruct (ascii_dec c c); [| congruence]. now destruct t.
  - simpl in H. apply andb_true_iff in H. destruct H as [Ha Hs].
    apply negb_true_iff, Ascii.eqb_neq in Ha.
    change (String a s ++ String c t)%string with (String a (s ++ String c t)).
    rewrite index_0_cons. simpl String.prefix.
    destruct (ascii_dec c a); [congruence |].
    rewrite (IH Hs). reflexivity.
Qed.

Lemma index_char_absent c s :
  all_chars (fun a => negb (Ascii.eqb a c)) s = true ->
  String.index 0 (String c "") s = None.
Proof.
  induction s as [|a s IH]; intros H; [reflexivity |].
  simpl in H. apply andb_true_iff in H. destruct H as [Ha Hs].
  apply negb_true_iff, Ascii.eqb_neq in Ha.
  rewrite index_0_cons. simpl String.prefix.
  destruct (ascii_dec c a); [congruence |].
  now rewrite (IH Hs).
Qed.

Lemma trim_start_plain s :
  all_chars (fun a => negb (Js.is_white_space a)) s = true -> Js.trim_start s = s.
Proof.
  destruct s as [|a s]; simpl; [reflexivity |].
  intros H. apply andb_true_iff in H. destruct H as [Ha _].
  apply negb_true_iff in Ha. now rewrite Ha.
Qed.

Lemma trim_end_plain s :
  all_chars (fun a => negb (Js.is_white_space a)) s = true -> Js.trim_end s = s.
Proof.
  induction s as [|a s IH]; simpl; [reflexivity |].
  intros H. apply andb_true_iff in H. destruct H as [Ha Hs].
  apply negb_true_iff in Ha. rewrite (IH Hs), Ha. now destruct s.
Qed.

Lemma is_digit_facts c :
  is_digit c = true ->
  Preset.is_paren c = false /\ Ascii.eqb c "," = false /\ Ascii.eqb c "-" = false
  /\ Ascii.eqb c "x" = false.
Proof.
  unfold is_digit, Preset.is_paren. intros H.
  apply andb_true_iff in H. destruct H as [H1 H2].
  apply Nat.leb_le in H1, H2.
  assert (forall d, (nat_of_ascii d < 48 \/ 57 < nat_of_ascii d)%nat -> Ascii.eqb c d = false)
    as Hne.
  { intros d Hd. apply Ascii.eqb_neq. intros ->. lia. }
  rewrite !Hne by (vm_compute; lia). auto.
Qed.

End Strings.

(** ** Ranges in operator expressions *)

Section Ranges.

Import Preset.

Lemma numeral_no_dash a :
  0 <= a -> all_chars (fun c => negb (Ascii.eqb c "-")) (Js.decimal a) = true.
Proof.
  intros Ha. apply (all_chars_impl is_digit); [| now apply decimal_digits].
  intros c Hc. apply is_digit_facts in Hc. now rewrite (proj1 (proj2 (proj2 Hc))).
Qed.

Lemma range_element_dash a b :
  0 <= a ->
  Js.indexOf (range_element a b) "-" = Z.of_nat (String.length (Js.decimal a))
  /\ 0 < Js.indexOf (range_element a b) "-".
Proof.
  intros Ha. unfold Js.indexOf, range_element.
  rewrite index_char_after by now apply numeral_no_dash.
  split; [reflexivity |].
  destruct (decimal_digits a Ha) as [_ Hne].
  destruct (Js.decimal a); [congruence | simpl; lia].
Qed.

Lemma range_element_bounds a b :
  0 <= a ->
  range_from (range_element a b) (Js.indexOf (range_element a b) "-") = Js.round_double a
  /\ range_to (range_element a b) (Js.indexOf (range_element a b) "-") = Js.round_double b.
Proof.
  intros Ha. destruct (range_element_dash a b Ha) as [-> _].
  unfold range_from, range_to, range_element. split.
  - rewrite Nat2Z.id, substring_to_app. apply parseInt_decimal.
  - replace (Z.to_nat (Z.of_nat (String.length (Js.decimal a)) + 1))
      with (String.length (Js.decimal a ++ "-")) by (rewrite string_length_app; simpl; lia).
    change (String "-" (Js.decimal b)) with ("-" ++ Js.decimal b)%string.
    rewrite <- string_app_assoc, substr_from_app. apply parseInt_decimal.
Qed.

Lemma map_toString_safe l :
  (forall k, In k l -> - (Js.MAX_SAFE_INTEGER + 1) <= k <= Js.MAX_SAFE_INTEGER + 1) ->
  map (fun k => Js.toString (Js.Int k)) l = map Js.decimal l.
Proof.
  intros H. apply map_ext_in. intros k Hk. apply toString_safe. now apply H.
Qed.

Lemma expand_range_element a b group :
  0 <= a <= Js.MAX_SAFE_INTEGER + 1 ->
  - (Js.MAX_SAFE_INTEGER + 1) <= b <= Js.MAX_SAFE_INTEGER ->
  expand_element (range_element a b) group
  = Normal (group ++ map Js.decimal (upto a (Z.to_nat (b + 1 - a)))).
Proof.
  intros Ha Hb. unfold expand_element.
  destruct (range_element_bounds a b (proj1 Ha)) as [-> ->].
  destruct (range_element_dash a b (proj1 Ha)) as [_ Hpos].
  apply Z.ltb_lt in Hpos. rewrite Hpos.
  rewrite !round_double_safe by lia.
  rewrite for_le_bound_runs by lia.
  rewrite (fold_left_push (fun k => Js.toString (Js.Int k))). f_equal. f_equal.
  apply map_toString_safe. intros k Hk. apply upto_In in Hk. lia.
Qed.

End Ranges.

(** X1. A range element [a-b] written with decimal numerals, for integers
    [0 <= a <= 2^53] and [-2^53 <= b <= 2^53 - 1] and a group that stays
    within the length of an array, expands to the numerals of
    [a, a+1, ..., b] in this order, appended to the tokens its group already
    has; it adds nothing when [b < a]. *)
Theorem range_element_expands (a b : Z) (group : list string) :
  0 <= a <= Js.MAX_SAFE_INTEGER + 1 ->
  - (Js.MAX_SAFE_INTEGER + 1) <= b <= Js.MAX_SAFE_INTEGER ->
  Z.of_nat (length group) + (b + 1 - a) <= MAX_ARRAY_LENGTH ->
  Preset.expand_element (range_element a b) group
  = Normal (group ++ map Js.decimal (upto a (Z.to_nat (b + 1 - a)))).
Proof. intros Ha Hb _. now apply expand_range_element. Qed.

Lemma range_element_expands_witness :
  Preset.expand_element "8-11" ["X0"] = Normal ["X0"; "8"; "9"; "10"; "11"].
Proof.
  apply (range_element_expands 8 11 ["X0"]); vm_compute; try split; congruence.
Defined.

(** ** Writing an operator expression and parsing it back *)

Section RoundTrip.

Import Preset.

Lemma non_paren_run_stop g rest :
  all_chars (fun c => negb (is_paren c)) g = true ->
  non_paren_run (g ++ String ")" rest) = g.
Proof.
  induction g as [|c g IH]; simpl; [reflexivity |].
  intros H. apply andb_true_iff in H. destruct H as [Hc Hg].
  apply negb_true_iff in Hc. now rewrite Hc, (IH Hg).
Qed.

Lemma bracket_run_groups gs : bracket_run (render_groups gs) = 0%nat.
Proof. destruct gs; reflexivity. Qed.

(** At the start of a written group the expression matches the whole group. *)
Lemma oeRegex_match_group g rest :
  g <> "" -> all_chars (fun c => negb (is_paren c)) g = true ->
  oeRegex_match_here (String "(" (g ++ String ")" (render_groups rest)))
  = Some (g, (String.length g + 2)%nat).
Proof.
  intros Hne Hg. unfold oeRegex_match_here. simpl optional_char.
  change (if Ascii.eqb "(" "(" then (1%nat, (g ++ String ")" (render_groups rest))%string)
          else (0%nat, String "(" (g ++ String ")" (render_groups rest))))
    with (1%nat, (g ++ String ")" (render_groups rest))%string).
  cbv beta iota. rewrite (non_paren_run_stop g _ Hg).
  destruct g as [|c g']; [congruence |].
  simpl. rewrite substr_from_app. simpl.
  rewrite bracket_run_groups. f_equal. f_equal. lia.
Qed.

Lemma collect_rendered_groups gs : forall pre acc fuel,
  Forall (fun g => g <> "" /\ all_chars (fun c => negb (is_paren c)) g = true) gs ->
  (length gs < fuel)%nat ->
  collect_groups fuel (pre ++ render_groups gs) (String.length pre) acc
  = Normal (acc ++ gs).
Proof.
  induction gs as [|g gs IH]; intros pre acc fuel Hgs Hfuel.
  - destruct fuel as [|fuel]; [simpl in Hfuel; lia |].
    simpl. unfold oeRegex_exec. rewrite substr_from_app. simpl.
    now rewrite app_nil_r.
  - destruct fuel as [|fuel]; [simpl in Hfuel; lia |].
    inversion Hgs as [|g0 gs0 [Hne Hg] Hrest]; subst.
    cbn [collect_groups]. unfold oeRegex_exec. rewrite substr_from_app.
    cbn [render_groups oeRegex_search].
    rewrite (oeRegex_match_group g gs Hne Hg).
    replace (pre ++ String "(" (g ++ String ")" (render_groups gs)))%string
      with ((pre ++ String "(" (g ++ ")")) ++ render_groups gs)%string.
    2:{ rewrite string_app_assoc. f_equal. simpl. f_equal.
        now rewrite string_app_assoc. }
    replace (String.length pre + (String.length g + 2))%nat
      with (String.length (pre ++ String "(" (g ++ ")"))).
    2:{ rewrite string_length_app. simpl. rewrite string_length_app. simpl. lia. }
    rewrite IH; [| exact Hrest | simpl in Hfuel; lia].
    now rewrite <- app_assoc.
Qed.

Lemma render_groups_length gs : (length gs <= String.length (render_groups gs))%nat.
Proof.
  induction gs as [|g gs IH]; simpl; [lia |].
  rewrite string_length_app. simpl. lia.
Qed.

Lemma collect_groups_rendered gs :
  Forall (fun g => g <> "" /\ all_chars (fun c => negb (is_paren c)) g = true) gs ->
  collect_groups (S (String.length (render_groups gs))) (render_groups gs) 0 [] = Normal gs.
Proof.
  intros Hgs.
  apply (collect_rendered_groups gs "" [] _ Hgs).
  pose proof (render_groups_length gs). lia.
Qed.

Lemma forEach_push {A T : Type} (body : A -> list T -> completion (list T)) (f : A -> T) l :
  (forall x, In x l -> forall s, body x s = Normal (s ++ [f x])) ->
  forall s, forEach l body s = Normal (s ++ map f l).
Proof.
  induction l as [|x l IH]; intros Hb s; simpl.
  - now rewrite app_nil_r.
  - rewrite (Hb x) by now left. simpl. rewrite IH by (intros; apply Hb; now right).
    now rewrite <- app_assoc.
Qed.

Lemma plain_token_facts t :
  plain_token t = true ->
  t <> ""
  /\ all_chars (fun c => negb (is_paren c)) t = true
  /\ all_chars (fun c => negb (Ascii.eqb c ",")) t = true
  /\ all_chars (fun c => negb (Ascii.eqb c "-")) t = true
  /\ all_chars (fun c => negb (Js.is_white_space c)) t = true.
Proof.
  unfold plain_token. intros H. apply andb_true_iff in H. destruct H as [Hne Hall].
  apply negb_true_iff, String.eqb_neq in Hne. split; [exact Hne |].
  repeat split; apply (all_chars_impl plain_char); auto; unfold plain_char;
    intros c Hc; repeat (apply andb_true_iff in Hc; destruct Hc as [Hc ?]); assumption.
Qed.

(** A plain token is taken over as it is. *)
Lemma expand_plain_token t group :
  plain_token t = true -> expand_element t group = Normal (group ++ [t]).
Proof.
  intros Ht. destruct (plain_token_facts t Ht) as (_ & _ & _ & Hdash & Hws).
  unfold expand_element, Js.indexOf. rewrite (index_char_absent _ _ Hdash).
  simpl. unfold Js.trim. now rewrite (trim_start_plain _ Hws), (trim_end_plain _ Hws).
Qed.

Lemma split_app_sep c t r :
  all_chars (fun a => negb (Ascii.eqb a c)) t = true ->
  Js.split c (t ++ String c r) = t :: Js.split c r.
Proof.
  induction t as [|a t IH]; intros Ht.
  - simpl. now rewrite Ascii.eqb_refl.
  - simpl in Ht. apply andb_true_iff in Ht. destruct Ht as [Ha Ht].
    apply negb_true_iff in Ha. simpl. now rewrite Ha, (IH Ht).
Qed.

Lemma split_join axis :
  axis <> [] ->
  Forall (fun t => all_chars (fun c => negb (Ascii.eqb c ",")) t = true) axis ->
  Js.split "," (join_commas axis) = axis.
Proof.
  induction axis as [|t axis IH]; intros Hne Hall; [congruence |].
  inversion Hall as [|t0 axis0 Ht Haxis]; subst.
  destruct axis as [|t' axis'].
  - simpl. now apply split_without.
  - change (join_commas (t :: t' :: axis'))
      with (t ++ String "," (join_commas (t' :: axis')))%string.
    rewrite (split_app_sep _ _ _ Ht). f_equal. apply IH; [discriminate | exact Haxis].
Qed.

Lemma join_commas_facts axis :
  plain_axis axis = true ->
  join_commas axis <> ""
  /\ all_chars (fun c => negb (is_paren c)) (join_commas axis) = true.
Proof.
  unfold plain_axis. intros H. apply andb_true_iff in H. destruct H as [Hlen Hall].
  rewrite forallb_forall in Hall.
  induction axis as [|t axis IH]; [discriminate |].
  destruct (plain_token_facts t (Hall t (or_introl eq_refl))) as (Hne & Hpar & _).
  destruct axis as [|t' axis'].
  - simpl. auto.
  - change (join_commas (t :: t' :: axis'))
      with (t ++ String "," (join_commas (t' :: axis')))%string.
    split.
    + destruct t; [congruence | discriminate].
    + rewrite all_chars_app, Hpar. simpl.
      apply IH; [reflexivity |]. intros x Hx. apply Hall. now right.
Qed.

Lemma expand_plain_group axis ret :
  plain_axis axis = true ->
  expand_group (join_commas axis) ret = Normal (ret ++ [axis]).
Proof.
  intros H. unfold expand_group.
  pose proof H as H'. unfold plain_axis in H'.
  apply andb_true_iff in H'. destruct H' as [Hlen Hall].
  rewrite forallb_forall in Hall.
  rewrite split_join.
  - rewrite (forEach_push expand_element (fun t => t)).
    + simpl. now rewrite map_id.
    + intros t Ht s. apply expand_plain_token. now apply Hall.
  - destruct axis; [discriminate | discriminate].
  - apply Forall_forall. intros t Ht. now apply (plain_token_facts t (Hall t Ht)).
Qed.

Lemma parse_rendered axes :
  forallb plain_axis axes = true ->
  parseOperatorList (render_axes axes) = Normal axes.
Proof.
  intros H. rewrite forallb_forall in H.
  unfold parseOperatorList, render_axes.
  rewrite collect_groups_rendered.
  - simpl.
    assert (forall l ret, (forall a, In a l -> plain_axis a = true) ->
              forEach (map join_commas l) expand_group ret = Normal (ret ++ l)) as Hloop.
    { induction l as [|a l IH]; intros ret Hl; simpl; [now rewrite app_nil_r |].
      rewrite expand_plain_group by (apply Hl; now left). simpl.
      rewrite IH by (intros; apply Hl; now right). now rewrite <- app_assoc. }
    apply (Hloop axes [] H).
  - apply Forall_forall. intros g Hg. apply in_map_iff in Hg.
    destruct Hg as [axis [<- Haxis]]. apply join_commas_facts. now apply H.
Qed.

End RoundTrip.

(** X2. Writing and parsing back: an operator expression that lists axes of
    plain operator names (each axis with at least one name, each name
    non-empty and free of parentheses, commas, dashes and white space)
    parses to exactly these axes. *)
Theorem parseOperatorList_round_trip (axes : list (list string)) :
  forallb plain_axis axes = true ->
  Preset.parseOperatorList (render_axes axes) = Normal axes.
Proof. apply parse_rendered. Qed.

Lemma parseOperatorList_round_trip_witness :
  Preset.parseOperatorList "(X0,P)(1,2,3)" = Normal [["X0"; "P"]; ["1"; "2"; "3"]].
Proof.
  apply (parseOperatorList_round_trip [["X0"; "P"]; ["1"; "2"; "3"]]). reflexivity.
Defined.

(** ** The operator test on ranges and on axes of different number *)

Section EqualsMore.

Import Preset.

Lemma numeral_char_facts c :
  is_digit c || Ascii.eqb c "-" = true ->
  is_paren c = false /\ Ascii.eqb c "," = false /\ Ascii.eqb c "x" = false.
Proof.
  intros H. apply orb_true_iff in H. destruct H as [H | H].
  - apply is_digit_facts in H. tauto.
  - apply Ascii.eqb_eq in H. subst c. repeat split.
Qed.

Lemma range_element_chars a b :
  all_chars (fun c => is_digit c || Ascii.eqb c "-") (range_element a b) = true.
Proof.
  unfold range_element.
  change (String "-" (Js.decimal b)) with ("-" ++ Js.decimal b)%string.
  now rewrite !all_chars_app, !decimal_chars.
Qed.

Lemma parse_range a b :
  0 <= a <= Js.MAX_SAFE_INTEGER + 1 ->
  - (Js.MAX_SAFE_INTEGER + 1) <= b <= Js.MAX_SAFE_INTEGER ->
  parseOperatorList (render_groups [range_element a b])
  = Normal [map Js.decimal (upto a (Z.to_nat (b + 1 - a)))].
Proof.
  intros Ha Hb. unfold parseOperatorList.
  pose proof (range_element_chars a b) as Hch.
  rewrite collect_groups_rendered.
  - simpl. unfold expand_group.
    rewrite split_without.
    + simpl. rewrite expand_range_element by assumption. reflexivity.
    + apply (all_chars_impl _ _ _ (fun c Hc => eq_trans
               (f_equal negb (proj1 (proj2 (numeral_char_facts c Hc)))) eq_refl) Hch).
  - constructor; [| constructor]. split.
    + unfold range_element. destruct (Js.decimal a); discriminate.
    + apply (all_chars_impl _ _ _ (fun c Hc => eq_trans
               (f_equal negb (proj1 (numeral_char_facts c Hc))) eq_refl) Hch).
Qed.

Lemma numeral_in_range a n k :
  existsb (String.eqb (Js.decimal k)) (map Js.decimal (upto a n))
  = (a <=? k) && (k <? a + Z.of_nat n).
Proof.
  apply eq_true_iff_eq. rewrite existsb_exists, andb_true_iff, Z.leb_le, Z.ltb_lt.
  split.
  - intros [t [Ht Heq]]. apply String.eqb_eq in Heq. apply in_map_iff in Ht.
    destruct Ht as [i [<- Hi]]. apply decimal_inj in Heq. subst i.
    apply upto_In in Hi. lia.
  - intros [H1 H2]. exists (Js.decimal k). split; [| apply String.eqb_refl].
    apply in_map. apply upto_In. lia.
Qed.

Lemma equals_range a b k :
  0 <= a <= Js.MAX_SAFE_INTEGER + 1 ->
  - (Js.MAX_SAFE_INTEGER + 1) <= b <= Js.MAX_SAFE_INTEGER ->
  equals (render_groups [range_element a b]) (Js.decimal k)
  = Normal ((a <=? k) && (k <=? b)).
Proof.
  intros Ha Hb. rewrite (equals_positional _ _ _ (parse_range a b Ha Hb)).
  rewrite split_without.
  2:{ apply (all_chars_impl _ _ _ (fun c Hc => eq_trans
              (f_equal negb (proj2 (proj2 (numeral_char_facts c Hc)))) eq_refl)
              (decimal_chars k)). }
  simpl. rewrite numeral_in_range, andb_true_r. f_equal.
  destruct (Z.leb_spec a k); simpl; [| reflexivity].
  destruct (Z.ltb_spec k (a + Z.of_nat (Z.to_nat (b + 1 - a)))), (Z.leb_spec k b);
    try reflexivity; lia.
Qed.

Lemma spec_tokens_too_many tokens : forall axes,
  (length axes < length tokens)%nat -> spec_tokens_in_axes axes tokens = false.
Proof.
  induction tokens as [|t tokens IH]; intros axes H; simpl in *; [lia |].
  destruct axes as [|axis axes]; [reflexivity |].
  rewrite IH by (simpl in H; lia). apply andb_false_r.
Qed.

Lemma spec_tokens_more_axes tokens : forall axes more,
  spec_tokens_in_axes axes tokens = true ->
  spec_tokens_in_axes (axes ++ more) tokens = true.
Proof.
  induction tokens as [|t tokens IH]; intros axes more H; simpl in *; [reflexivity |].
  destruct axes as [|axis axes]; [discriminate |].
  apply andb_true_iff in H. destruct H as [H1 H2]. simpl.
  now rewrite H1, IH.
Qed.

End EqualsMore.

(** X3. The operator test on a range within the safe integers: for
    integers [0 <= a <= 2^53] and [-2^53 <= b <= 2^53 - 1], no more of them
    than an array can hold, the operator with the decimal numeral of the
    integer [k] passes the test against the expression ['(a-b)'] exactly
    when [a <= k <= b]. *)
Theorem equals_range_membership (a b k : Z) :
  0 <= a <= Js.MAX_SAFE_INTEGER + 1 ->
  - (Js.MAX_SAFE_INTEGER + 1) <= b <= Js.MAX_SAFE_INTEGER ->
  b + 1 - a <= MAX_ARRAY_LENGTH ->
  Preset.equals (render_groups [range_element a b]) (Js.decimal k)
  = Normal ((a <=? k) && (k <=? b)).
Proof. intros Ha Hb _. now apply equals_range. Qed.

Lemma equals_range_membership_witness :
  Preset.equals "(1-60)" "42" = Normal true
  /\ Preset.equals "(1-60)" "61" = Normal false.
Proof.
  split.
  - apply (equals_range_membership 1 60 42); vm_compute; try split; congruence.
  - apply (equals_range_membership 1 60 61); vm_compute; try split; congruence.
Defined.

(** X4. The operator test compares the components of the request only: a
    request with more ['x']-separated components than the row's expression
    has axes never passes, and a request that passes keeps passing when the
    row's expression has further axes after the ones compared. *)
Theorem equals_counts_requested_components :
  (forall expr val axes,
     Preset.parseOperatorList expr = Normal axes ->
     (length axes < length (Js.split "x" val))%nat ->
     Preset.equals expr val = Normal false)
  /\ (forall expr expr' val axes more,
        Preset.parseOperatorList expr = Normal axes ->
        Preset.parseOperatorList expr' = Normal (axes ++ more) ->
        Preset.equals expr val = Normal true ->
        Preset.equals expr' val = Normal true).
Proof.
  split.
  - intros expr val axes Hp Hlen. rewrite (equals_positional _ _ _ Hp).
    now rewrite spec_tokens_too_many.
  - intros expr expr' val axes more Hp Hp' He.
    rewrite (equals_positional _ _ _ Hp) in He.
    rewrite (equals_positional _ _ _ Hp'). injection He as He.
    now rewrite spec_tokens_more_axes.
Qed.

Lemma equals_counts_requested_components_witness :
  Preset.equals "(1)" "1x2" = Normal false
  /\ Preset.equals "(1)(X0)" "1" = Normal true.
Proof.
  destruct equals_counts_requested_components as [Hmany Hmore]. split.
  - apply (Hmany "(1)" "1x2" [["1"]]); [reflexivity | simpl; lia].
  - apply (Hmore "(1)" "(1)(X0)" "1" [["1"]] [["X0"]]); reflexivity.
Defined.

(** ** Repeated pairs and degenerate requests *)

Section Pairs.

Import Preset.

Variables assembly_id oper_expression asym_id_list : option CifField.

Lemma pair_eqb_eq x y : pair_eqb x y = true -> x = y.
Proof.
  destruct x as [a [b|]], y as [c [d|]]; unfold pair_eqb; simpl; intros H;
    apply andb_true_iff in H; destruct H as [H1 H2]; try discriminate;
    apply String.eqb_eq in H1; subst; try reflexivity.
  apply String.eqb_eq in H2. now subst.
Qed.

Lemma some_mismatch_cons i val ids :
  some_mismatch oper_expression asym_id_list i (val :: ids)
  = (skip <- some_mismatch oper_expression asym_id_list i [val] ;;
     if skip then Normal true else some_mismatch oper_expression asym_id_list i ids).
Proof.
  simpl. destruct (field_str oper_expression i) as [expr|e|]; simpl; try reflexivity.
  destruct (equals expr (fst val)) as [same|e|]; simpl; try reflexivity.
  destruct same; simpl; [| reflexivity].
  destruct (field_str asym_id_list i) as [asym|e|]; simpl; try reflexivity.
  now destruct (_ =? -1).
Qed.

(** A pair that passed the test of a row passes it again. *)
Lemma some_mismatch_first_occurrences i ids : forall seen,
  (forall v, In v seen -> some_mismatch oper_expression asym_id_list i [v] = Normal false) ->
  some_mismatch oper_expression asym_id_list i (first_occurrences seen ids)
  = some_mismatch oper_expression asym_id_list i ids.
Proof.
  induction ids as [|v ids IH]; intros seen Hseen; [reflexivity |].
  cbn [first_occurrences]. destruct (existsb (pair_eqb v) seen) eqn:E.
  - apply existsb_exists in E. destruct E as [w [Hw Hvw]].
    apply pair_eqb_eq in Hvw. subst w.
    rewrite (some_mismatch_cons i v ids), (Hseen v Hw). simpl. now apply IH.
  - rewrite (some_mismatch_cons i v ids), (some_mismatch_cons i v (first_occurrences _ _)).
    destruct (some_mismatch oper_expression asym_id_list i [v]) as [[|]|e|] eqn:Ev;
      simpl; try reflexivity.
    apply IH. intros w [<- | Hw]; [exact Ev | now apply Hseen].
Qed.

Lemma scan_rows_first_occurrences ids n : forall i,
  scan_rows n i assembly_id oper_expression asym_id_list (first_occurrences [] ids)
  = scan_rows n i assembly_id oper_expression asym_id_list ids.
Proof.
  induction n as [|n IH]; intros i; [reflexivity |].
  cbn [scan_rows]. rewrite some_mismatch_first_occurrences by (intros v []).
  destruct (some_mismatch oper_expression asym_id_list i ids) as [[|]|e|]; simpl;
    try reflexivity.
  apply IH.
Qed.

End Pairs.

Lemma find_assembly_first_occurrences traj ids :
  Preset.find_assembly traj (first_occurrences [] ids) = Preset.find_assembly traj ids.
Proof.
  unfold Preset.find_assembly. destruct traj as [[category|]|e]; simpl; try reflexivity.
  destruct (Preset.getField category "assembly_id"); simpl; try reflexivity.
  destruct (Preset.getField category "oper_expression"); simpl; try reflexivity.
  destruct (Preset.getField category "asym_id_list"); simpl; try reflexivity.
  apply scan_rows_first_occurrences.
Qed.

(** X5. Repeated pairs do not change the inference: if the targets [ts'] give
    the pairs of the props [p] with every repetition after the first left
    out, then on [ts'] the call assigns the same assembly id and logs the
    same warnings as on the targets of [p]. *)
Theorem determineAssemblyId_ignores_repeated_pairs traj p ts' :
  map id_pair_of ts' = first_occurrences [] (map id_pair_of (Preset.targets p)) ->
  Preset.determineAssemblyId traj (with_targets p ts')
  = (r <- Preset.determineAssemblyId traj p ;;
     Normal (with_targets (fst r) ts', snd r)).
Proof.
  intros Hts. unfold Preset.determineAssemblyId.
  change (Preset.assembly_known (with_targets p ts')) with (Preset.assembly_known p).
  destruct (Preset.assembly_known p); [reflexivity |].
  change (Preset.targets (with_targets p ts')) with ts'.
  rewrite !provided_ids_eq, Hts, find_assembly_first_occurrences.
  destruct (Preset.find_assembly traj (map id_pair_of (Preset.targets p)))
    as [[a|]|e|]; reflexivity.
Qed.

Lemma determineAssemblyId_ignores_repeated_pairs_witness :
  Preset.determineAssemblyId (Preset.trajectory_of_rows two_assemblies)
    (with_targets (motif [target None (Some "A"); target (Some "1") (Some "A");
                          target (Some "") (Some "A")] None)
       [target (Some "1") (Some "A")])
  = (r <- Preset.determineAssemblyId (Preset.trajectory_of_rows two_assemblies)
            (motif [target None (Some "A"); target (Some "1") (Some "A");
                    target (Some "") (Some "A")] None) ;;
     Normal (with_targets (fst r) [target (Some "1") (Some "A")], snd r)).
Proof.
  apply determineAssemblyId_ignores_repeated_pairs. reflexivity.
Defined.

(** X6. Degenerate requests.  With no targets every row is accepted, so the
    assembly id of row 0 is assigned, whatever the operators and chains of
    the row and even when these two fields are missing.  With no rows the
    assembly id becomes ['1'] without a warning, even when all three fields
    are missing. *)
Theorem determineAssemblyId_without_targets_or_rows :
  (forall category assembly_id oper_expression asym_id_list p a,
     Preset.assembly_known p = false ->
     Preset.targets p = [] ->
     Preset.getField category "assembly_id" = Got assembly_id ->
     Preset.getField category "oper_expression" = Got oper_expression ->
     Preset.getField category "asym_id_list" = Got asym_id_list ->
     (0 < Preset.rowCount category)%nat ->
     Preset.field_str assembly_id 0 = Normal a ->
     Preset.determineAssemblyId (Got (Some category)) p
     = Normal (Preset.assign_assemblyId p a, []))
  /\ (forall category assembly_id oper_expression asym_id_list p,
        Preset.assembly_known p = false ->
        Preset.getField category "assembly_id" = Got assembly_id ->
        Preset.getField category "oper_expression" = Got oper_expression ->
        Preset.getField category "asym_id_list" = Got asym_id_list ->
        Preset.rowCount category = 0%nat ->
        Preset.determineAssemblyId (Got (Some category)) p
        = Normal (Preset.assign_assemblyId p "1", [])).
Proof.
  split.
  - intros category fa fo fl p a Hp Hts Hfa Hfo Hfl Hrows Ha.
    apply determineAssemblyId_found; [exact Hp |].
    apply find_assembly_first. rewrite Hts.
    exists category, fa, fo, fl, 0%nat. repeat split; auto.
    intros j Hj. lia.
  - intros category fa fo fl p Hp Hfa Hfo Hfl Hrows.
    apply determineAssemblyId_not_found; [exact Hp |].
    apply find_assembly_none.
    exists category, fa, fo, fl. repeat split; auto.
    intros j Hj. lia.
Qed.

Lemma determineAssemblyId_without_targets_or_rows_witness :
  Preset.determineAssemblyId (Preset.trajectory_of_rows assembly_AA_B) (motif [] None)
  = Normal (Preset.assign_assemblyId (motif [] None) "7", [])
  /\ Preset.determineAssemblyId
       (Got (Some {| Preset.rowCount := 0; Preset.getField := fun _ => Got None |}))
       (chain_A (Some "0"))
     = Normal (Preset.assign_assemblyId (chain_A (Some "0")) "1", []).
Proof.
  destruct determineAssemblyId_without_targets_or_rows as [Hrow0 Hnone]. split.
  - apply (Hrow0 (Preset.category_of_rows assembly_AA_B)
             (Some (Preset.column assembly_AA_B (fun r => fst (fst r))))
             (oper_column assembly_AA_B) (asym_column assembly_AA_B));
      try reflexivity.
    vm_compute. lia.
  - apply (Hnone _ None None None); reflexivity.
Defined.

(** ** The root structure of a motif preset *)

Section Setup.

Import PresetApply.

Lemma structureParams_assigned m a :
  structureParams (Motif (Preset.assign_assemblyId m a))
  = if String.eqb a "" || String.eqb a "0" then Model else Assembly a.
Proof.
  unfold structureParams. simpl.
  destruct (String.eqb a ""), (String.eqb a "0"); reflexivity.
Qed.

Lemma setup_motif traj m :
  setup traj (Motif m)
  = (d <- Preset.determineAssemblyId traj m ;;
     Normal {| preset := Motif (fst d); model := modelParams (Motif (fst d));
               structure := structureParams (Motif (fst d)); warned := snd d |}).
Proof.
  unfold setup. destruct (Preset.determineAssemblyId traj m) as [[m' w]|e|]; reflexivity.
Qed.

End Setup.

(** X7. The root structure of a motif preset.  When the start of [apply]
    has returned for a motif preset, the structure is set up as an assembly
    whose id is the [assemblyId] the props have after [determineAssemblyId],
    a non-empty string other than ['0'].  The one exception: when the
    assembly id was unset and the first accepted row of the table has the
    assembly id [''] or ['0'], the structure is set up as the plain model.
    The start of [apply] never raises for a motif preset, and it returns
    whenever the operator expressions of the table have their ranges within
    the safe integers. *)
Theorem motif_root_structure :
  (forall traj m s,
     PresetApply.setup traj (PresetApply.Motif m) = Normal s ->
     (exists a, PresetApply.structure s = PresetApply.Assembly a
                /\ PresetApply.assemblyId (PresetApply.preset s) = Some a
                /\ a <> "" /\ a <> "0")
     \/ (PresetApply.structure s = PresetApply.Model
         /\ Preset.assembly_known m = false
         /\ (first_match traj (Preset.provided_ids (Preset.targets m)) ""
             \/ first_match traj (Preset.provided_ids (Preset.targets m)) "0")))
  /\ (forall traj m e, PresetApply.setup traj (PresetApply.Motif m) <> Throw e)
  /\ (forall traj m,
        safe_table traj ->
        exists s, PresetApply.setup traj (PresetApply.Motif m) = Normal s).
Proof.
  split; [| split].
  - intros traj m s. rewrite setup_motif.
    destruct (Preset.determineAssemblyId traj m) as [[m' w]|e|] eqn:Hd; simpl;
      try discriminate.
    intros [= <-]. simpl.
    destruct (determineAssemblyId_result _ _ _ _ Hd)
      as [a [Ha [[Hk [-> [Hne H0]]] | [Hk [-> Horigin]]]]].
    + left. exists a. unfold PresetApply.structureParams. simpl. rewrite Ha.
      apply String.eqb_neq in Hne, H0. simpl. rewrite Hne, H0. simpl.
      apply String.eqb_neq in Hne, H0. auto.
    + rewrite structureParams_assigned.
      destruct (String.eqb_spec a "") as [-> | Hne]; simpl.
      { right. destruct Horigin as [Hf | Hf]; [auto | discriminate]. }
      destruct (String.eqb_spec a "0") as [-> | H0]; simpl.
      { right. destruct Horigin as [Hf | Hf]; [auto | discriminate]. }
      left. exists a. auto.
  - intros traj m e. rewrite setup_motif.
    destruct (Preset.determineAssemblyId traj m) as [[m' w]|e'|] eqn:Hd; simpl;
      try discriminate.
    now destruct (determineAssemblyId_not_thrown traj m e').
  - intros traj m Hsafe. rewrite setup_motif.
    destruct (determineAssemblyId_returns traj m Hsafe) as [p' [w ->]]. simpl. eauto.
Qed.

Lemma motif_root_structure_witness :
  ((exists a,
      PresetApply.Assembly "1" = PresetApply.Assembly a
      /\ Some "1" = Some a /\ a <> "" /\ a <> "0")
   \/ (PresetApply.Assembly "1" = PresetApply.Model
       /\ Preset.assembly_known (chain_A None) = false
       /\ (first_match (Preset.trajectory_of_rows two_assemblies)
             (Preset.provided_ids (Preset.targets (chain_A None))) ""
           \/ first_match (Preset.trajectory_of_rows two_assemblies)
                (Preset.provided_ids (Preset.targets (chain_A None))) "0")))
  /\ (exists s,
        PresetApply.setup (Got (Some {| Preset.rowCount := 0;
                                        Preset.getField := fun _ => Got None |}))
          (PresetApply.Motif (chain_A None))
        = Normal s).
Proof.
  destruct motif_root_structure as (Hres & _ & Hret). split.
  - apply (Hres (Preset.trajectory_of_rows two_assemblies) (chain_A None)
             {| PresetApply.preset :=
                  PresetApply.Motif (Preset.assign_assemblyId (chain_A None) "1");
                PresetApply.model := 0;
                PresetApply.structure := PresetApply.Assembly "1";
                PresetApply.warned := [] |}).
    vm_compute. reflexivity.
  - apply Hret. intros category fo i expr [= <-] _ Hi. simpl in Hi. lia.
Defined.

(** ** More on the motif submission *)

Section SubmitSearchMore.

Import Strucmotif.

Lemma skipn_nth_cons {B : Type} (l : list B) : forall i x,
  nth_error l i = Some x -> skipn i l = x :: skipn (S i) l.
Proof.
  induction l as [|y l IH]; intros [|i] x E; simpl in *; try discriminate.
  - now injection E as ->.
  - now apply IH.
Qed.

(** The loop over entries that all have a first element. *)
Lemma collect_exact n : forall i loci pdbId residueIds,
  (i + n <= length loci)%nat ->
  (forall k l, (i <= k < i + n)%nat -> nth_error loci k = Some l -> elements l <> []) ->
  collect n i loci (pdbId, residueIds)
  = Normal (fold_left Js.set_add (map entry (firstn n (skipn i loci))) pdbId,
            residueIds ++ flat_map residues_of (firstn n (skipn i loci))).
Proof.
  induction n as [|n IH]; intros i loci pdbId residueIds Hlen Hwf.
  - simpl. now rewrite app_nil_r.
  - cbn [collect]. unfold visit.
    destruct (nth_error loci i) as [l|] eqn:El.
    2:{ apply nth_error_None in El. lia. }
    rewrite (skipn_nth_cons _ _ _ El).
    destruct (elements l) as [|e rest] eqn:Ee.
    { exfalso. apply (Hwf i l); auto. lia. }
    simpl bind. rewrite IH; [| lia | intros k l' Hk; apply Hwf; lia].
    cbn [firstn map fold_left flat_map]. unfold residues_of at 2. rewrite Ee.
    now rewrite <- app_assoc.
Qed.

Lemma selected_exact loci :
  (forall l, In l (visited loci) -> elements l <> []) ->
  selected loci
  = Normal (fold_left Js.set_add (map entry (visited loci)) [],
            flat_map residues_of (visited loci)).
Proof.
  intros Hwf. unfold selected, visited in *.
  assert (firstn (Nat.min MAX_MOTIF_SIZE (length loci)) loci = firstn MAX_MOTIF_SIZE loci)
    as Hf by now rewrite <- firstn_firstn, firstn_all.
  etransitivity; [apply collect_exact |].
  - lia.
  - intros k l Hk El. apply Hwf. apply (nth_error_In _ k).
    rewrite nth_error_firstn. destruct (Nat.ltb_spec k MAX_MOTIF_SIZE); [exact El | lia].
  - simpl skipn. now rewrite Hf.
Qed.

Lemma fold_set_add_same e l :
  (forall x, In x l -> x = e) ->
  fold_left Js.set_add l [e] = [e].
Proof.
  induction l as [|x l IH]; intros H; simpl; [reflexivity |].
  rewrite (H x) by now left.
  unfold Js.set_add at 2, Js.set_has. simpl. rewrite String.eqb_refl. simpl.
  apply IH. intros y Hy. apply H. now right.
Qed.

Lemma fold_set_add_one_entry e l :
  (forall x, In x l -> x = e) ->
  fold_left Js.set_add l [] = match l with [] => [] | _ :: _ => [e] end.
Proof.
  destruct l as [|x l]; intros H; [reflexivity |].
  simpl. rewrite (H x) by now left.
  apply fold_set_add_same. intros y Hy. apply H. now right.
Qed.

Lemma flat_map_residues_length ls :
  (forall l, In l ls -> elements l <> []) ->
  length (flat_map residues_of ls) = length ls.
Proof.
  induction ls as [|l ls IH]; intros H; simpl; [reflexivity |].
  rewrite length_app, IH by (intros; apply H; now right).
  unfold residues_of. destruct (elements l) eqn:E; [| reflexivity].
  exfalso. apply (H l); auto. now left.
Qed.

(** The loop reads the history at the positions it visits only. *)
Lemma collect_ext n : forall i l1 l2 st,
  (forall k, (i <= k < i + n)%nat -> nth_error l1 k = nth_error l2 k) ->
  collect n i l1 st = collect n i l2 st.
Proof.
  induction n as [|n IH]; intros i l1 l2 st H; [reflexivity |].
  cbn [collect]. unfold visit. rewrite (H i) by lia.
  destruct st as [pdbId residueIds].
  destruct (nth_error l2 i) as [l|]; [| reflexivity].
  destruct (elements l); [reflexivity |].
  simpl bind. apply IH. intros k Hk. apply H. lia.
Qed.

Lemma selected_visited loci : selected (visited loci) = selected loci.
Proof.
  unfold selected, visited. rewrite length_firstn.
  replace (Nat.min MAX_MOTIF_SIZE (Nat.min MAX_MOTIF_SIZE (length loci)))
    with (Nat.min MAX_MOTIF_SIZE (length loci)) by lia.
  apply collect_ext. intros k Hk. rewrite nth_error_firstn.
  destruct (Nat.ltb_spec k MAX_MOTIF_SIZE); [reflexivity | lia].
Qed.

(** A visited selection without elements stops the loop with a [TypeError]. *)
Lemma collect_throws n : forall i loci st k l,
  (i <= k < i + n)%nat -> (i + n <= length loci)%nat ->
  nth_error loci k = Some l -> elements l = [] ->
  collect n i loci st = Throw type_error.
Proof.
  induction n as [|n IH]; intros i loci [pdbId residueIds] k l Hk Hlen El Ee; [lia |].
  cbn [collect]. unfold visit.
  destruct (nth_error loci i) as [li|] eqn:Eli.
  2:{ apply nth_error_None in Eli. lia. }
  destruct (elements li) as [|e rest] eqn:Eei; [reflexivity |].
  simpl bind. destruct (Nat.eq_dec i k) as [-> | Hne]; [congruence |].
  apply (IH (S i) loci _ k l); auto; lia.
Qed.

End SubmitSearchMore.

(** X8. What is submitted: when every selection that goes into the motif (the
    first [MAX_MOTIF_SIZE] of the history) has a first element and comes
    from the entry [e], the search is submitted without a warning, for the
    entry of the first selection, with one residue id per such selection, in
    history order, each with operator ['1']; their number is the length of
    the history, capped at [MAX_MOTIF_SIZE]. *)
Theorem submitSearch_query (loci : list Strucmotif.HistoryEntry) (e : string) :
  (forall l, In l (visited loci) ->
             Strucmotif.elements l <> [] /\ Strucmotif.entry l = e) ->
  Strucmotif.submitSearch loci
  = Normal {| Strucmotif.warnings := [];
              Strucmotif.opened :=
                Some {| Strucmotif.data := option_map Strucmotif.entry (hd_error loci);
                        Strucmotif.residue_ids := flat_map residues_of (visited loci);
                        Strucmotif.score_cutoff := 5;
                        Strucmotif.exchanges := [];
                        Strucmotif.return_type := "assembly" |} |}
  /\ length (flat_map residues_of (visited loci))
     = Nat.min Strucmotif.MAX_MOTIF_SIZE (length loci).
Proof.
  intros H.
  assert (forall l, In l (visited loci) -> Strucmotif.elements l <> []) as Hwf
    by (intros l Hl; apply (H l Hl)).
  split.
  - rewrite (submitSearch_of_selected _ _ _ (selected_exact loci Hwf)).
    rewrite (fold_set_add_one_entry e).
    2:{ intros x Hx. apply in_map_iff in Hx. destruct Hx as [l [<- Hl]]. apply (H l Hl). }
    assert (length (flat_map residues_of (visited loci)) <= Strucmotif.MAX_MOTIF_SIZE)%nat
      as Hle.
    { rewrite flat_map_residues_length by exact Hwf. unfold visited.
      rewrite length_firstn. lia. }
    apply Nat.ltb_ge in Hle. rewrite Hle.
    destruct loci as [|l0 loci']; [reflexivity |].
    simpl. unfold Strucmotif.build_query. simpl.
    rewrite (proj2 (H l0 (or_introl eq_refl))). reflexivity.
  - rewrite flat_map_residues_length by exact Hwf. unfold visited.
    now rewrite length_firstn.
Qed.

Lemma submitSearch_query_witness :
  Strucmotif.submitSearch [pick "1ABC" "A" 10; pick "1ABC" "A" 11; pick "1ABC" "B" 7]
  = Normal {| Strucmotif.warnings := [];
              Strucmotif.opened :=
                Some {| Strucmotif.data := Some "1ABC";
                        Strucmotif.residue_ids :=
                          flat_map residues_of
                            [pick "1ABC" "A" 10; pick "1ABC" "A" 11; pick "1ABC" "B" 7];
                        Strucmotif.score_cutoff := 5;
                        Strucmotif.exchanges := [];
                        Strucmotif.return_type := "assembly" |} |}.
Proof.
  apply (submitSearch_query
           [pick "1ABC" "A" 10; pick "1ABC" "A" 11; pick "1ABC" "B" 7] "1ABC").
  intros l [<- | [<- | [<- | []]]]; split; try reflexivity; discriminate.
Defined.

(** X9. Selections after the first [MAX_MOTIF_SIZE] of the history have no
    influence at all: the call does on the whole history what it does on
    its first [MAX_MOTIF_SIZE] entries, be it a query, a warning or an
    exception. *)
Theorem submitSearch_reads_first_entries_only (loci : list Strucmotif.HistoryEntry) :
  Strucmotif.submitSearch loci = Strucmotif.submitSearch (visited loci).
Proof.
  unfold Strucmotif.submitSearch. now rewrite selected_visited.
Qed.

(** X10. A selection without elements among those that go into the motif
    makes the call throw a [TypeError]: nothing is caught, no warning is
    written and no query is submitted, whatever the other selections are. *)
Theorem submitSearch_throws_on_empty_loci loci k l :
  (k < Strucmotif.MAX_MOTIF_SIZE)%nat ->
  nth_error loci k = Some l ->
  Strucmotif.elements l = [] ->
  Strucmotif.submitSearch loci = Throw Strucmotif.type_error.
Proof.
  intros Hk El Ee. unfold Strucmotif.submitSearch, Strucmotif.selected.
  assert (k < length loci)%nat by (apply nth_error_Some; congruence).
  rewrite (collect_throws _ 0 loci _ k l); auto; lia.
Qed.

Lemma submitSearch_throws_on_empty_loci_witness :
  Strucmotif.submitSearch
    [pick "1ABC" "A" 10; {| Strucmotif.entry := "2XYZ"; Strucmotif.elements := [] |}]
  = Throw Strucmotif.type_error.
Proof.
  apply (submitSearch_throws_on_empty_loci _ 1%nat
           {| Strucmotif.entry := "2XYZ"; Strucmotif.elements := [] |});
    [vm_compute; lia | reflexivity | reflexivity].
Defined.

(** ** Structures by model id *)

Section ByModelId.

Import ViewerApi.

Lemma getStructureRef_skips pre modelId : forall rest,
  (forall x, In x pre -> of_model modelId x = false /\ no_units x = false) ->
  getStructureRefWithModelId (pre ++ rest) modelId
  = getStructureRefWithModelId rest modelId.
Proof.
  induction pre as [|x pre IH]; intros rest H; [reflexivity |].
  simpl. destruct (H x (or_introl eq_refl)) as [Hm Hn].
  unfold of_model in Hm. unfold no_units in Hn.
  destruct (units x) as [[|u us]|]; try discriminate.
  - rewrite Hm. apply IH. intros y Hy. apply H. now right.
  - apply IH. intros y Hy. apply H. now right.
Qed.

Lemma getStructureRef_found structures modelId : forall s,
  getStructureRefWithModelId structures modelId = Normal (Some s) ->
  exists pre post,
    structures = pre ++ s :: post
    /\ (forall x, In x pre -> of_model modelId x = false /\ no_units x = false)
    /\ of_model modelId s = true.
Proof.
  induction structures as [|x structures IH]; intros s; simpl; [discriminate |].
  assert (forall pre,
            of_model modelId x = false /\ no_units x = false ->
            (forall y, In y pre -> of_model modelId y = false /\ no_units y = false) ->
            forall y, In y (x :: pre) -> of_model modelId y = false /\ no_units y = false)
    as Hcons.
  { intros pre Hx Hpre y [<- | Hy]; [exact Hx | now apply Hpre]. }
  destruct (units x) as [[|u us]|] eqn:Eu; try discriminate.
  - destruct (String.eqb (model_id u) modelId) eqn:Em.
    + intros [= <-]. exists [], structures. split; [reflexivity |].
      split; [intros y [] |]. unfold of_model. now rewrite Eu.
    + intros H. destruct (IH s H) as [pre [post [-> [Hpre Hs]]]].
      exists (x :: pre), post. split; [reflexivity |]. split; [| exact Hs].
      apply Hcons; [| exact Hpre]. unfold of_model, no_units. rewrite Eu. auto.
  - intros H. destruct (IH s H) as [pre [post [-> [Hpre Hs]]]].
    exists (x :: pre), post. split; [reflexivity |]. split; [| exact Hs].
    apply Hcons; [| exact Hpre]. unfold of_model, no_units. rewrite Eu. auto.
Qed.

Lemma getStructureRef_first pre s post modelId :
  (forall x, In x pre -> of_model modelId x = false /\ no_units x = false) ->
  of_model modelId s = true ->
  getStructureRefWithModelId (pre ++ s :: post) modelId = Normal (Some s).
Proof.
  intros Hpre Hs. rewrite getStructureRef_skips by exact Hpre.
  simpl. unfold of_model in Hs.
  destruct (units s) as [[|u us]|]; try discriminate. now rewrite Hs.
Qed.

End ByModelId.

(** X11. Looking a structure up by model id gives the first structure, in
    the order of the hierarchy, whose first unit belongs to the model;
    structures without data are skipped.  It gives [undefined] when there is
    no such structure, and it throws a [TypeError] when a structure with an
    empty list of units comes before the first match. *)
Theorem getStructureRefWithModelId_first_match :
  (forall pre s post modelId,
     (forall x, In x pre -> of_model modelId x = false /\ no_units x = false) ->
     of_model modelId s = true ->
     ViewerApi.getStructureRefWithModelId (pre ++ s :: post) modelId = Normal (Some s))
  /\ (forall structures modelId s,
        ViewerApi.getStructureRefWithModelId structures modelId = Normal (Some s) ->
        exists pre post,
          structures = pre ++ s :: post
          /\ (forall x, In x pre -> of_model modelId x = false /\ no_units x = false)
          /\ of_model modelId s = true)
  /\ (forall structures modelId,
        (forall x, In x structures -> of_model modelId x = false /\ no_units x = false) ->
        ViewerApi.getStructureRefWithModelId structures modelId = Normal None)
  /\ (forall pre s post modelId,
        (forall x, In x pre -> of_model modelId x = false /\ no_units x = false) ->
        no_units s = true ->
        ViewerApi.getStructureRefWithModelId (pre ++ s :: post) modelId
        = Throw ViewerApi.type_error).
Proof.
  split; [exact getStructureRef_first |].
  split; [exact getStructureRef_found |]. split.
  - intros structures modelId H.
    rewrite <- (app_nil_r structures). now rewrite getStructureRef_skips.
  - intros pre s post modelId Hpre Hs. rewrite getStructureRef_skips by exact Hpre.
    simpl. unfold no_units in Hs. destruct (ViewerApi.units s) as [[|u us]|];
      try discriminate. reflexivity.
Qed.

Lemma getStructureRefWithModelId_first_match_witness :
  ViewerApi.getStructureRefWithModelId
    ([ {| ViewerApi.ref := "r0"; ViewerApi.units := None |};
       {| ViewerApi.ref := "r1";
          ViewerApi.units := Some [ {| ViewerApi.model_id := "m1" |} ] |} ]
     ++ {| ViewerApi.ref := "r2";
           ViewerApi.units := Some [ {| ViewerApi.model_id := "m2" |} ] |}
        :: [ {| ViewerApi.ref := "r3";
                ViewerApi.units := Some [ {| ViewerApi.model_id := "m2" |} ] |} ])
    "m2"
  = Normal (Some {| ViewerApi.ref := "r2";
                    ViewerApi.units := Some [ {| ViewerApi.model_id := "m2" |} ] |}).
Proof.
  apply (proj1 getStructureRefWithModelId_first_match); [| reflexivity].
  intros x [<- | [<- | []]]; split; reflexivity.
Defined.

(** X12. A range selection within the safe integers reaches the host as
    one call on the first structure of the model, with the chain and exactly
    the residues [begin, ..., end] (none when [end < begin]): a highlight in
    hover mode and a selection with the given modifier otherwise.  For a
    model id that no structure has, nothing is called, whatever the bounds
    are. *)
Theorem selectSegment_calls :
  (forall pre s post modelId asymId b e mode modifier,
     (forall x, In x pre -> of_model modelId x = false /\ no_units x = false) ->
     of_model modelId s = true ->
     (b <= e ->
      - (Js.MAX_SAFE_INTEGER + 1) <= b /\ e <= Js.MAX_SAFE_INTEGER
      /\ e - b + 1 <= MAX_ARRAY_LENGTH) ->
     ViewerApi.selectSegment (pre ++ s :: post) modelId asymId (Js.Int b) (Js.Int e)
       mode modifier
     = Normal [segment_call mode modifier
                 {| ViewerApi.data := ViewerApi.ref s;
                    ViewerApi.query :=
                      {| Viewer.chain_test := asymId;
                         Viewer.residue_test :=
                           numbers (upto b (Z.to_nat (e + 1 - b))) |} |}])
  /\ (forall structures modelId asymId b e mode modifier,
        (forall x, In x structures -> of_model modelId x = false /\ no_units x = false) ->
        ViewerApi.selectSegment structures modelId asymId b e mode modifier = Normal []).
Proof.
  split.
  - intros pre s post modelId asymId b e mode modifier Hpre Hs Hsafe.
    unfold ViewerApi.selectSegment, ViewerApi.getLociFromRange,
      ViewerApi.getStructureWithModelId.
    rewrite (getStructureRef_first _ _ _ _ Hpre Hs). simpl.
    unfold Viewer.getLociFromRange. rewrite range_seq_id_eq by (intros H; destruct (Hsafe H) as (? & ? & ?); auto).
    simpl. rewrite (set_to_array_fresh _ []) by apply upto_NoDup. simpl.
    destruct mode as [[|]|]; reflexivity.
  - intros structures modelId asymId b e mode modifier H.
    unfold ViewerApi.selectSegment, ViewerApi.getLociFromRange,
      ViewerApi.getStructureWithModelId.
    rewrite <- (app_nil_r structures). now rewrite getStructureRef_skips.
Qed.

Lemma selectSegment_calls_witness :
  ViewerApi.selectSegment
    ([ {| ViewerApi.ref := "r0"; ViewerApi.units := None |} ]
     ++ {| ViewerApi.ref := "r1";
           ViewerApi.units := Some [ {| ViewerApi.model_id := "m1" |} ] |} :: [])
    "m1" "A" (Js.Int 10) (Js.Int 12) (Some ViewerApi.Hover) ViewerApi.Set_
  = Normal [ViewerApi.Highlight
              {| ViewerApi.data := "r1";
                 ViewerApi.query :=
                   {| Viewer.chain_test := "A";
                      Viewer.residue_test := [Js.Int 10; Js.Int 11; Js.Int 12] |} |}].
Proof.
  apply (proj1 selectSegment_calls
           [ {| ViewerApi.ref := "r0"; ViewerApi.units := None |} ]
           {| ViewerApi.ref := "r1";
              ViewerApi.units := Some [ {| ViewerApi.model_id := "m1" |} ] |} []
           "m1" "A" 10 12 (Some ViewerApi.Hover) ViewerApi.Set_).
  - intros x [<- | []]; split; reflexivity.
  - reflexivity.
  - intros _. vm_compute. repeat split; congruence.
Defined.

(** ** Loading by PDB id *)

Section Loading.

Import ViewerApi.

Variable load : LoadSource -> accessed unit.
Variable pdbId : string.

Lemma loadPdbId_failed provider rest e :
  attempt load provider pdbId = Throw e ->
  loadPdbId load (provider :: rest) pdbId
  = (r <- loadPdbId load rest pdbId ;;
     Normal (fst r, load_warning pdbId e :: snd r)).
Proof. intros H. simpl. rewrite H. reflexivity. Qed.

Lemma loadPdbId_loaded provider rest p :
  attempt load provider pdbId = Normal p ->
  loadPdbId load (provider :: rest) pdbId = Normal (Some p, []).
Proof. intros H. simpl. rewrite H. reflexivity. Qed.

Lemma attempt_ends provider :
  (exists p, attempt load provider pdbId = Normal p)
  \/ (exists e, attempt load provider pdbId = Throw e).
Proof.
  unfold attempt. destruct (provider pdbId) as [p|e]; simpl; [| eauto].
  destruct (load p); simpl; eauto.
Qed.

Lemma loadPdbId_first pre : forall errors provider rest p,
  Forall2 (fun q e => attempt load q pdbId = Throw e) pre errors ->
  attempt load provider pdbId = Normal p ->
  loadPdbId load (pre ++ provider :: rest) pdbId
  = Normal (Some p, map (load_warning pdbId) errors).
Proof.
  induction pre as [|q pre IH]; intros errors provider rest p Hpre Hp.
  - inversion Hpre; subst. now apply loadPdbId_loaded.
  - inversion Hpre as [|q0 e pre0 errors' Hq Hrest]; subst.
    change ((q :: pre) ++ provider :: rest) with (q :: (pre ++ provider :: rest)).
    rewrite (loadPdbId_failed _ _ e Hq), (IH errors' provider rest p Hrest Hp).
    reflexivity.
Qed.

Lemma loadPdbId_none providers : forall errors,
  Forall2 (fun q e => attempt load q pdbId = Throw e) providers errors ->
  loadPdbId load providers pdbId = Normal (None, map (load_warning pdbId) errors).
Proof.
  induction providers as [|q providers IH]; intros errors H.
  - inversion H; subst. reflexivity.
  - inversion H as [|q0 e pre0 errors' Hq Hrest]; subst.
    rewrite (loadPdbId_failed _ _ e Hq), (IH errors' Hrest). reflexivity.
Qed.

Lemma loadPdbId_ends providers :
  exists r, loadPdbId load providers pdbId = Normal r.
Proof.
  induction providers as [|q providers [r IH]]; [simpl; eauto |].
  destruct (attempt_ends q) as [[p Hp] | [e He]].
  - rewrite (loadPdbId_loaded _ _ p Hp). eauto.
  - rewrite (loadPdbId_failed _ _ e He), IH. simpl. eauto.
Qed.

End Loading.

(** X13. Loading by PDB id tries the providers in order and stops at the
    first whose source loads: this source is the one loaded, and there is
    one warning per provider that failed before it (because the provider
    threw or the loader rejected), in order.  When every provider fails,
    nothing is loaded, every failure is a warning, and still no exception
    leaves the call. *)
Theorem loadPdbId_first_provider_that_loads :
  (forall load pdbId pre errors provider rest p,
     Forall2 (fun q e => ViewerApi.attempt load q pdbId = Throw e) pre errors ->
     ViewerApi.attempt load provider pdbId = Normal p ->
     ViewerApi.loadPdbId load (pre ++ provider :: rest) pdbId
     = Normal (Some p, map (ViewerApi.load_warning pdbId) errors))
  /\ (forall load pdbId providers errors,
        Forall2 (fun q e => ViewerApi.attempt load q pdbId = Throw e) providers errors ->
        ViewerApi.loadPdbId load providers pdbId
        = Normal (None, map (ViewerApi.load_warning pdbId) errors))
  /\ (forall load pdbId providers,
        exists r, ViewerApi.loadPdbId load providers pdbId = Normal r).
Proof.
  split; [| split].
  - intros load pdbId pre errors provider rest p. apply loadPdbId_first.
  - intros load pdbId providers errors. apply loadPdbId_none.
  - intros load pdbId providers. apply loadPdbId_ends.
Qed.

Lemma loadPdbId_first_provider_that_loads_witness :
  ViewerApi.loadPdbId (only_url "//files.rcsb.org/download/1abc.cif")
    ViewerApi.default_providers "1ABC"
  = Normal (Some {| ViewerApi.url := "//files.rcsb.org/download/1abc.cif";
                    ViewerApi.format := "mmcif"; ViewerApi.isBinary := false |},
            [ViewerApi.load_warning "1ABC" "404"]).
Proof.
  apply (proj1 loadPdbId_first_provider_that_loads
           (only_url "//files.rcsb.org/download/1abc.cif") "1ABC"
           [nth 0 ViewerApi.default_providers (fun _ => Raised "")] ["404"]
           (nth 1 ViewerApi.default_providers (fun _ => Raised "")) []).
  - constructor; [reflexivity | constructor].
  - reflexivity.
Defined.

(** ** The decorated root of a structure *)

Section Decorator.

Import ExportHelper.

Variable tree : Tree.

Lemma getDecorator_S fuel root :
  getDecorator (S fuel) tree root
  = match children tree root with
    | [child] =>
        if isDecorator tree child then getDecorator fuel tree child else Normal root
    | _ => Normal root
    end.
Proof. reflexivity. Qed.

(** What a result of the walk is: reached through decorators, and with no
    single decorator child of its own. *)
Lemma getDecorator_result fuel : forall root d,
  getDecorator fuel tree root = Normal d ->
  decorates tree root d
  /\ (forall c, children tree d = [c] -> isDecorator tree c = false).
Proof.
  induction fuel as [|fuel IH]; intros root d; [discriminate |].
  rewrite getDecorator_S.
  destruct (children tree root) as [|c [|c' cs]] eqn:Ec.
  - intros [= <-]. split; [constructor |]. intros c Hc. congruence.
  - destruct (isDecorator tree c) eqn:Ed.
    + intros H. destruct (IH c d H) as [Hdec Hstop]. split; [| exact Hstop].
      now apply (decorates_child tree root c d).
    + intros [= <-]. split; [constructor |]. intros c0 Hc. congruence.
  - intros [= <-]. split; [constructor |]. intros c0 Hc. congruence.
Qed.

(** A node with no single decorator child is its own decorated root. *)
Lemma getDecorator_stable fuel d :
  (forall c, children tree d = [c] -> isDecorator tree c = false) ->
  getDecorator (S fuel) tree d = Normal d.
Proof.
  intros Hstop. rewrite getDecorator_S.
  destruct (children tree d) as [|c [|c' cs]] eqn:Ec; try reflexivity.
  now rewrite (Hstop c eq_refl).
Qed.

(** With a measure that goes down along single decorator children, the walk
    ends within the measure of its start. *)
Lemma getDecorator_ends (depth : string -> nat) :
  (forall r c, children tree r = [c] -> isDecorator tree c = true ->
               (depth c < depth r)%nat) ->
  forall fuel root, (depth root < fuel)%nat ->
    exists d, getDecorator fuel tree root = Normal d.
Proof.
  intros Hdepth. induction fuel as [|fuel IH]; intros root Hfuel; [lia |].
  rewrite getDecorator_S.
  destruct (children tree root) as [|c [|c' cs]] eqn:Ec; eauto.
  destruct (isDecorator tree c) eqn:Ed; eauto.
  apply IH. specialize (Hdepth root c Ec Ed). lia.
Qed.

End Decorator.

(** X14. The decorated root.  In a tree where some measure goes down along
    single children that are decorators (no cycle of decorators), the walk
    from [root] ends; its result is reached from [root] by going down single
    decorator children, it has no single decorator child itself, and the
    walk from the result gives the result again. *)
Theorem getDecorator_finds_last_decorator (tree : ExportHelper.Tree)
    (depth : string -> nat) (root : string) :
  (forall r c, ExportHelper.children tree r = [c] ->
               ExportHelper.isDecorator tree c = true -> (depth c < depth r)%nat) ->
  exists d,
    ExportHelper.getDecorator (S (depth root)) tree root = Normal d
    /\ decorates tree root d
    /\ (forall c, ExportHelper.children tree d = [c] ->
                  ExportHelper.isDecorator tree c = false)
    /\ (forall fuel, ExportHelper.getDecorator (S fuel) tree d = Normal d).
Proof.
  intros Hdepth.
  destruct (getDecorator_ends tree depth Hdepth (S (depth root)) root) as [d Hd]; [lia |].
  destruct (getDecorator_result tree _ _ _ Hd) as [Hdec Hstop].
  exists d. repeat split; auto.
  intros fuel. now apply getDecorator_stable.
Qed.

Lemma getDecorator_finds_last_decorator_witness :
  exists d,
    ExportHelper.getDecorator 3
      {| ExportHelper.children := fun r =>
           if String.eqb r "structure" then ["props"]
           else if String.eqb r "props" then ["custom"]
           else if String.eqb r "custom" then ["polymer"; "ligand"]
           else [];
         ExportHelper.isDecorator := fun r =>
           String.eqb r "props" || String.eqb r "custom" |}
      "structure" = Normal d
    /\ d = "custom".
Proof.
  destruct (getDecorator_finds_last_decorator
              {| ExportHelper.children := fun r =>
                   if String.eqb r "structure" then ["props"]
                   else if String.eqb r "props" then ["custom"]
                   else if String.eqb r "custom" then ["polymer"; "ligand"]
                   else [];
                 ExportHelper.isDecorator := fun r =>
                   String.eqb r "props" || String.eqb r "custom" |}
              (fun r => if String.eqb r "structure" then 2%nat
                        else if String.eqb r "props" then 1%nat else 0%nat)
              "structure") as [d [Hd _]].
  - intros r c. simpl.
    destruct (String.eqb r "structure") eqn:E1.
    { intros [= <-] _. simpl. lia. }
    destruct (String.eqb r "props") eqn:E2.
    { intros [= <-] _. simpl. lia. }
    destruct (String.eqb r "custom"); discriminate.
  - exists d. split; [exact Hd |]. vm_compute in Hd. congruence.
Defined.

(** ** The names in the archive *)

Section Archive.

Import ExportHelper.

(** The number in the name of a cell, for as many cells as an array holds. *)
Lemma structure_name_decimal i entryId :
  Z.of_nat i < MAX_ARRAY_LENGTH ->
  structure_name i entryId = (Js.decimal (Z.of_nat i + 1) ++ "-" ++ entryId)%string.
Proof.
  intros Hi. unfold structure_name.
  assert (Z.of_nat i + 1 <= Js.MAX_SAFE_INTEGER + 1) as Hle.
  { unfold MAX_ARRAY_LENGTH in Hi. unfold Js.MAX_SAFE_INTEGER. lia. }
  assert (- (Js.MAX_SAFE_INTEGER + 1) <= Z.of_nat i + 1) as Hge.
  { unfold Js.MAX_SAFE_INTEGER. lia. }
  rewrite round_double_safe by (split; assumption).
  rewrite toString_safe by (split; assumption). reflexivity.
Qed.

Lemma decimal_name_index n entryId :
  0 <= n ->
  String.index 0 "-" (Js.decimal n ++ "-" ++ entryId)
  = Some (String.length (Js.decimal n)).
Proof. intros Hn. apply index_char_after. now apply numeral_no_dash. Qed.

(** The number in front tells the names of two cells apart. *)
Lemma structure_name_inj i j e e' :
  Z.of_nat i < MAX_ARRAY_LENGTH -> Z.of_nat j < MAX_ARRAY_LENGTH ->
  structure_name i e = structure_name j e' -> i = j.
Proof.
  intros Hi Hj. rewrite !structure_name_decimal by assumption. intros H.
  pose proof (decimal_name_index (Z.of_nat i + 1) e ltac:(lia)) as Di.
  pose proof (decimal_name_index (Z.of_nat j + 1) e' ltac:(lia)) as Dj.
  rewrite H, Dj in Di. injection Di as Hlen.
  apply (f_equal (Js.substring_to (String.length (Js.decimal (Z.of_nat i + 1))))) in H.
  rewrite substring_to_app in H.
  rewrite <- Hlen, substring_to_app in H. apply decimal_inj in H. lia.
Qed.

Lemma obj_set_fresh {V : Type} (content : Obj V) key (value : V) :
  (forall k v, In (k, v) content -> k <> key) ->
  obj_set content key value = content ++ [(key, value)].
Proof.
  induction content as [|[k v] content IH]; intros H; simpl; [reflexivity |].
  destruct (String.eqb_spec k key) as [E | E].
  - exfalso. apply (H k v); [now left | exact E].
  - rewrite IH; [reflexivity |]. intros k' v' Hk. apply (H k' v'). now right.
Qed.

Lemma named_from_keys {T : Type} (cells : list (string * T)) : forall i k v,
  In (k, v) (named_from i cells) ->
  exists j e, (i <= j < i + length cells)%nat /\ k = structure_name j e.
Proof.
  induction cells as [|[e s] cells IH]; intros i k v; simpl; [intros [] |].
  intros [[= <- <-] | H].
  - exists i, e. split; [lia | reflexivity].
  - destruct (IH (S i) k v H) as [j [e' [Hj ->]]]. exists j, e'. split; [lia | reflexivity].
Qed.

Lemma extract_from_named {T : Type} (structures : list (string * T)) : forall i content,
  Z.of_nat (i + length structures) <= MAX_ARRAY_LENGTH ->
  (forall k v, In (k, v) content -> exists j e, (j < i)%nat /\ k = structure_name j e) ->
  extract_from i (cells_of structures) content
  = Normal (content ++ named_from i structures).
Proof.
  induction structures as [|[e s] structures IH]; intros i content Hlen H; simpl.
  - now rewrite app_nil_r.
  - simpl in Hlen. rewrite obj_set_fresh.
    + unfold cells_of in IH. rewrite IH; [now rewrite <- app_assoc | lia |].
      intros k v Hk. apply in_app_or in Hk. destruct Hk as [Hk | [[= <- <-] | []]].
      * destruct (H k v Hk) as [j [e' [Hj ->]]]. exists j, e'. split; [lia | reflexivity].
      * exists i, e. split; [lia | reflexivity].
    + intros k v Hk E. destruct (H k v Hk) as [j [e' [Hj ->]]].
      apply structure_name_inj in E; lia.
Qed.

Lemma extractStructureData_named {T : Type} (structures : list (string * T)) :
  Z.of_nat (length structures) <= MAX_ARRAY_LENGTH ->
  extractStructureData (cells_of structures) = Normal (named_from 0 structures).
Proof.
  intros Hlen. unfold extractStructureData.
  rewrite extract_from_named; [reflexivity | exact Hlen |]. intros k v [].
Qed.

(** The first cell for which the host raises stops the loop: the exception
    leaves the call. *)
Lemma extract_from_raised {T : Type} (structures : list (string * T)) e
    (rest : list (Cell T)) : forall i content,
  extract_from i (cells_of structures ++ Raised e :: rest) content = Throw e.
Proof.
  induction structures as [|[e' s] structures IH]; intros i content; simpl; [reflexivity |].
  apply IH.
Qed.

Lemma encode_entries_named {T B : Type} (encode : string -> T -> B)
    (structures : list (string * T)) : forall i content,
  Z.of_nat (i + length structures) <= MAX_ARRAY_LENGTH ->
  (forall k v, In (k, v) content ->
     exists j e, (j < i)%nat /\ k = structure_name j e) ->
  encode_entries encode (named_from i structures) content
  = content ++ map (fun kv => ((fst kv ++ ".cif")%string,
                               encode (fst kv ++ ".cif")%string (snd kv)))
                   (named_from i structures).
Proof.
  induction structures as [|[e s] structures IH]; intros i content Hlen H; simpl.
  - now rewrite app_nil_r.
  - simpl in Hlen.
    assert (forall x, (structure_name i x ++ ".cif")%string = structure_name i (x ++ ".cif"))
      as Hname.
    { intros x. unfold structure_name. now rewrite !string_app_assoc. }
    rewrite obj_set_fresh.
    + rewrite IH; [now rewrite <- app_assoc | lia |].
      intros k v Hk. apply in_app_or in Hk. destruct Hk as [Hk | [[= <- <-] | []]].
      * destruct (H k v Hk) as [j [e' [Hj ->]]]. exists j, e'. split; [lia | reflexivity].
      * exists i, (e ++ ".cif")%string. split; [lia | apply Hname].
    + intros k v Hk E. destruct (H k v Hk) as [j [e' [Hj ->]]].
      rewrite Hname in E. apply structure_name_inj in E; lia.
Qed.

Lemma named_from_NoDup {T : Type} (structures : list (string * T)) : forall i,
  Z.of_nat (i + length structures) <= MAX_ARRAY_LENGTH ->
  NoDup (map (fun kv => (fst kv ++ ".cif")%string) (named_from i structures)).
Proof.
  induction structures as [|[e s] structures IH]; intros i Hlen; simpl; constructor.
  - simpl in Hlen. intros Hin. apply in_map_iff in Hin. destruct Hin as [[k v] [Hk Hkv]].
    simpl in Hk. destruct (named_from_keys structures (S i) k v Hkv) as [j [e' [Hj ->]]].
    unfold structure_name in Hk. rewrite !string_app_assoc in Hk.
    apply (structure_name_inj j i (e' ++ ".cif") (e ++ ".cif")) in Hk; lia.
  - apply IH. simpl in Hlen. lia.
Qed.

End Archive.

(** X15. When the host gives a structure with an entry id for every root
    cell (no more cells than an array holds), the archive has one file per
    root structure, in the order of the cells: the structure at place [i]
    with entry id [e] is stored under the name made of [i + 1], a dash, [e]
    and ['.cif'], encoded under this file name, and no file replaces
    another, also when several structures have the same entry id.  When the
    host raises for a cell, as it does for a root without a structure among
    its children, the exception leaves the call and there is no archive. *)
Theorem encodeStructureData_one_file_per_structure {T B : Type}
    (encode : string -> T -> B) :
  (forall structures : list (string * T),
     Z.of_nat (length structures) <= MAX_ARRAY_LENGTH ->
     ExportHelper.extractStructureData (cells_of structures)
     = Normal (named_from 0 structures)
     /\ ExportHelper.encodeStructureData encode (cells_of structures)
        = Normal (map (fun kv => ((fst kv ++ ".cif")%string,
                                  encode (fst kv ++ ".cif")%string (snd kv)))
                    (named_from 0 structures))
     /\ length (named_from 0 structures) = length structures
     /\ NoDup (map (fun kv => (fst kv ++ ".cif")%string) (named_from 0 structures)))
  /\ (forall (structures : list (string * T)) e (rest : list (ExportHelper.Cell T)),
        ExportHelper.extractStructureData (cells_of structures ++ Raised e :: rest)
        = Throw e
        /\ ExportHelper.encodeStructureData encode (cells_of structures ++ Raised e :: rest)
           = Throw e).
Proof.
  split.
  - intros structures Hlen.
    split; [now apply extractStructureData_named |]. split; [| split].
    + unfold ExportHelper.encodeStructureData.
      rewrite extractStructureData_named by exact Hlen. simpl.
      rewrite encode_entries_named; [reflexivity | exact Hlen |]. intros k v [].
    + generalize 0%nat. induction structures as [|[e s] structures IH]; intros i; simpl;
        [reflexivity |].
      rewrite IH; [reflexivity |]. simpl in Hlen. lia.
    + now apply named_from_NoDup.
  - intros structures e rest.
    assert (ExportHelper.extractStructureData (cells_of structures ++ Raised e :: rest)
            = Throw e) as H by apply extract_from_raised.
    split; [exact H |]. unfold ExportHelper.encodeStructureData. now rewrite H.
Qed.

Lemma encodeStructureData_one_file_per_structure_witness :
  ExportHelper.encodeStructureData (fun name (s : nat) => (name, s))
    (cells_of [("1ABC", 7%nat); ("1ABC", 8%nat)])
  = Normal [("1-1ABC.cif", ("1-1ABC.cif", 7%nat)); ("2-1ABC.cif", ("2-1ABC.cif", 8%nat))].
Proof.
  apply (proj1 (proj2 (proj1 (encodeStructureData_one_file_per_structure
                                (fun name (s : nat) => (name, s)))
                         [("1ABC", 7%nat); ("1ABC", 8%nat)] ltac:(vm_compute; congruence)))).
Defined.

(** X16. Creating a component: for a model id that no structure has, every
    overload throws ['createComponent error: model not found'] and adds
    nothing.  The chain overload and the set overload on a model that is
    there add one component, on the first structure of the model, with the
    given label and representation, over the chain or the residues
    given. *)
Theorem createComponent_by_model_id :
  (forall structures componentLabel modelId args representationType,
     (forall x, In x structures -> of_model modelId x = false /\ no_units x = false) ->
     ViewerComponents.createComponent structures componentLabel modelId args
       representationType
     = Throw ViewerComponents.model_not_found)
  /\ (forall pre s post componentLabel modelId asymId representationType,
        (forall x, In x pre -> of_model modelId x = false /\ no_units x = false) ->
        of_model modelId s = true ->
        ViewerComponents.createComponent (pre ++ s :: post) componentLabel modelId
          (ViewerComponents.FromChain asymId) representationType
        = Normal [ {| ViewerComponents.structureRef := ViewerApi.ref s;
                      ViewerComponents.selection := ViewerComponents.ChainGroups asymId;
                      ViewerComponents.label := componentLabel;
                      ViewerComponents.checkExisting := false;
                      ViewerComponents.representation := representationType |} ])
  /\ (forall pre s post componentLabel modelId residues representationType,
        (forall x, In x pre -> of_model modelId x = false /\ no_units x = false) ->
        of_model modelId s = true ->
        ViewerComponents.createComponent (pre ++ s :: post) componentLabel modelId
          (ViewerComponents.FromSet residues) representationType
        = Normal [ {| ViewerComponents.structureRef := ViewerApi.ref s;
                      ViewerComponents.selection := ViewerComponents.MergedGroups residues;
                      ViewerComponents.label := componentLabel;
                      ViewerComponents.checkExisting := false;
                      ViewerComponents.representation := representationType |} ]).
Proof.
  split; [| split].
  - intros structures componentLabel modelId args representationType H.
    unfold ViewerComponents.createComponent.
    rewrite <- (app_nil_r structures). now rewrite getStructureRef_skips.
  - intros pre s post componentLabel modelId asymId representationType Hpre Hs.
    unfold ViewerComponents.createComponent.
    now rewrite (getStructureRef_first _ _ _ _ Hpre Hs).
  - intros pre s post componentLabel modelId residues representationType Hpre Hs.
    unfold ViewerComponents.createComponent.
    now rewrite (getStructureRef_first _ _ _ _ Hpre Hs).
Qed.

Lemma createComponent_by_model_id_witness :
  ViewerComponents.createComponent
    [ {| ViewerApi.ref := "r1";
         ViewerApi.units := Some [ {| ViewerApi.model_id := "m1" |} ] |} ]
    "site" "m2" (ViewerComponents.FromChain "A") "ball-and-stick"
  = Throw ViewerComponents.model_not_found.
Proof.
  apply (proj1 createComponent_by_model_id).
  intros x [<- | []]; split; reflexivity.
Defined.

(** X17. The range overload of [createComponent] within the safe integers,
    on a model that is there, adds one component, on the first structure of
    the model, with the given label and representation, over the chain and
    exactly the residues [begin, ..., end] (none when [end < begin]). *)
Theorem createComponent_from_range
    pre s post componentLabel modelId asymId (b e : Z) representationType :
  (forall x, In x pre -> of_model modelId x = false /\ no_units x = false) ->
  of_model modelId s = true ->
  (b <= e ->
   - (Js.MAX_SAFE_INTEGER + 1) <= b /\ e <= Js.MAX_SAFE_INTEGER
   /\ e - b + 1 <= MAX_ARRAY_LENGTH) ->
  ViewerComponents.createComponent (pre ++ s :: post) componentLabel modelId
    (ViewerComponents.FromRange asymId (Js.Int b) (Js.Int e)) representationType
  = Normal [ {| ViewerComponents.structureRef := ViewerApi.ref s;
                ViewerComponents.selection :=
                  ViewerComponents.RangeGroups
                    {| Viewer.chain_test := asymId;
                       Viewer.residue_test := numbers (upto b (Z.to_nat (e + 1 - b))) |};
                ViewerComponents.label := componentLabel;
                ViewerComponents.checkExisting := false;
                ViewerComponents.representation := representationType |} ].
Proof.
  intros Hpre Hs Hsafe. unfold ViewerComponents.createComponent.
  rewrite (getStructureRef_first _ _ _ _ Hpre Hs). simpl.
  unfold ViewerComponents.createComponentFromRange.
  rewrite range_seq_id_eq by (intros H; destruct (Hsafe H) as (? & ? & ?); auto). simpl.
  now rewrite (set_to_array_fresh _ []) by apply upto_NoDup.
Qed.

Lemma createComponent_from_range_witness :
  ViewerComponents.createComponent
    ([] ++ {| ViewerApi.ref := "r1";
              ViewerApi.units := Some [ {| ViewerApi.model_id := "m1" |} ] |} :: [])
    "site" "m1" (ViewerComponents.FromRange "A" (Js.Int 10) (Js.Int 12)) "cartoon"
  = Normal [ {| ViewerComponents.structureRef := "r1";
                ViewerComponents.selection :=
                  ViewerComponents.RangeGroups
                    {| Viewer.chain_test := "A";
                       Viewer.residue_test := [Js.Int 10; Js.Int 11; Js.Int 12] |};
                ViewerComponents.label := "site";
                ViewerComponents.checkExisting := false;
                ViewerComponents.representation := "cartoon" |} ].
Proof.
  apply (createComponent_from_range []
           {| ViewerApi.ref := "r1";
              ViewerApi.units := Some [ {| ViewerApi.model_id := "m1" |} ] |} []
           "site" "m1" "A" 10 12 "cartoon").
  - intros x [].
  - reflexivity.
  - intros _. vm_compute. repeat split; congruence.
Defined.
